(** * Comic library backend: the resource and persistence layer

    A shallow embedding of the request handlers of [server.js], of the
    routes of the older, shorter server kept next to it where they differ,
    and of the two connection indicators, over an explicit model of the
    relational store the handlers talk to.

    - JavaScript values of request bodies and query strings: [jsval], with
      the language's truthiness, [||] and conversion to text, and the
      parameters node-postgres makes of them.
    - The store: two tables held as lists of rows in insertion order, with
      the column types and the constraints their [CREATE TABLE] statements
      declare and the foreign key [initializeDatabase] adds.  Every SQL
      statement the handlers issue is a function on that state.
    - Effects: a state-and-exception monad [M] over a [world] made of the
      database, the connection pool counters and a tick counter.  An
      [oracle] supplies what the program cannot compute: whether the store
      answers an operation at all, the value of [NOW()], the random tokens
      behind [comic_id], and the two readings of text that belong to the
      store's configuration, lower-casing and array literals.

    What the store model computes itself: table existence, the widths of
    the [VARCHAR] columns, the reading of [LIMIT] and [OFFSET] as 64-bit
    integers, [NOT NULL], [UNIQUE], the foreign key, the arbiter-index
    requirement of [ON CONFLICT], and the sequence behind [SERIAL], which
    a rejected row does not give back.  Connectivity is the oracle's
    [faults].

    Texts are held in UTF-8, as the store holds them; a [string] stands
    for a text the store takes, which excludes the character of code 0. *)

From Stdlib Require Import ZArith NArith Ascii String List Bool Lia.
From stdpp Require Import gmap strings list sorting pretty.

Local Open Scope string_scope.
Local Open Scope Z_scope.

(** ** JavaScript values *)

(** The JSON values the handlers meet in [req.body], [req.query] and
    [req.params].  A number is given by the text [String] makes of it,
    which is all the handlers use of it: it is falsy when that text is
    [0] or [NaN], and it is bound to a statement as that text.  An object
    that is not an array is given by the text [JSON.stringify] makes of
    it. *)
#[warnings="-register-all"] Inductive jsval :=
  | JUndefined
  | JNull
  | JBool (b : bool)
  | JNum (text : string)
  | JStr (s : string)
  | JArr (l : list jsval)
  | JObj (json : string).

(** ToBoolean: [undefined], [null], [false], zero, [NaN] and the empty
    string are falsy; every object, also the empty array, is truthy. *)
Definition js_truthy (v : jsval) : bool :=
  match v with
  | JUndefined | JNull => false
  | JBool b => b
  | JNum t => negb (String.eqb t "0") && negb (String.eqb t "NaN")
  | JStr s => negb (String.eqb s "")
  | JArr _ | JObj _ => true
  end.

(** [a || b] *)
Definition js_or (a b : jsval) : jsval := if js_truthy a then a else b.

(** ToString, as a template literal applies it; an array joins the texts
    of its elements with commas, [null] and [undefined] giving nothing. *)
Fixpoint js_to_string (v : jsval) : string :=
  match v with
  | JUndefined => "undefined"
  | JNull => "null"
  | JBool b => if b then "true" else "false"
  | JNum t => t
  | JStr s => s
  | JArr l =>
      String.concat ","
        (map (fun x => match x with
                       | JUndefined | JNull => ""
                       | _ => js_to_string x
                       end) l)
  | JObj _ => "[object Object]"
  end.

(** A plain object used as a record of optional fields. *)
Abbreviation jsobj := (gmap string jsval).

(** [o.k]: a missing property reads as [undefined]. *)
Definition field (o : jsobj) (k : string) : jsval := default JUndefined (o !! k).

(** *** Parameters of a statement *)

(** What node-postgres sends for a parameter: [NULL] or a text. *)
Inductive param :=
  | NullParam
  | TextParam (s : string).

Definition dquote : ascii := ascii_of_nat 34.

(** [escapeElement]: a backslash before every backslash and every double
    quote, the whole between double quotes. *)
Fixpoint escape (s : string) : string :=
  match s with
  | EmptyString => EmptyString
  | String c s' =>
      if Ascii.eqb c "\" || Ascii.eqb c dquote
      then String "\" (String c (escape s'))
      else String c (escape s')
  end.

Definition escapeElement (s : string) : string :=
  String dquote (escape s +:+ String dquote EmptyString).

(** An element of [arrayString]: [NULL] for [null] and [undefined], the
    literal of a nested array, and the escaped text of anything else. *)
Fixpoint array_element (v : jsval) : string :=
  match v with
  | JUndefined | JNull => "NULL"
  | JBool b => escapeElement (if b then "true" else "false")
  | JNum t => escapeElement t
  | JStr s => escapeElement s
  | JArr l => "{" +:+ String.concat "," (map array_element l) +:+ "}"
  | JObj j => escapeElement j
  end.

(** [arrayString]: the array literal node-postgres writes. *)
Definition arrayString (l : list jsval) : string :=
  "{" +:+ String.concat "," (map array_element l) +:+ "}".

(** [prepareValue]: [undefined] and [null] are bound as [NULL], an array
    as its literal, any other object as its JSON text, and the rest by
    [toString]. *)
Definition prepareValue (v : jsval) : param :=
  match v with
  | JUndefined | JNull => NullParam
  | JBool b => TextParam (if b then "true" else "false")
  | JNum t => TextParam t
  | JStr s => TextParam s
  | JArr l => TextParam (arrayString l)
  | JObj j => TextParam j
  end.

(** *** Numbers of the query string *)

(** [page] and [limit] reach the handler as the digits of an integer.
    Arithmetic turns them into Numbers: the integers that a double holds,
    or a value that is not finite. *)
Inductive jsnum :=
  | Int (z : Z)
  | NonFinite.

(** ToNumber on the digits of [z], and the rounding of every exact
    result: the nearest double, ties to the even mantissa, and infinity
    from [2^1024 - 2^970] on. *)
Definition to_double (z : Z) : jsnum :=
  let a := Z.abs z in
  if a <? 2 ^ 53 then Int z
  else
    let e := Z.log2 a - 52 in
    let q := a / 2 ^ e in
    let r := a mod 2 ^ e in
    let half := 2 ^ (e - 1) in
    let q' := if (half <? r) || ((r =? half) && Z.odd q) then q + 1 else q in
    if 2 ^ 1024 <=? q' * 2 ^ e then NonFinite else Int (Z.sgn z * (q' * 2 ^ e)).

(** [a - b] and [a * b]; infinities and [NaN] stay what they are. *)
Definition js_minus (a b : jsnum) : jsnum :=
  match a, b with
  | Int x, Int y => to_double (x - y)
  | _, _ => NonFinite
  end.

Definition js_times (a b : jsnum) : jsnum :=
  match a, b with
  | Int x, Int y => to_double (x * y)
  | _, _ => NonFinite
  end.

Definition reads_back (c a : Z) : bool :=
  match to_double c with
  | Int x => x =? a
  | NonFinite => false
  end.

(** The integer that the digits of [String(a)] denote, for a double
    [a >= 2^53]: the decimal with the fewest significant digits that reads
    back as [a], the closest to [a] when there are two. *)
Fixpoint shortest_decimal (m : nat) (a : Z) : Z :=
  match m with
  | O => a
  | S m' =>
      let scale := 10 ^ Z.of_nat m in
      let lo := a / scale * scale in
      let hi := lo + scale in
      let lo_ok := reads_back lo a in
      let hi_ok := reads_back hi a in
      if lo_ok && hi_ok then
        if (a - lo <? hi - a) || ((a - lo =? hi - a) && Z.even (a / scale))
        then lo else hi
      else if lo_ok then lo
      else if hi_ok then hi
      else shortest_decimal m' a
  end.

(** A text read as a 64-bit integer. *)
Definition int8 (z : Z) : option Z :=
  if (- 2 ^ 63 <=? z) && (z <? 2 ^ 63) then Some z else None.

(** A Number bound to a [bigint] parameter: [toString] makes digits of
    an integer below [10^21], which the store reads if they fit 64 bits;
    anything else it rejects. *)
Definition int8_of_number (n : jsnum) : option Z :=
  match n with
  | Int z =>
      if Z.abs z <? 2 ^ 53 then Some z
      else if Z.abs z <? 2 ^ 63
      then int8 (Z.sgn z * shortest_decimal 19 (Z.abs z))
      else None
  | NonFinite => None
  end.

(** ** Text *)

(** The characters of a text held in UTF-8: a byte that is not a
    continuation byte starts a character. *)
Definition is_continuation (b : ascii) : bool :=
  let n := nat_of_ascii b in (128 <=? n)%nat && (n <? 192)%nat.

Fixpoint utf8_chars (l : list ascii) : list (list ascii) :=
  match l with
  | [] => []
  | b :: l' =>
      match utf8_chars l' with
      | (c :: k) :: cs =>
          if is_continuation c then (b :: c :: k) :: cs else [b] :: (c :: k) :: cs
      | cs => [b] :: cs
      end
  end.

(** The code point of one character. *)
Definition code_point (k : list ascii) : N :=
  match k with
  | [] => 0%N
  | [b] => N_of_ascii b
  | b :: rest =>
      fold_left (fun acc c => (acc * 64 + N_of_ascii c mod 64)%N) rest
        (N_of_ascii b mod 2 ^ (7 - N.of_nat (length k)))%N
  end.

Definition chars (s : string) : list N :=
  map code_point (utf8_chars (list_ascii_of_string s)).

Definition char_length (s : string) : nat :=
  length (utf8_chars (list_ascii_of_string s)).

(** The first [n] characters of a text, and the rest. *)
Definition clip (n : nat) (s : string) : string * string :=
  let cs := utf8_chars (list_ascii_of_string s) in
  (string_of_list_ascii (concat (take n cs)),
   string_of_list_ascii (concat (drop n cs))).

(** ** SQL values and rows *)

(** A stored value: [NULL], a text, or an array of texts, given by the
    text the store writes it as. *)
Inductive sqlval :=
  | SNull
  | SText (s : string)
  | SArray (a : string).

Global Instance sqlval_eq_dec : EqDecision sqlval.
Proof. solve_decision. Defined.

(** A text parameter in a comparison. *)
Definition value_of (p : param) : sqlval :=
  match p with
  | NullParam => SNull
  | TextParam s => SText s
  end.

(** [a = b] in a [WHERE] clause: a comparison with [NULL] is not true. *)
Definition sql_eq (a b : sqlval) : bool :=
  match a, b with
  | SNull, _ | _, SNull => false
  | _, _ => bool_decide (a = b)
  end.

(** [a != b] in a [WHERE] clause: a comparison with [NULL] is not true. *)
Definition sql_neq (a b : sqlval) : bool :=
  match a, b with
  | SNull, _ | _, SNull => false
  | _, _ => negb (bool_decide (a = b))
  end.

(** [COALESCE(p, c)] *)
Definition coalesce (p c : sqlval) : sqlval :=
  match p with SNull => c | _ => p end.

Module Category.
(** A row of [categories]. *)
Record t := mk {
  id : nat;
  category_id : sqlval;
  name : string;
  code : sqlval;
  icon : sqlval;
  color : sqlval;
  created_at : Z
}.
End Category.

Module Comic.
(** A row of [comics]. *)
Record t := mk {
  id : nat;
  comic_id : sqlval;
  title : sqlval;
  category_id : sqlval;
  subcategory : sqlval;
  chapter : sqlval;
  rating : sqlval;
  tags : sqlval;
  description : sqlval;
  last_updated : Z;
  created_at : Z
}.

(** The text and array columns by name, for key constraints. *)
Definition col (c : string) (r : t) : sqlval :=
  if String.eqb c "comic_id" then comic_id r
  else if String.eqb c "title" then title r
  else if String.eqb c "category_id" then category_id r
  else if String.eqb c "subcategory" then subcategory r
  else if String.eqb c "chapter" then chapter r
  else if String.eqb c "rating" then rating r
  else if String.eqb c "tags" then tags r
  else if String.eqb c "description" then description r
  else SNull.
End Comic.

Global Instance comic_eq_dec : EqDecision Comic.t.
Proof. solve_decision. Defined.

Global Instance category_eq_dec : EqDecision Category.t.
Proof. solve_decision. Defined.

(** An entry of the constant [defaultCategories]. *)
Record default_category := {
  dc_category_id : string;
  dc_name : string;
  dc_code : string;
  dc_icon : string;
  dc_color : string
}.

Definition defaultCategories : list default_category := [
  {| dc_category_id := "hoc-duong"; dc_name := "HỌC ĐƯỜNG"; dc_code := "1111"; dc_icon := "fas fa-school"; dc_color := "#6366f1" |};
  {| dc_category_id := "mat-the"; dc_name := "MẠT THẾ"; dc_code := "2222"; dc_icon := "fas fa-skull-crossbones"; dc_color := "#ef4444" |};
  {| dc_category_id := "he-thong"; dc_name := "HỆ THỐNG"; dc_code := "3333"; dc_icon := "fas fa-cogs"; dc_color := "#10b981" |};
  {| dc_category_id := "xay-dung"; dc_name := "XÂY DỰNG"; dc_code := "4444"; dc_icon := "fas fa-building"; dc_color := "#f59e0b" |};
  {| dc_category_id := "di-gioi"; dc_name := "DỊ GIỚI"; dc_code := "5555"; dc_icon := "fas fa-globe-asia"; dc_color := "#8b5cf6" |};
  {| dc_category_id := "kinh-doanh"; dc_name := "KINH DOANH"; dc_code := "6666"; dc_icon := "fas fa-chart-line"; dc_color := "#06b6d4" |};
  {| dc_category_id := "trung-sinh"; dc_name := "TRÙNG SINH"; dc_code := "7777"; dc_icon := "fas fa-redo"; dc_color := "#ec4899" |};
  {| dc_category_id := "ngon"; dc_name := "NGÔN"; dc_code := "8888"; dc_icon := "fas fa-heart"; dc_color := "#f43f5e" |};
  {| dc_category_id := "tu-tien"; dc_name := "TU TIÊN"; dc_code := "AAA"; dc_icon := "fas fa-mountain"; dc_color := "#22c55e" |};
  {| dc_category_id := "do-thi"; dc_name := "ĐÔ THỊ"; dc_code := "BBB"; dc_icon := "fas fa-city"; dc_color := "#3b82f6" |};
  {| dc_category_id := "phan-dien"; dc_name := "PHẢN DIỆN"; dc_code := "CCC"; dc_icon := "fas fa-user-ninja"; dc_color := "#0ea5e9" |};
  {| dc_category_id := "vo-han-luu"; dc_name := "VÔ HẠN LƯU"; dc_code := "EEE"; dc_icon := "fas fa-infinity"; dc_color := "#a855f7" |};
  {| dc_category_id := "manh"; dc_name := "MẠNH"; dc_code := "DDD"; dc_icon := "fas fa-fist-raised"; dc_color := "#f97316" |};
  {| dc_category_id := "quy-than"; dc_name := "QUỶ THẦN"; dc_code := "FFF"; dc_icon := "fas fa-ghost"; dc_color := "#6b7280" |};
  {| dc_category_id := "ecchi"; dc_name := "ECCHI"; dc_code := "9999"; dc_icon := "fas fa-fire"; dc_color := "#dc2626" |};
  {| dc_category_id := "phim"; dc_name := "PHIM"; dc_code := "0000"; dc_icon := "fas fa-film"; dc_color := "#8b5cf6" |}
].

(** ** The store *)

(** A table: its rows in insertion order, the next value of its [SERIAL]
    sequence, and the column sets that carry a [UNIQUE] index (the primary
    key on the serial [id] is left out: the sequence never repeats). *)
Record table (R : Type) := mk_table {
  rows : list R;
  serial : nat;
  uniques : list (list string)
}.
Arguments mk_table {R}.
Arguments rows {R}.
Arguments serial {R}.
Arguments uniques {R}.

(** The working schema; [None] is a table that does not exist.  [fkey]
    tells whether the constraint [comics_category_id_fkey] is in place. *)
Record database := mk_db {
  categories : option (table Category.t);
  comics : option (table Comic.t);
  fkey : bool
}.

Definition no_tables : database :=
  {| categories := None; comics := None; fkey := false |}.

(** ** Effects *)

(** What the program takes from outside.  Indexed by the tick at which it
    is asked: whether the store fails the operation, what [NOW()] is, and
    the token [`${Date.now()}_${Math.random()...}`].  Fixed by the
    configuration of the store: the lower-case mapping of its locale, as
    [ILIKE] applies it to each character, and its reading of an array
    literal, which gives the text of the array or rejects the literal. *)
Record oracle := mk_oracle {
  faults : nat → bool;
  clock : nat → Z;
  token : nat → string;
  lc_lower : N → N;
  array_in : string → option string
}.

(** The pool's counters: connections handed out and given back. *)
Record pool_state := mk_pool {
  acquired : nat;
  released : nat
}.

Record world := mk_world {
  db : database;
  pool : pool_state;
  tick : nat
}.

Inductive outcome (A : Type) :=
  | Ok (a : A)
  | Threw (e : string).
Arguments Ok {A}.
Arguments Threw {A}.

(** A computation that may throw; the world it leaves is kept either way. *)
Definition M (A : Type) : Type := world → outcome A * world.

Definition ret {A} (a : A) : M A := fun w => (Ok a, w).

Definition bind {A B} (m : M A) (k : A → M B) : M B :=
  fun w => match m w with
           | (Ok a, w') => k a w'
           | (Threw e, w') => (Threw e, w')
           end.

Definition throw {A} (e : string) : M A := fun w => (Threw e, w).

(** [try { m } catch (e) { h e }] *)
Definition try_catch {A} (m : M A) (h : string → M A) : M A :=
  fun w => match m w with
           | (Ok a, w') => (Ok a, w')
           | (Threw e, w') => h e w'
           end.

(** [try { m } finally { f }] *)
Definition try_finally {A} (m : M A) (f : M unit) : M A :=
  fun w => match m w with
           | (r, w') => match f w' with
                        | (Ok _, w'') => (r, w'')
                        | (Threw e, w'') => (Threw e, w'')
                        end
           end.

Notation "'let*' x ':=' m 'in' k" := (bind m (fun x => k))
  (at level 10, x name, m at level 100, k at level 200).
Notation "'run*' m 'in' k" := (bind m (fun _ => k))
  (at level 10, m at level 100, k at level 200).

(** [for (const x of l) { acc.push(await f x) }] *)
Fixpoint for_each {A B} (f : A → M B) (l : list A) : M (list B) :=
  match l with
  | [] => ret []
  | x :: l' =>
      let* y := f x in
      let* ys := for_each f l' in
      ret (y :: ys)
  end.

(** ** SQL statements

    A statement reads the value of [NOW()] and the database, and returns
    a result or fails; either way it leaves a database, which after a
    failure is the one it found, but for a sequence it has drawn from. *)
Definition stmt (A : Type) : Type := Z → database → outcome A * database.

Definition set_categories (t : table Category.t) (d : database) : database :=
  {| categories := Some t; comics := comics d; fkey := fkey d |}.

Definition set_comics (t : table Comic.t) (d : database) : database :=
  {| categories := categories d; comics := Some t; fkey := fkey d |}.

Definition set_fkey (d : database) : database :=
  {| categories := categories d; comics := comics d; fkey := true |}.

Definition no_relation (name : string) : string :=
  "relation " +:+ name +:+ " does not exist".

(** *** The types of the columns *)

Inductive coltype :=
  | Varchar (n : nat)
  | Text
  | TextArray.

(** The value a column takes from a parameter.  A [VARCHAR(n)] column
    takes a text of at most [n] characters as it is, and a longer one cut
    to [n] characters if all it loses is spaces; any other text is
    rejected.  A [TEXT[]] column takes what the store reads the text as,
    as an array literal. *)
Definition store_as (O : oracle) (ty : coltype) (p : param) : outcome sqlval :=
  match p with
  | NullParam => Ok SNull
  | TextParam s =>
      match ty with
      | Varchar n =>
          if (char_length s <=? n)%nat then Ok (SText s)
          else
            let (kept, excess) := clip n s in
            if forallb (Ascii.eqb " ") (list_ascii_of_string excess)
            then Ok (SText kept)
            else Threw ("value too long for type character varying("
                        +:+ pretty n +:+ ")")
      | Text => Ok (SText s)
      | TextArray =>
          match array_in O s with
          | Some a => Ok (SArray a)
          | None => Threw "malformed array literal"
          end
      end
  end.

(** *** Statements on the schema and on [categories] *)

(** [CREATE TABLE IF NOT EXISTS categories (id SERIAL PRIMARY KEY,
    category_id VARCHAR(50) UNIQUE NOT NULL, ...)] *)
Definition create_categories_table : stmt unit := fun _ d =>
  (Ok tt, match categories d with
          | Some _ => d
          | None => set_categories (mk_table [] 1 [["category_id"]]) d
          end).

(** [CREATE TABLE IF NOT EXISTS comics (id SERIAL PRIMARY KEY,
    comic_id VARCHAR(100) UNIQUE NOT NULL, title VARCHAR(500) NOT NULL,
    category_id VARCHAR(50) NOT NULL, ...)]: the only key besides [id] is
    [comic_id]. *)
Definition create_comics_table : stmt unit := fun _ d =>
  (Ok tt, match comics d with
          | Some _ => d
          | None => set_comics (mk_table [] 1 [["comic_id"]]) d
          end).

(** [SELECT COUNT( * ) FROM categories] *)
Definition count_categories : stmt nat := fun _ d =>
  match categories d with
  | Some t => (Ok (length (rows t)), d)
  | None => (Threw (no_relation "categories"), d)
  end.

(** [SELECT COUNT( * ) FROM comics] *)
Definition count_comics : stmt nat := fun _ d =>
  match comics d with
  | Some t => (Ok (length (rows t)), d)
  | None => (Threw (no_relation "comics"), d)
  end.

(** Two column lists name the same set of columns. *)
Definition same_cols (u v : list string) : bool :=
  forallb (fun c => existsb (String.eqb c) v) u
  && forallb (fun c => existsb (String.eqb c) u) v.

(** [ON CONFLICT (target)] needs a unique index on exactly those columns;
    without one the statement is rejected whatever the data. *)
Definition has_arbiter {R} (target : list string) (t : table R) : bool :=
  existsb (same_cols target) (uniques t).

Definition no_arbiter : string :=
  "there is no unique or exclusion constraint matching the ON CONFLICT specification".

(** [INSERT INTO categories (category_id, name, code, icon, color)
    VALUES ($1, $2, $3, $4, $5) ON CONFLICT (category_id) DO NOTHING],
    which the program issues for the entries of [defaultCategories]
    only; their texts fit the columns (lemma [defaultCategories_fit]). *)
Definition insert_default_category (c : default_category) : stmt unit := fun now d =>
  match categories d with
  | None => (Threw (no_relation "categories"), d)
  | Some t =>
      if negb (has_arbiter ["category_id"] t) then (Threw no_arbiter, d)
      else if existsb (fun r => sql_eq (Category.category_id r) (SText (dc_category_id c))) (rows t)
      then (Ok tt, set_categories (mk_table (rows t) (S (serial t)) (uniques t)) d)
      else
        let r := Category.mk (serial t) (SText (dc_category_id c)) (dc_name c)
                   (SText (dc_code c)) (SText (dc_icon c)) (SText (dc_color c)) now in
        (Ok tt, set_categories (mk_table (rows t ++ [r]) (S (serial t)) (uniques t)) d)
  end.

(** Some category carries the [category_id] of the comic. *)
Definition has_category (cats : list Category.t) (r : Comic.t) : bool :=
  existsb (fun k => sql_eq (Comic.category_id r) (Category.category_id k)) cats.

Definition is_null (v : sqlval) : bool :=
  match v with SNull => true | _ => false end.

(** The [DO $$ ... IF NOT EXISTS (constraint comics_category_id_fkey)
    THEN ALTER TABLE comics ADD CONSTRAINT comics_category_id_fkey
    FOREIGN KEY (category_id) REFERENCES categories(category_id)
    ON DELETE CASCADE $$] block: nothing to do when the constraint is
    there; otherwise it is added, unless [categories] has no unique index
    on [category_id] or some stored comic names a category that does not
    exist. *)
Definition add_foreign_key : stmt unit := fun _ d =>
  if fkey d then (Ok tt, d)
  else
    match comics d, categories d with
    | None, _ => (Threw (no_relation "comics"), d)
    | _, None => (Threw (no_relation "categories"), d)
    | Some tc, Some t =>
        if negb (has_arbiter ["category_id"] t)
        then (Threw "there is no unique constraint matching given keys for referenced table", d)
        else if forallb (fun r => is_null (Comic.category_id r) || has_category (rows t) r)
                  (rows tc)
        then (Ok tt, set_fkey d)
        else (Threw "insert or update on table comics violates foreign key constraint", d)
    end.

(** [SELECT NOW()] *)
Definition select_now : stmt Z := fun now d => (Ok now, d).

Definition has_table (name : string) (d : database) : bool :=
  if String.eqb name "categories" then bool_decide (is_Some (categories d))
  else if String.eqb name "comics" then bool_decide (is_Some (comics d))
  else false.

(** [SELECT table_name FROM information_schema.tables
    WHERE table_schema = 'public' ORDER BY table_name] *)
Definition list_tables : stmt (list string) := fun _ d =>
  (Ok (filter (fun n => has_table n d = true) ["categories"; "comics"]), d).

(** [SELECT COUNT( * ) FROM ${table}] *)
Definition count_table (name : string) : stmt nat := fun now d =>
  if String.eqb name "categories" then count_categories now d
  else if String.eqb name "comics" then count_comics now d
  else (Threw (no_relation name), d).

(** [SELECT EXISTS (SELECT FROM information_schema.tables
    WHERE table_schema = 'public' AND table_name = name)] *)
Definition table_exists (name : string) : stmt bool := fun _ d =>
  (Ok (has_table name d), d).

(** The two-column variant: [categories_exists], [comics_exists]. *)
Definition tables_exist : stmt (bool * bool) := fun _ d =>
  (Ok (has_table "categories" d, has_table "comics" d), d).

(** [ORDER BY name] *)
Definition by_name (a b : Category.t) : Prop :=
  String.leb (Category.name a) (Category.name b) = true.

Global Instance by_name_dec a b : Decision (by_name a b).
Proof. unfold by_name. apply _. Defined.

(** [SELECT * FROM categories ORDER BY name] *)
Definition select_categories : stmt (list Category.t) := fun _ d =>
  match categories d with
  | Some t => (Ok (merge_sort by_name (rows t)), d)
  | None => (Threw (no_relation "categories"), d)
  end.

(** *** Pattern matching: [ILIKE] *)

(** The characters [LIKE] gives a meaning of their own: [%], [_] and the
    backslash. *)
Definition percent : N := 37.
Definition underscore : N := 95.
Definition backslash : N := 92.

(** Every suffix of a list, longest first. *)
Fixpoint tails {A} (l : list A) : list (list A) :=
  l :: match l with
       | [] => []
       | _ :: l' => tails l'
       end.

(** [s LIKE p], character by character: [%] stands for any run of
    characters, [_] for any one character, and a backslash makes the next
    pattern character literal.  A pattern that ends in a lone backslash
    matches nothing; the patterns the program builds end in [%]. *)
Fixpoint like_match (p s : list N) {struct p} : bool :=
  match p with
  | [] => match s with [] => true | _ :: _ => false end
  | c :: p' =>
      if N.eqb c percent then existsb (like_match p') (tails s)
      else if N.eqb c underscore then
        match s with [] => false | _ :: s' => like_match p' s' end
      else if N.eqb c backslash then
        match p' with
        | [] => false
        | e :: p'' =>
            match s with
            | [] => false
            | x :: s' => N.eqb e x && like_match p'' s'
            end
        end
      else
        match s with
        | [] => false
        | x :: s' => N.eqb c x && like_match p' s'
        end
  end.

(** The characters of a text, each in the lower case of the locale. *)
Definition fold_case (O : oracle) (s : string) : list N :=
  map (lc_lower O) (chars s).

(** [v ILIKE pat] in a [WHERE] clause: pattern and text are put in lower
    case, then matched; [NULL ILIKE pat] is not true. *)
Definition ilike (O : oracle) (v : sqlval) (pat : string) : bool :=
  match v with
  | SText s => like_match (fold_case O pat) (fold_case O s)
  | _ => false
  end.

(** *** Statements on [comics] *)

(** The query [GET /api/comics] builds: the optional [WHERE] conjuncts,
    then [ORDER BY last_updated DESC LIMIT $n OFFSET $m]; [limit] is bound
    as the digits it came as, [offset] as the Number the handler
    computed. *)
Record comics_query := {
  q_category : option param;
  q_pattern : option string;
  q_limit : Z;
  q_offset : jsnum
}.

Definition where_clause (O : oracle) (q : comics_query) (r : Comic.t) : bool :=
  match q_category q with
  | Some c => sql_eq (Comic.category_id r) (value_of c)
  | None => true
  end
  && match q_pattern q with
     | Some p => ilike O (Comic.title r) p || ilike O (Comic.description r) p
     | None => true
     end.

(** [ORDER BY last_updated DESC] *)
Definition by_last_updated_desc (a b : Comic.t) : Prop :=
  Comic.last_updated b ≤ Comic.last_updated a.

Global Instance by_last_updated_desc_dec a b : Decision (by_last_updated_desc a b).
Proof. unfold by_last_updated_desc. apply _. Defined.

(** The store reads [LIMIT] and [OFFSET] as 64-bit integers, and rejects a
    negative one. *)
Definition select_comics (O : oracle) (q : comics_query) : stmt (list Comic.t) :=
  fun _ d =>
  match comics d with
  | None => (Threw (no_relation "comics"), d)
  | Some t =>
      match int8 (q_limit q), int8_of_number (q_offset q) with
      | Some limit, Some offset =>
          if limit <? 0 then (Threw "LIMIT must not be negative", d)
          else if offset <? 0 then (Threw "OFFSET must not be negative", d)
          else
            (Ok (take (Z.to_nat limit)
                   (drop (Z.to_nat offset)
                      (merge_sort by_last_updated_desc
                         (filter (fun r => where_clause O q r = true) (rows t))))), d)
      | _, _ => (Threw "invalid input for type bigint", d)
      end
  end.

(** [SELECT * FROM comics WHERE comic_id = $1] *)
Definition select_comic (id : param) : stmt (list Comic.t) := fun _ d =>
  match comics d with
  | None => (Threw (no_relation "comics"), d)
  | Some t =>
      (Ok (filter (fun r => sql_eq (Comic.comic_id r) (value_of id) = true) (rows t)), d)
  end.

(** The eight bound parameters of an [INSERT INTO comics]. *)
Record comic_values := {
  v_comic_id : param;
  v_title : param;
  v_category_id : param;
  v_subcategory : param;
  v_chapter : param;
  v_rating : param;
  v_tags : param;
  v_description : param
}.

(** A step that may be rejected, then the rest. *)
Definition and_then {A B} (x : outcome A) (k : A → outcome B) : outcome B :=
  match x with
  | Ok a => k a
  | Threw e => Threw e
  end.

(** The proposed row, each parameter in the type of its column: [id] from
    the sequence, [last_updated = NOW()], and [created_at] from its
    column default [CURRENT_TIMESTAMP]. *)
Definition proposed_row (O : oracle) (v : comic_values) (id : nat) (now : Z)
    : outcome Comic.t :=
  and_then (store_as O TextArray (v_tags v)) (fun tags =>
  and_then (store_as O (Varchar 100) (v_comic_id v)) (fun comic_id =>
  and_then (store_as O (Varchar 500) (v_title v)) (fun title =>
  and_then (store_as O (Varchar 50) (v_category_id v)) (fun category_id =>
  and_then (store_as O (Varchar 100) (v_subcategory v)) (fun subcategory =>
  and_then (store_as O (Varchar 50) (v_chapter v)) (fun chapter =>
  and_then (store_as O (Varchar 20) (v_rating v)) (fun rating =>
  and_then (store_as O Text (v_description v)) (fun description =>
  Ok (Comic.mk id comic_id title category_id subcategory chapter rating tags
        description now now))))))))).

(** [comic_id], [title] and [category_id] are declared [NOT NULL]. *)
Definition violates_not_null (r : Comic.t) : bool :=
  is_null (Comic.comic_id r) || is_null (Comic.title r) || is_null (Comic.category_id r).

(** Two rows agree on every column of a key (a [NULL] agrees with nothing). *)
Definition same_key (u : list string) (a b : Comic.t) : bool :=
  forallb (fun c => sql_eq (Comic.col c a) (Comic.col c b)) u.

(** Some unique index of the table already holds the key of [r]. *)
Definition unique_conflict (t : table Comic.t) (r : Comic.t) : bool :=
  existsb (fun u => existsb (same_key u r) (rows t)) (uniques t).

(** With the foreign key in place, a comic must name a category that
    exists. *)
Definition violates_fkey (d : database) (r : Comic.t) : bool :=
  fkey d && negb (is_null (Comic.category_id r))
  && negb (has_category (match categories d with Some t => rows t | None => [] end) r).

Definition append_row (t : table Comic.t) (r : Comic.t) : table Comic.t :=
  mk_table (rows t ++ [r]) (S (serial t)) (uniques t).

(** The table once the sequence has given out a value. *)
Definition drawn (t : table Comic.t) : table Comic.t :=
  mk_table (rows t) (S (serial t)) (uniques t).

(** [INSERT INTO comics (comic_id, title, category_id, subcategory, chapter,
    rating, tags, description, last_updated)
    VALUES ($1, ..., $8, NOW()) RETURNING *].  A parameter that does not
    fit its column stops the statement before it runs.  Once it runs the
    sequence has moved, also when a constraint then rejects the row. *)
Definition insert_comic (O : oracle) (v : comic_values) : stmt Comic.t := fun now d =>
  match comics d with
  | None => (Threw (no_relation "comics"), d)
  | Some t =>
      match proposed_row O v (serial t) now with
      | Threw e => (Threw e, d)
      | Ok r =>
          if violates_not_null r
          then (Threw "null value violates not-null constraint", set_comics (drawn t) d)
          else if unique_conflict t r
          then (Threw "duplicate key value violates unique constraint",
                set_comics (drawn t) d)
          else if violates_fkey d r
          then (Threw "insert or update on table comics violates foreign key constraint",
                set_comics (drawn t) d)
          else (Ok r, set_comics (append_row t r) d)
      end
  end.

(** [DO UPDATE SET chapter = EXCLUDED.chapter, rating = EXCLUDED.rating,
    last_updated = NOW()] on the row in conflict: everything else is the
    stored row's. *)
Definition conflict_update (excluded : Comic.t) (now : Z) (x : Comic.t) : Comic.t :=
  Comic.mk (Comic.id x) (Comic.comic_id x) (Comic.title x) (Comic.category_id x)
    (Comic.subcategory x) (Comic.chapter excluded) (Comic.rating excluded)
    (Comic.tags x) (Comic.description x) now (Comic.created_at x).

(** Update the first row that holds the key of [r]; [None] when no row does. *)
Fixpoint update_conflicting (key : list string) (r : Comic.t) (now : Z)
    (l : list Comic.t) : option (Comic.t * list Comic.t) :=
  match l with
  | [] => None
  | x :: l' =>
      if same_key key r x then
        let x' := conflict_update r now x in Some (x', x' :: l')
      else
        match update_conflicting key r now l' with
        | Some (y, l'') => Some (y, x :: l'')
        | None => None
        end
  end.

Definition import_key : list string := ["title"; "category_id"].

(** [INSERT INTO comics (...) VALUES ($1, ..., $8, NOW())
    ON CONFLICT (title, category_id) DO UPDATE SET ... RETURNING *].
    Without the arbiter index, or with a parameter that does not fit its
    column, the statement does not run.  Once it runs, the sequence value
    drawn for the proposed row is spent whatever happens to the row. *)
Definition upsert_comic (O : oracle) (v : comic_values) : stmt Comic.t := fun now d =>
  match comics d with
  | None => (Threw (no_relation "comics"), d)
  | Some t =>
      if negb (has_arbiter import_key t) then (Threw no_arbiter, d)
      else
        match proposed_row O v (serial t) now with
        | Threw e => (Threw e, d)
        | Ok r =>
            if violates_not_null r
            then (Threw "null value violates not-null constraint", set_comics (drawn t) d)
            else
              match update_conflicting import_key r now (rows t) with
              | Some (x', rows') =>
                  (Ok x', set_comics (mk_table rows' (S (serial t)) (uniques t)) d)
              | None =>
                  if unique_conflict t r
                  then (Threw "duplicate key value violates unique constraint",
                        set_comics (drawn t) d)
                  else if violates_fkey d r
                  then (Threw "insert or update on table comics violates foreign key constraint",
                        set_comics (drawn t) d)
                  else (Ok r, set_comics (append_row t r) d)
              end
        end
  end.

(** The five optional parameters of the [PUT] statement. *)
Record comic_params := {
  b_chapter : param;
  b_rating : param;
  b_title : param;
  b_tags : param;
  b_description : param
}.

(** The same five, each in the type of its column. *)
Record comic_patch := {
  p_chapter : sqlval;
  p_rating : sqlval;
  p_title : sqlval;
  p_tags : sqlval;
  p_description : sqlval
}.

Definition typed_patch (O : oracle) (b : comic_params) : outcome comic_patch :=
  and_then (store_as O TextArray (b_tags b)) (fun tags =>
  and_then (store_as O (Varchar 50) (b_chapter b)) (fun chapter =>
  and_then (store_as O (Varchar 20) (b_rating b)) (fun rating =>
  and_then (store_as O (Varchar 500) (b_title b)) (fun title =>
  and_then (store_as O Text (b_description b)) (fun description =>
  Ok {| p_chapter := chapter; p_rating := rating; p_title := title;
        p_tags := tags; p_description := description |}))))).

(** [SET chapter = COALESCE($1, chapter), rating = COALESCE($2, rating),
    title = COALESCE($3, title), tags = COALESCE($4, tags),
    description = COALESCE($5, description), last_updated = NOW()] *)
Definition apply_patch (p : comic_patch) (now : Z) (r : Comic.t) : Comic.t :=
  Comic.mk (Comic.id r) (Comic.comic_id r)
    (coalesce (p_title p) (Comic.title r))
    (Comic.category_id r) (Comic.subcategory r)
    (coalesce (p_chapter p) (Comic.chapter r))
    (coalesce (p_rating p) (Comic.rating r))
    (coalesce (p_tags p) (Comic.tags r))
    (coalesce (p_description p) (Comic.description r))
    now (Comic.created_at r).

(** [UPDATE comics SET ... WHERE comic_id = $k RETURNING *]: every row the
    [WHERE] clause selects is rewritten in place; the result lists the
    rewritten rows.  No [UPDATE] of the program assigns [comic_id] or
    [category_id], so no key is re-checked. *)
Definition update_where (f : Comic.t → Comic.t) (id : param) : stmt (list Comic.t) :=
  fun _ d =>
  match comics d with
  | None => (Threw (no_relation "comics"), d)
  | Some t =>
      let hit r := sql_eq (Comic.comic_id r) (value_of id) in
      let rows' := map (fun r => if hit r then f r else r) (rows t) in
      (Ok (map f (filter (fun r => hit r = true) (rows t))),
       set_comics (mk_table rows' (serial t) (uniques t)) d)
  end.

(** [UPDATE comics SET chapter = COALESCE($1, chapter), ...
    WHERE comic_id = $6 RETURNING *].  The parameters are read in the
    types of their columns before any row is looked at: one that does not
    fit stops the statement. *)
Definition update_comic (O : oracle) (b : comic_params) (id : param)
    : stmt (list Comic.t) := fun now d =>
  match comics d with
  | None => (Threw (no_relation "comics"), d)
  | Some _ =>
      match typed_patch O b with
      | Threw e => (Threw e, d)
      | Ok p => update_where (apply_patch p now) id now d
      end
  end.

(** [SET chapter = $1, last_updated = NOW()] *)
Definition set_chapter (c : sqlval) (now : Z) (r : Comic.t) : Comic.t :=
  Comic.mk (Comic.id r) (Comic.comic_id r) (Comic.title r) (Comic.category_id r)
    (Comic.subcategory r) c (Comic.rating r) (Comic.tags r) (Comic.description r)
    now (Comic.created_at r).

(** [UPDATE comics SET chapter = $1, last_updated = NOW()
    WHERE comic_id = $2 RETURNING *] *)
Definition update_chapter (O : oracle) (c id : param) : stmt (list Comic.t) :=
  fun now d =>
  match comics d with
  | None => (Threw (no_relation "comics"), d)
  | Some _ =>
      match store_as O (Varchar 50) c with
      | Threw e => (Threw e, d)
      | Ok chapter => update_where (set_chapter chapter now) id now d
      end
  end.

(** [chapter IS NOT NULL AND chapter != '' AND chapter != '0'] *)
Definition is_reading (r : Comic.t) : bool :=
  negb (is_null (Comic.chapter r))
  && sql_neq (Comic.chapter r) (SText "")
  && sql_neq (Comic.chapter r) (SText "0").

(** [SELECT COUNT( * ) FROM comics WHERE chapter IS NOT NULL
    AND chapter != '' AND chapter != '0'] *)
Definition count_reading : stmt nat := fun _ d =>
  match comics d with
  | Some t => (Ok (length (filter (fun r => is_reading r = true) (rows t))), d)
  | None => (Threw (no_relation "comics"), d)
  end.

(** [DELETE FROM comics WHERE comic_id = $1 RETURNING *] *)
Definition delete_comic (id : param) : stmt (list Comic.t) := fun _ d =>
  match comics d with
  | None => (Threw (no_relation "comics"), d)
  | Some t =>
      let gone r := sql_eq (Comic.comic_id r) (value_of id) in
      (Ok (filter (fun r => gone r = true) (rows t)),
       set_comics (mk_table (filter (fun r => gone r = false) (rows t))
                     (serial t) (uniques t)) d)
  end.

(** *** The grouped listing *)

(** An element of [json_agg(json_build_object('id', c.comic_id, ...))]. *)
Record grouped_item := {
  i_id : sqlval;
  i_title : sqlval;
  i_chapter : sqlval;
  i_rating : sqlval;
  i_tags : sqlval;
  i_description : sqlval;
  i_lastUpdated : Z
}.

Definition item_of (c : Comic.t) : grouped_item :=
  {| i_id := Comic.comic_id c; i_title := Comic.title c; i_chapter := Comic.chapter c;
     i_rating := Comic.rating c; i_tags := Comic.tags c;
     i_description := Comic.description c; i_lastUpdated := Comic.last_updated c |}.

(** A row of the grouped query: the three [GROUP BY] columns and the
    aggregate. *)
Record grouped_row := {
  g_category_id : sqlval;
  g_category_name : option string;
  g_subcategory : sqlval;
  g_items : list grouped_item
}.

(** The text a value sorts by; [None] for [NULL], which sorts last. *)
Definition sort_text (v : sqlval) : option string :=
  match v with
  | SNull => None
  | SText s => Some s
  | SArray a => Some a
  end.

(** Ascending order with [NULLS LAST]. *)
Definition nulls_last_le (a b : option string) : bool :=
  match a, b with
  | _, None => true
  | None, Some _ => false
  | Some x, Some y => String.leb x y
  end.

(** [comics c LEFT JOIN categories cat ON c.category_id = cat.category_id]:
    the names of the categories a comic joins with, [None] when it joins
    with none. *)
Definition joined_names (cats : list Category.t) (c : Comic.t) : list (option string) :=
  match filter (fun k => sql_eq (Comic.category_id c) (Category.category_id k) = true) cats with
  | [] => [None]
  | ks => map (fun k => Some (Category.name k)) ks
  end.

Definition group_key (c : Comic.t) (n : option string) : sqlval * option string * sqlval :=
  (Comic.category_id c, n, Comic.subcategory c).

(** [ORDER BY cat.name, c.subcategory] *)
Definition by_group (a b : sqlval * option string * sqlval) : Prop :=
  let '(_, na, sa) := a in
  let '(_, nb, sb) := b in
  if bool_decide (na = nb)
  then nulls_last_le (sort_text sa) (sort_text sb) = true
  else nulls_last_le na nb = true.

Global Instance by_group_dec a b : Decision (by_group a b).
Proof.
  destruct a as [[? na] sa], b as [[? nb] sb]. unfold by_group.
  destruct (bool_decide (na = nb)); apply _.
Defined.

(** [ORDER BY c.title] inside the aggregate. *)
Definition by_title (a b : Comic.t) : Prop :=
  nulls_last_le (sort_text (Comic.title a)) (sort_text (Comic.title b)) = true.

Global Instance by_title_dec a b : Decision (by_title a b).
Proof. unfold by_title. apply _. Defined.

(** [SELECT c.category_id, cat.name as category_name, c.subcategory,
    json_agg(... ORDER BY c.title) as items FROM comics c LEFT JOIN
    categories cat ON ... GROUP BY c.category_id, cat.name, c.subcategory
    ORDER BY cat.name, c.subcategory] *)
Definition select_grouped : stmt (list grouped_row) := fun _ d =>
  match comics d, categories d with
  | Some tc, Some t =>
      let joined :=
        flat_map (fun c => map (fun n => (group_key c n, c)) (joined_names (rows t) c))
          (rows tc) in
      let keys := merge_sort by_group (remove_dups (map fst joined)) in
      (Ok (map (fun k =>
                  let members := map snd (filter (fun p => fst p = k) joined) in
                  {| g_category_id := fst (fst k);
                     g_category_name := snd (fst k);
                     g_subcategory := snd k;
                     g_items := map item_of (merge_sort by_title members) |})
               keys), d)
  | None, _ => (Threw (no_relation "comics"), d)
  | _, None => (Threw (no_relation "categories"), d)
  end.

(** ** Responses *)

Inductive payload :=
  | PError (error : string)
  | PCategories (l : list Category.t)
  | PDefaultCategories (l : list default_category)
  | PComics (l : list Comic.t)
  | PComic (c : Comic.t)
  | PStats (totalItems totalCategories readingCount : nat)
  | PImported (count : nat) (imported : list Comic.t)
  | PDebug (timestamp : Z) (tables : list string) (rowCounts : list (string * (nat + string)))
  | PDebugError (message : string)
  | PGrouped (groupedData : gmap string (list (string * list grouped_item)))
  | PNoContent.

Record response := mk_response {
  status : nat;
  body : payload
}.

(** [res.json(x)] answers with status 200. *)
Definition json (p : payload) : response := mk_response 200 p.

Definition internal_error : response := mk_response 500 (PError "Internal server error").
Definition not_found : response := mk_response 404 (PError "Comic not found").

(** The query string of [GET /api/comics]; [page] and [limit], when
    given, are the digits of an integer. *)
Record list_query := {
  category : jsval;
  search : jsval;
  page : option Z;
  limit : option Z
}.

(** [req.body.comics] of [POST /api/comics/import]. *)
Inductive import_body :=
  | NotAnArray
  | Entries (l : list jsobj).

(** The names a plain object inherits from [Object.prototype]: looking
    one up in [{}] finds a function or the prototype itself, not
    [undefined]. *)
Definition inherited : list string :=
  ["constructor"; "__defineGetter__"; "__defineSetter__"; "hasOwnProperty";
   "__lookupGetter__"; "__lookupSetter__"; "isPrototypeOf";
   "propertyIsEnumerable"; "toString"; "valueOf"; "__proto__";
   "toLocaleString"].

Section Handlers.

Variable O : oracle.

(** *** The pool and its clients *)

Definition next_tick : M nat := fun w =>
  (Ok (tick w), mk_world (db w) (pool w) (S (tick w))).

Definition acquire : M unit := fun w =>
  (Ok tt, mk_world (db w) (mk_pool (S (acquired (pool w))) (released (pool w))) (tick w)).

(** [client.release()] *)
Definition client_release : M unit := fun w =>
  (Ok tt, mk_world (db w) (mk_pool (acquired (pool w)) (S (released (pool w)))) (tick w)).

Definition unavailable : string := "the store did not answer".

(** [await pool.connect()]: hands out a connection, or throws and hands
    out nothing. *)
Definition pool_connect : M unit :=
  let* t := next_tick in
  if faults O t then throw unavailable else acquire.

(** Run a statement on the database at tick [t]. *)
Definition exec {A} (s : stmt A) (t : nat) : M A := fun w =>
  let (r, d) := s (clock O t) (db w) in
  (r, mk_world d (pool w) (tick w)).

(** [await client.query(s)] on a connection the handler holds. *)
Definition client_query {A} (s : stmt A) : M A :=
  let* t := next_tick in
  if faults O t then throw unavailable else exec s t.

(** [await pool.query(s)]: the pool itself takes a connection, runs the
    statement and gives the connection back, whatever the statement
    does. *)
Definition pool_query {A} (s : stmt A) : M A :=
  let* t := next_tick in
  if faults O t then throw unavailable
  else run* acquire in try_finally (exec s t) client_release.

(** [`comic_${Date.now()}_${Math.random().toString(36).substr(2, 9)}`] *)
Definition generate_comic_id : M string :=
  let* t := next_tick in ret ("comic_" +:+ token O t).

(** *** [initializeDatabase] *)

(** The statements run on the client once it is connected. *)
Definition initialize_statements : M unit :=
  run* client_query create_categories_table in
  run* client_query create_comics_table in
  let* count := client_query count_categories in
  run* (if Nat.eqb count 0
        then run* for_each (fun c => client_query (insert_default_category c))
                    defaultCategories in ret tt
        else ret tt) in
  try_catch (client_query add_foreign_key) (fun _ => ret tt).

(** [let client; try { client = await pool.connect(); ... } catch { log }
    finally { if (client) client.release() }]: when [connect] throws,
    [client] stays undefined and nothing is released; once it is set the
    [finally] block releases it, whether the statements threw or not. *)
Definition initializeDatabase : M unit :=
  try_catch
    (run* pool_connect in
     try_finally initialize_statements client_release)
    (fun _ => ret tt).

(** *** [GET /api/debug/db] *)

(** The per-table count, with its own [try]/[catch]. *)
Definition debug_count (table : string) : M (string * (nat + string)) :=
  try_catch
    (let* n := client_query (count_table table) in ret (table, inl n))
    (fun e => ret (table, inr ("Error: " +:+ e))).

(** The environment flags of the answer are left out. *)
Definition debugInfo : M response :=
  try_catch
    (run* pool_connect in
     let* timeResult := client_query select_now in
     let* tables := client_query list_tables in
     let* counts := for_each debug_count tables in
     run* client_release in
     ret (json (PDebug timeResult tables counts)))
    (fun e => ret (mk_response 500 (PDebugError e))).

(** *** [GET /api/categories] *)

(** The queries of the [try] block: the existence check, the lazy
    [initializeDatabase], the [SELECT]. *)
Definition fetch_categories : M (list Category.t) :=
  let* tableExists := pool_query (table_exists "categories") in
  run* (if negb tableExists then initializeDatabase else ret tt) in
  pool_query select_categories.

Definition listCategories : M response :=
  try_catch
    (let* result := fetch_categories in
     if Nat.eqb (length result) 0
     then ret (json (PDefaultCategories defaultCategories))
     else ret (json (PCategories result)))
    (fun _ => ret (json (PDefaultCategories defaultCategories))).

(** *** [GET /api/comics] *)

(** The query the handler assembles from [req.query]: [page = 1] and
    [limit = 100] when absent, [offset = (page - 1) * limit] computed on
    Numbers. *)
Definition build_query (rq : list_query) : comics_query :=
  let page_number := match page rq with Some p => to_double p | None => Int 1 end in
  let limit_number := match limit rq with Some l => to_double l | None => Int 100 end in
  {| q_category :=
       if js_truthy (category rq) then Some (prepareValue (category rq)) else None;
     q_pattern :=
       if js_truthy (search rq)
       then Some ("%" +:+ js_to_string (search rq) +:+ "%") else None;
     q_limit := default 100 (limit rq);
     q_offset := js_times (js_minus page_number (Int 1)) limit_number |}.

Definition listComics (rq : list_query) : M response :=
  try_catch
    (let* tableExists := pool_query (table_exists "comics") in
     if negb tableExists then ret (json (PComics []))
     else
       let* result := pool_query (select_comics O (build_query rq)) in
       ret (json (PComics result)))
    (fun _ => ret (json (PComics []))).

(** *** [GET /api/comics/:id] *)

Definition getComic (id : string) : M response :=
  try_catch
    (let* result := pool_query (select_comic (TextParam id)) in
     match result with
     | [] => ret not_found
     | r :: _ => ret (json (PComic r))
     end)
    (fun _ => ret internal_error).

(** *** [POST /api/comics] *)

Definition createComic (body : jsobj) : M response :=
  try_catch
    (let title := field body "title" in
     let category_id := field body "category_id" in
     let subcategory := field body "subcategory" in
     let chapter := field body "chapter" in
     let rating := field body "rating" in
     let tags := field body "tags" in
     let description := field body "description" in
     if negb (js_truthy title) || negb (js_truthy category_id)
     then ret (mk_response 400 (PError "Title and category_id are required"))
     else
       let* comic_id := generate_comic_id in
       let* result := pool_query (insert_comic O
         {| v_comic_id := TextParam comic_id;
            v_title := prepareValue title;
            v_category_id := prepareValue category_id;
            v_subcategory := prepareValue (js_or subcategory (JStr ""));
            v_chapter := prepareValue (js_or chapter (JStr ""));
            v_rating := prepareValue (js_or rating (JStr "none"));
            v_tags := prepareValue (js_or tags (JArr []));
            v_description := prepareValue (js_or description (JStr "")) |}) in
       ret (mk_response 201 (PComic result)))
    (fun _ => ret internal_error).

(** *** [PUT /api/comics/:id] *)

(** Only these five properties of the body are read. *)
Definition params_of_body (body : jsobj) : comic_params :=
  {| b_chapter := prepareValue (field body "chapter");
     b_rating := prepareValue (field body "rating");
     b_title := prepareValue (field body "title");
     b_tags := prepareValue (field body "tags");
     b_description := prepareValue (field body "description") |}.

Definition updateComic (id : string) (body : jsobj) : M response :=
  try_catch
    (let* result := pool_query (update_comic O (params_of_body body) (TextParam id)) in
     match result with
     | [] => ret not_found
     | r :: _ => ret (json (PComic r))
     end)
    (fun _ => ret internal_error).

(** *** [PATCH /api/comics/:id/chapter] *)

Definition patchChapter (id : string) (body : jsobj) : M response :=
  try_catch
    (let chapter := field body "chapter" in
     if negb (js_truthy chapter)
     then ret (mk_response 400 (PError "Chapter is required"))
     else
       let* result :=
         pool_query (update_chapter O (prepareValue chapter) (TextParam id)) in
       match result with
       | [] => ret not_found
       | r :: _ => ret (json (PComic r))
       end)
    (fun _ => ret internal_error).

(** *** [GET /api/comics/grouped] *)

(** [if (!groupedData[key]) groupedData[key] = [];
    groupedData[key].push({subcategory: row.subcategory || '',
    items: row.items})] with [key = row.category_id].  A key the object
    holds is an array and takes the entry.  A key it does not hold is
    given a new array, unless it names an inherited property: then the
    lookup is truthy, no array is made, and [push], which that value does
    not have, throws. *)
Definition push_group (groupedData : gmap string (list (string * list grouped_item)))
    (row : grouped_row) : outcome (gmap string (list (string * list grouped_item))) :=
  let key := match g_category_id row with
             | SText s => s
             | SNull => "null"
             | SArray a => a
             end in
  let subcategory := match g_subcategory row with
                     | SText s => s
                     | _ => ""
                     end in
  match groupedData !! key with
  | Some entries =>
      Ok (<[key := (entries ++ [(subcategory, g_items row)])%list]> groupedData)
  | None =>
      if bool_decide (key ∈ inherited)
      then Threw "groupedData[row.category_id].push is not a function"
      else Ok (<[key := [(subcategory, g_items row)]]> groupedData)
  end.

(** [result.rows.forEach(row => ...)] *)
Fixpoint group_rows (groupedData : gmap string (list (string * list grouped_item)))
    (l : list grouped_row) : outcome (gmap string (list (string * list grouped_item))) :=
  match l with
  | [] => Ok groupedData
  | row :: l' => and_then (push_group groupedData row) (fun g => group_rows g l')
  end.

Definition listGrouped : M response :=
  try_catch
    (let* tablesExist := pool_query tables_exist in
     let '(categories_exists, comics_exists) := tablesExist in
     if negb categories_exists || negb comics_exists
     then ret (json (PGrouped ∅))
     else
       let* result := pool_query select_grouped in
       match group_rows ∅ result with
       | Ok groupedData => ret (json (PGrouped groupedData))
       | Threw e => throw e
       end)
    (fun _ => ret (json (PGrouped ∅))).

(** *** [DELETE /api/comics/:id] *)

Definition deleteComic (id : string) : M response :=
  try_catch
    (let* result := pool_query (delete_comic (TextParam id)) in
     match result with
     | [] => ret not_found
     | _ :: _ => ret (mk_response 204 PNoContent)
     end)
    (fun _ => ret internal_error).

(** *** [GET /api/stats] *)

Definition getStats : M response :=
  try_catch
    (let* tablesExist := pool_query tables_exist in
     let '(categories_exists, comics_exists) := tablesExist in
     let* items :=
       (if comics_exists
        then let* totalItems := pool_query count_comics in
             let* readingCount := pool_query count_reading in
             ret (totalItems, readingCount)
        else ret (0%nat, 0%nat)) in
     let* totalCategories :=
       (if categories_exists
        then pool_query count_categories
        else ret (length defaultCategories)) in
     ret (json (PStats (fst items) totalCategories (snd items))))
    (fun _ => ret internal_error).

(** *** [POST /api/comics/import] *)

(** One turn of the loop: a fresh id, then the upsert. *)
Definition import_one (comic : jsobj) : M Comic.t :=
  let* comic_id := generate_comic_id in
  pool_query (upsert_comic O
    {| v_comic_id := TextParam comic_id;
       v_title := prepareValue (field comic "title");
       v_category_id := prepareValue (field comic "category_id");
       v_subcategory := prepareValue (js_or (field comic "subcategory") (JStr ""));
       v_chapter := prepareValue (field comic "chapter");
       v_rating := prepareValue (js_or (field comic "rating") (JStr "none"));
       v_tags := prepareValue (js_or (field comic "tags") (JArr []));
       v_description := prepareValue (js_or (field comic "description") (JStr "")) |}).

Definition bulkImport (comics : import_body) : M response :=
  try_catch
    (match comics with
     | NotAnArray => ret (mk_response 400 (PError "Invalid data format"))
     | Entries l =>
         let* imported := for_each import_one l in
         ret (json (PImported (length imported) imported))
     end)
    (fun _ => ret internal_error).

(** *** The older server's [POST /api/comics]

    No check of the required fields, and [chapter] is bound as it
    came. *)
Definition createComic_old (body : jsobj) : M response :=
  try_catch
    (let title := field body "title" in
     let category_id := field body "category_id" in
     let subcategory := field body "subcategory" in
     let chapter := field body "chapter" in
     let rating := field body "rating" in
     let tags := field body "tags" in
     let description := field body "description" in
     let* comic_id := generate_comic_id in
     let* result := pool_query (insert_comic O
       {| v_comic_id := TextParam comic_id;
          v_title := prepareValue title;
          v_category_id := prepareValue category_id;
          v_subcategory := prepareValue (js_or subcategory (JStr ""));
          v_chapter := prepareValue chapter;
          v_rating := prepareValue (js_or rating (JStr "none"));
          v_tags := prepareValue (js_or tags (JArr []));
          v_description := prepareValue (js_or description (JStr "")) |}) in
     ret (mk_response 201 (PComic result)))
    (fun _ => ret internal_error).

End Handlers.

(** The world a process starts in: no connection taken yet. *)
Definition start (d : database) : world := mk_world d (mk_pool 0 0) 0.

(** *** A store with a UTF-8 locale *)

(** The lower-case mapping of the characters that have one, as runs
    [(first, last, step, lower case of first)]. *)
Definition lower_case_runs : list (N * N * N * N) := [
  (65, 90, 1, 97); (192, 214, 1, 224); (216, 222, 1, 248);
  (256, 302, 2, 257); (304, 304, 1, 105); (306, 310, 2, 307);
  (313, 327, 2, 314); (330, 374, 2, 331); (376, 376, 1, 255);
  (377, 381, 2, 378); (385, 385, 1, 595); (386, 388, 2, 387);
  (390, 390, 1, 596); (391, 391, 1, 392); (393, 394, 1, 598);
  (395, 395, 1, 396); (398, 398, 1, 477); (399, 399, 1, 601);
  (400, 400, 1, 603); (401, 401, 1, 402); (403, 403, 1, 608);
  (404, 404, 1, 611); (406, 406, 1, 617); (407, 407, 1, 616);
  (408, 408, 1, 409); (412, 412, 1, 623); (413, 413, 1, 626);
  (415, 415, 1, 629); (416, 420, 2, 417); (422, 422, 1, 640);
  (423, 423, 1, 424); (425, 425, 1, 643); (428, 428, 1, 429);
  (430, 430, 1, 648); (431, 431, 1, 432); (433, 434, 1, 650);
  (435, 437, 2, 436); (439, 439, 1, 658); (440, 440, 1, 441);
  (444, 444, 1, 445); (452, 452, 1, 454); (453, 453, 1, 454);
  (455, 455, 1, 457); (456, 456, 1, 457); (458, 458, 1, 460);
  (459, 475, 2, 460); (478, 494, 2, 479); (497, 497, 1, 499);
  (498, 500, 2, 499); (502, 502, 1, 405); (503, 503, 1, 447);
  (504, 542, 2, 505); (544, 544, 1, 414); (546, 562, 2, 547);
  (570, 570, 1, 11365); (571, 571, 1, 572); (573, 573, 1, 410);
  (574, 574, 1, 11366); (577, 577, 1, 578); (579, 579, 1, 384);
  (580, 580, 1, 649); (581, 581, 1, 652); (582, 590, 2, 583);
  (880, 882, 2, 881); (886, 886, 1, 887); (895, 895, 1, 1011);
  (902, 902, 1, 940); (904, 906, 1, 941); (908, 908, 1, 972);
  (910, 911, 1, 973); (913, 929, 1, 945); (931, 939, 1, 963);
  (975, 975, 1, 983); (984, 1006, 2, 985); (1012, 1012, 1, 952);
  (1015, 1015, 1, 1016); (1017, 1017, 1, 1010); (1018, 1018, 1, 1019);
  (1021, 1023, 1, 891); (1024, 1039, 1, 1104); (1040, 1071, 1, 1072);
  (1120, 1152, 2, 1121); (1162, 1214, 2, 1163); (1216, 1216, 1, 1231);
  (1217, 1229, 2, 1218); (1232, 1326, 2, 1233); (1329, 1366, 1, 1377);
  (4256, 4293, 1, 11520); (4295, 4295, 1, 11559); (4301, 4301, 1, 11565);
  (5024, 5103, 1, 43888); (5104, 5109, 1, 5112); (7312, 7354, 1, 4304);
  (7357, 7359, 1, 4349); (7680, 7828, 2, 7681); (7838, 7838, 1, 223);
  (7840, 7934, 2, 7841); (7944, 7951, 1, 7936); (7960, 7965, 1, 7952);
  (7976, 7983, 1, 7968); (7992, 7999, 1, 7984); (8008, 8013, 1, 8000);
  (8025, 8031, 2, 8017); (8040, 8047, 1, 8032); (8072, 8079, 1, 8064);
  (8088, 8095, 1, 8080); (8104, 8111, 1, 8096); (8120, 8121, 1, 8112);
  (8122, 8123, 1, 8048); (8124, 8124, 1, 8115); (8136, 8139, 1, 8050);
  (8140, 8140, 1, 8131); (8152, 8153, 1, 8144); (8154, 8155, 1, 8054);
  (8168, 8169, 1, 8160); (8170, 8171, 1, 8058); (8172, 8172, 1, 8165);
  (8184, 8185, 1, 8056); (8186, 8187, 1, 8060); (8188, 8188, 1, 8179);
  (8486, 8486, 1, 969); (8490, 8490, 1, 107); (8491, 8491, 1, 229);
  (8498, 8498, 1, 8526); (8544, 8559, 1, 8560); (8579, 8579, 1, 8580);
  (9398, 9423, 1, 9424); (11264, 11311, 1, 11312); (11360, 11360, 1, 11361);
  (11362, 11362, 1, 619); (11363, 11363, 1, 7549); (11364, 11364, 1, 637);
  (11367, 11371, 2, 11368); (11373, 11373, 1, 593); (11374, 11374, 1, 625);
  (11375, 11375, 1, 592); (11376, 11376, 1, 594); (11378, 11378, 1, 11379);
  (11381, 11381, 1, 11382); (11390, 11391, 1, 575); (11392, 11490, 2, 11393);
  (11499, 11501, 2, 11500); (11506, 11506, 1, 11507);
  (42560, 42604, 2, 42561); (42624, 42650, 2, 42625);
  (42786, 42798, 2, 42787); (42802, 42862, 2, 42803);
  (42873, 42875, 2, 42874); (42877, 42877, 1, 7545);
  (42878, 42886, 2, 42879); (42891, 42891, 1, 42892); (42893, 42893, 1, 613);
  (42896, 42898, 2, 42897); (42902, 42920, 2, 42903); (42922, 42922, 1, 614);
  (42923, 42923, 1, 604); (42924, 42924, 1, 609); (42925, 42925, 1, 620);
  (42926, 42926, 1, 618); (42928, 42928, 1, 670); (42929, 42929, 1, 647);
  (42930, 42930, 1, 669); (42931, 42931, 1, 43859); (42932, 42946, 2, 42933);
  (42948, 42948, 1, 42900); (42949, 42949, 1, 642); (42950, 42950, 1, 7566);
  (42951, 42953, 2, 42952); (42960, 42960, 1, 42961);
  (42966, 42968, 2, 42967); (42997, 42997, 1, 42998);
  (65313, 65338, 1, 65345); (66560, 66599, 1, 66600);
  (66736, 66771, 1, 66776); (66928, 66938, 1, 66967);
  (66940, 66954, 1, 66979); (66956, 66962, 1, 66995);
  (66964, 66965, 1, 67003); (68736, 68786, 1, 68800);
  (71840, 71871, 1, 71872); (93760, 93791, 1, 93792);
  (125184, 125217, 1, 125218)
]%N.

Definition unicode_lower (c : N) : N :=
  match
    find (fun run => let '(first, last, step, _) := run in
                     (first <=? c)%N && (c <=? last)%N
                     && ((c - first) mod step =? 0)%N)
      lower_case_runs
  with
  | Some (first, _, _, low) => (low + (c - first))%N
  | None => c
  end.

(** The array literals node-postgres writes for an array of texts and
    nulls: [{}], or elements between braces, separated by commas, each
    [NULL] or a text between double quotes in which a backslash makes the
    next character literal. *)
Fixpoint read_quoted (l : list ascii) : option (list ascii * list ascii) :=
  match l with
  | [] => None
  | c :: l' =>
      if Ascii.eqb c dquote then Some ([], l')
      else if Ascii.eqb c "\" then
        match l' with
        | [] => None
        | x :: l'' =>
            match read_quoted l'' with
            | Some (e, rest) => Some (x :: e, rest)
            | None => None
            end
        end
      else
        match read_quoted l' with
        | Some (e, rest) => Some (c :: e, rest)
        | None => None
        end
  end.

Definition read_element (l : list ascii) : option (option (list ascii) * list ascii) :=
  match l with
  | c :: l' =>
      if Ascii.eqb c dquote then
        match read_quoted l' with
        | Some (e, rest) => Some (Some e, rest)
        | None => None
        end
      else
        match l with
        | "N"%char :: "U"%char :: "L"%char :: "L"%char :: rest => Some (None, rest)
        | _ => None
        end
  | [] => None
  end.

Fixpoint read_elements (fuel : nat) (l : list ascii)
    : option (list (option (list ascii))) :=
  match fuel with
  | O => None
  | S fuel' =>
      match read_element l with
      | Some (e, c :: rest) =>
          if Ascii.eqb c "," then
            match read_elements fuel' rest with
            | Some es => Some (e :: es)
            | None => None
            end
          else if Ascii.eqb c "}" then
            match rest with [] => Some [e] | _ :: _ => None end
          else None
      | _ => None
      end
  end.

(** The store writes an element between double quotes when it is empty,
    when it reads as [NULL], or when it holds a brace, a comma, a double
    quote, a backslash or white space. *)
Definition needs_quotes (e : list ascii) : bool :=
  match e with
  | [] => true
  | _ =>
      existsb (fun c => Ascii.eqb c "{" || Ascii.eqb c "}" || Ascii.eqb c ","
                        || Ascii.eqb c dquote || Ascii.eqb c "\" || Ascii.eqb c " "
                        || ((9 <=? nat_of_ascii c)%nat && (nat_of_ascii c <=? 13)%nat)) e
      || bool_decide (map unicode_lower (map N_of_ascii e) = [110; 117; 108; 108]%N)
  end.

Definition write_element (e : option (list ascii)) : string :=
  match e with
  | None => "NULL"
  | Some e =>
      if needs_quotes e then escapeElement (string_of_list_ascii e)
      else string_of_list_ascii e
  end.

Definition flat_array_in (s : string) : option string :=
  match list_ascii_of_string s with
  | ["{"%char; "}"%char] => Some "{}"
  | "{"%char :: l =>
      match read_elements (length l) l with
      | Some es => Some ("{" +:+ String.concat "," (map write_element es) +:+ "}")
      | None => None
      end
  | _ => None
  end.

(** An oracle under which the store answers every operation. *)
Definition calm (clk : nat → Z) (tok : nat → string) : oracle :=
  mk_oracle (fun _ => false) clk tok unicode_lower flat_array_in.

(** ** The older server: routes that differ from [server.js] *)

Section OldHandlers.

Variable O : oracle.

(** [GET /api/categories]: one [SELECT], and 500 when it fails. *)
Definition listCategories_old : M response :=
  try_catch
    (let* result := pool_query O select_categories in
     ret (json (PCategories result)))
    (fun _ => ret internal_error).




(** [GET /api/stats]: three counts, no look at which tables exist. *)
Definition getStats_old : M response :=
  try_catch
    (let* totalComics := pool_query O count_comics in
     let* totalCategories := pool_query O count_categories in
     let* readingCount := pool_query O count_reading in
     ret (json (PStats totalComics totalCategories readingCount)))
    (fun _ => ret internal_error).

End OldHandlers.

(** ** The connection indicators embedded in [server.js]

    Both functions time a [fetch] of [/health]; what they show depends on
    how the [fetch] went and on the measured latency,
    [endTime - startTime] in milliseconds. *)

(** What the [try] block meets: the [fetch] throws; or it returns after
    [latency] milliseconds, with a body that is JSON or one that is
    not. *)
Inductive fetched :=
  | FetchThrew
  | Returned (latency : Z) (body_is_json : bool).

(** [checkConnection]: the arguments of its [showToast].  The body is
    parsed inside the [try] block, after the latency is taken: when
    [response.json()] throws, the [catch] block shows what it shows for
    a [fetch] that threw. *)
Definition checkConnection (f : fetched) : string * string :=
  match f with
  | Returned latency true =>
      if latency >? 5000
      then ("Kết nối chậm (" +:+ pretty latency +:+ "ms) - Server đang khởi động lại",
            "warning")
      else if latency >? 10000
      then ("Kết nối rất chậm (" +:+ pretty latency +:+ "ms) - Đang dùng dữ liệu cục bộ",
            "error")
      else ("Kết nối ổn định (" +:+ pretty latency +:+ "ms)", "success")
  | Returned _ false | FetchThrew =>
      ("Không thể kết nối đến server - Đang dùng dữ liệu cục bộ", "error")
  end.

(** What [updateConnectionStatus] leaves behind, on a page that has the
    elements [statusDot] and [statusText]: the variable
    [connectionStatus], the class of the dot, the text and its colour.
    It does not read the body. *)
Record indicator := {
  connectionStatus : string;
  className : string;
  textContent : string;
  color : string
}.

Definition updateConnectionStatus (f : fetched) : indicator :=
  match f with
  | Returned latency _ =>
      if latency <? 2000
      then {| connectionStatus := "online"; className := "status-dot online";
              textContent := "Đang trực tuyến"; color := "var(--success)" |}
      else if latency <? 10000
      then {| connectionStatus := "slow"; className := "status-dot slow";
              textContent := "Kết nối chậm (" +:+ pretty latency +:+ "ms)";
              color := "var(--warning)" |}
      else {| connectionStatus := "offline"; className := "status-dot offline";
              textContent := "Đang ngoại tuyến"; color := "var(--danger)" |}
  | FetchThrew =>
      {| connectionStatus := "offline"; className := "status-dot offline";
         textContent := "Không kết nối được"; color := "var(--danger)" |}
  end.

(** * Vocabulary of the properties

    Measures on worlds, the specification's own reading of the search
    filter, and the concrete stores and requests the examples run on. *)

(** A world with [n] more ticks and [n] connections taken and given back. *)
Definition after_queries (n : nat) (d : database) (w : world) : world :=
  mk_world d (mk_pool (n + acquired (pool w)) (n + released (pool w))) (n + tick w).

(** Connections handed out, and given back, between two worlds. *)
Definition acquired_during (w w' : world) : Z :=
  Z.of_nat (acquired (pool w')) - Z.of_nat (acquired (pool w)).

Definition released_during (w w' : world) : Z :=
  Z.of_nat (released (pool w')) - Z.of_nat (released (pool w)).

(** A computation that leaves the pool's counters alone. *)
Definition keeps_pool {A} (m : M A) : Prop := ∀ w, pool (snd (m w)) = pool w.

(** A computation that gives back every connection it takes. *)
Definition balanced {A} (m : M A) : Prop :=
  ∀ w, acquired_during w (snd (m w)) = released_during w (snd (m w)).

(** The store answers [connect] and then fails [SELECT NOW()]. *)
Definition select_now_fails : oracle :=
  mk_oracle (fun n => Nat.eqb n 1) (fun _ => 0) (fun _ => "") unicode_lower flat_array_in.

(** How many categories an answer lists. *)
Definition categories_listed (r : response) : nat :=
  match body r with
  | PCategories l => length l
  | PDefaultCategories l => length l
  | _ => 0%nat
  end.

Definition defaults_answer : response := json (PDefaultCategories defaultCategories).

(** A store that is entirely unreachable. *)
Definition unreachable : oracle :=
  mk_oracle (fun _ => true) (fun _ => 0) (fun _ => "") unicode_lower flat_array_in.

(** A store that answers everything, with a clock that reads the tick; it
    folds the case of every letter and reads the array literals
    node-postgres writes. *)
Definition quiet : oracle := calm (fun n => Z.of_nat n) (fun _ => "x").

(** A schema whose [categories] table exists and holds no row. *)
Definition empty_categories : database :=
  mk_db (Some (mk_table [] 1 [["category_id"]])) None false.

(** The rows of [comics]; none when the table does not exist. *)
Definition stored_comics (d : database) : list Comic.t :=
  match comics d with
  | Some t => rows t
  | None => []
  end.

Definition stats_of (d : database) : payload :=
  PStats (length (stored_comics d))
    (match categories d with
     | Some t => length (rows t)
     | None => length defaultCategories
     end)
    (length (filter (fun r => is_reading r = true) (stored_comics d))).

(** The [WHERE comic_id = $k] test. *)
Definition hit (id : sqlval) (r : Comic.t) : bool := sql_eq (Comic.comic_id r) id.

(** The table after the [UPDATE]: the selected rows rewritten in place. *)
Definition rewrite_hits (f : Comic.t → Comic.t) (id : sqlval) (l : list Comic.t) : list Comic.t :=
  map (fun r => if hit id r then f r else r) l.

(** A field the body leaves out, or sets to [null]. *)
Definition js_absent (v : jsval) : Prop := v = JUndefined ∨ v = JNull.


(** A stored comic and a request that supplies only [chapter]. *)
Definition sample_comic : Comic.t :=
  Comic.mk 1 (SText "comic_1") (SText "A") (SText "ngon") (SText "") (SText "1")
    (SText "none") (SArray "{}") (SText "") 5 5.

Definition sample_db : database :=
  mk_db (Some (mk_table [] 1 [["category_id"]]))
        (Some (mk_table [sample_comic] 2 [["comic_id"]])) false.

(** The columns [updateComic] has no way to touch. *)
Definition same_identity (r r' : Comic.t) : Prop :=
  Comic.id r' = Comic.id r
  ∧ Comic.comic_id r' = Comic.comic_id r
  ∧ Comic.category_id r' = Comic.category_id r
  ∧ Comic.subcategory r' = Comic.subcategory r
  ∧ Comic.created_at r' = Comic.created_at r.

(** The parameters [POST /api/comics] binds for a body, with its
    defaults. *)
Definition created_values (body : jsobj) (comic_id : string) : comic_values :=
  {| v_comic_id := TextParam comic_id;
     v_title := prepareValue (field body "title");
     v_category_id := prepareValue (field body "category_id");
     v_subcategory := prepareValue (js_or (field body "subcategory") (JStr ""));
     v_chapter := prepareValue (js_or (field body "chapter") (JStr ""));
     v_rating := prepareValue (js_or (field body "rating") (JStr "none"));
     v_tags := prepareValue (js_or (field body "tags") (JArr []));
     v_description := prepareValue (js_or (field body "description") (JStr "")) |}.

(** A text that fits a [VARCHAR(n)] column as it is. *)
Definition fits (n : nat) (s : string) : Prop := (char_length s ≤ n)%nat.

(** Whether a [VARCHAR(n)] column takes a text: it fits, or all that is
    beyond the first [n] characters is spaces.  And what the column keeps
    of it then. *)
Definition takes (n : nat) (s : string) : bool :=
  (char_length s <=? n)%nat
  || forallb (Ascii.eqb " ") (list_ascii_of_string (snd (clip n s))).

Definition kept (n : nat) (s : string) : string :=
  if (char_length s <=? n)%nat then s else fst (clip n s).


(** The schema [initializeDatabase] declares for [comics]: one key, on
    [comic_id]. *)
Definition declared_schema (d : database) : Prop :=
  ∀ t, comics d = Some t → uniques t = [["comic_id"]].

Definition entry (title category_id chapter : string) : jsobj :=
  {[ "title" := JStr title; "category_id" := JStr category_id;
     "chapter" := JStr chapter ]}.

(** The same table with the index the statement asks for. *)
Definition indexed : world :=
  start (mk_db (Some (mk_table [] 1 [["category_id"]]))
               (Some (mk_table [] 1 [["comic_id"]; ["title"; "category_id"]]))
               false).

(** The characters [LIKE] gives a meaning of their own. *)
Definition is_meta (c : N) : bool :=
  N.eqb c percent || N.eqb c underscore || N.eqb c backslash.

(** A text without wildcard or escape characters. *)
Definition plain (p : list N) : Prop := Forall (fun c => is_meta c = false) p.

(** The specification's reading of [search]: a substring test.  [p] is a
    prefix of [s]; [p] occurs somewhere in [s]. *)
Fixpoint is_prefix (p s : list N) : bool :=
  match p, s with
  | [], _ => true
  | _ :: _, [] => false
  | c :: p', x :: s' => N.eqb c x && is_prefix p' s'
  end.

Definition contains (p s : list N) : bool := existsb (is_prefix p) (tails s).

(** The specification's word for it: [search] occurs in the column's text,
    letter case aside, which is to say once both are in the lower case of
    the store's locale. *)
Definition contains_ci (O : oracle) (search : string) (v : sqlval) : bool :=
  match v with
  | SText s => contains (fold_case O search) (fold_case O s)
  | _ => false
  end.

(** The filter as the specification words it: [category] by equality,
    [search] by containment in [title] or [description], both when both
    are given. *)
Definition spec_filter (O : oracle) (rq : list_query) (r : Comic.t) : bool :=
  (if js_truthy (category rq)
   then bool_decide (Comic.category_id r = value_of (prepareValue (category rq)))
   else true)
  && (if js_truthy (search rq)
      then contains_ci O (js_to_string (search rq)) (Comic.title r)
           || contains_ci O (js_to_string (search rq)) (Comic.description r)
      else true).

(** A text that begins with the first byte of a character, as every
    UTF-8 text does. *)
Definition starts_character (s : string) : Prop :=
  match s with
  | EmptyString => True
  | String b _ => is_continuation b = false
  end.

(** The rows [LIMIT] and [OFFSET] leave, once the store has read the two
    as 64-bit integers: none when it rejects one of them. *)
Definition page_of (limit offset : option Z) (l : list Comic.t) : list Comic.t :=
  match limit, offset with
  | Some limit, Some offset =>
      if limit <? 0 then []
      else if offset <? 0 then []
      else take (Z.to_nat limit) (drop (Z.to_nat offset) l)
  | _, _ => []
  end.

(** A stored comic titled "a", and a search for the one-character text
    [_]. *)
Definition comic_a : Comic.t :=
  Comic.mk 1 (SText "comic_1") (SText "a") (SText "ngon") (SText "") (SText "1")
    (SText "none") (SArray "{}") (SText "") 5 5.

Definition db_a : database :=
  mk_db (Some (mk_table [] 1 [["category_id"]]))
        (Some (mk_table [comic_a] 2 [["comic_id"]])) false.

Definition search_underscore : list_query :=
  {| category := JUndefined; search := JStr "_"; page := None; limit := None |}.

Definition search_a : list_query :=
  {| category := JStr "ngon"; search := JStr "A"; page := Some 1; limit := Some 10 |}.

(** A request that reaches the store; [Startup] is the call of
    [initializeDatabase] made when the server starts listening. *)
Inductive request :=
  | Startup
  | DebugInfo
  | ListCategories
  | ListComics (rq : list_query)
  | ListGrouped
  | GetComic (id : string)
  | CreateComic (body : jsobj)
  | UpdateComic (id : string) (body : jsobj)
  | PatchChapter (id : string) (body : jsobj)
  | DeleteComic (id : string)
  | GetStats
  | BulkImport (comics : import_body).

(** The world after a request has been served. *)
Definition serve (O : oracle) (rq : request) (w : world) : world :=
  match rq with
  | Startup => snd (initializeDatabase O w)
  | DebugInfo => snd (debugInfo O w)
  | ListCategories => snd (listCategories O w)
  | ListComics q => snd (listComics O q w)
  | ListGrouped => snd (listGrouped O w)
  | GetComic id => snd (getComic O id w)
  | CreateComic body => snd (createComic O body w)
  | UpdateComic id body => snd (updateComic O id body w)
  | PatchChapter id body => snd (patchChapter O id body w)
  | DeleteComic id => snd (deleteComic O id w)
  | GetStats => snd (getStats O w)
  | BulkImport comics => snd (bulkImport O comics w)
  end.

(** The world after a history of requests, served one after the other. *)
Definition serve_all (O : oracle) (history : list request) (w : world) : world :=
  foldl (fun w rq => serve O rq w) w history.

(** The world a fresh deployment ends up in: no tables at first, then the
    server starts against a store that answers. *)
Definition seeded : world := serve_all quiet [Startup] (start no_tables).

(** A computation that keeps a property of the database. *)
Definition preserves (P : database → Prop) {A} (m : M A) : Prop :=
  ∀ w, P (db w) → P (db (snd (m w))).

(** A statement that keeps a property of the database, whether it fails or
    not. *)
Definition stmt_preserves (P : database → Prop) {A} (s : stmt A) : Prop :=
  ∀ now d, P d → P (snd (s now d)).

(** The rows of [categories]; none when the table does not exist. *)
Definition stored_categories (d : database) : list Category.t :=
  match categories d with
  | Some t => rows t
  | None => []
  end.

(** The requests of the debug route, and how many a history holds. *)
Definition is_debug (rq : request) : bool :=
  match rq with
  | DebugInfo => true
  | _ => false
  end.

Definition debug_requests (history : list request) : nat :=
  length (filter (fun rq => is_debug rq = true) history).

(** The routes that only issue [SELECT] statements. *)
Definition is_read (rq : request) : bool :=
  match rq with
  | DebugInfo | ListComics _ | ListGrouped | GetComic _ | GetStats => true
  | _ => false
  end.

(** The five columns a category is seeded with. *)
Definition category_fields (r : Category.t) : sqlval * string * sqlval * sqlval * sqlval :=
  (Category.category_id r, Category.name r, Category.code r, Category.icon r,
   Category.color r).

Definition default_fields (c : default_category) : sqlval * string * sqlval * sqlval * sqlval :=
  (SText (dc_category_id c), dc_name c, SText (dc_code c), SText (dc_icon c),
   SText (dc_color c)).

(** The keys of [comics] hold: the table has the declared schema, no two
    rows share a [comic_id], and no row has a [NULL] in a [NOT NULL]
    column. *)
Definition well_keyed (d : database) : Prop :=
  declared_schema d
  ∧ NoDup (map Comic.comic_id (stored_comics d))
  ∧ Forall (fun r => violates_not_null r = false) (stored_comics d).

(** The property name and the pushed object of [push_group], on their
    own: [row.category_id] as a key, and
    [{subcategory: row.subcategory || '', items: row.items}]. *)
Definition key_string (v : sqlval) : string :=
  match v with
  | SText s => s
  | SNull => "null"
  | SArray a => a
  end.

Definition subcategory_string (v : sqlval) : string :=
  match v with
  | SText s => s
  | _ => ""
  end.

Definition grouped_entry (row : grouped_row) : string * list grouped_item :=
  (subcategory_string (g_subcategory row), g_items row).

(** The clock of the store never runs backwards. *)
Definition monotone_clock (O : oracle) : Prop :=
  ∀ a b : nat, (a ≤ b)%nat → clock O a ≤ clock O b.

(** No stored comic carries a [last_updated] before its [created_at], or
    after [bound]. *)
Definition dated (bound : Z) (d : database) : Prop :=
  Forall (fun r => Comic.created_at r ≤ Comic.last_updated r
                   ∧ Comic.last_updated r ≤ bound) (stored_comics d).

(** The same, with the time of the next statement as the bound. *)
Definition dated_world (O : oracle) (w : world) : Prop :=
  dated (clock O (tick w)) (db w).

Definition keeps_dates (O : oracle) {A} (m : M A) : Prop :=
  ∀ w, dated_world O w → dated_world O (snd (m w)).

Definition stmt_keeps_dates {A} (s : stmt A) : Prop :=
  ∀ now d, dated now d → dated now (snd (s now d)).

(** The number of rows of a table of the schema. *)
Definition table_size (name : string) (d : database) : nat :=
  if String.eqb name "categories" then length (stored_categories d)
  else length (stored_comics d).

(** The tables of the schema that exist, in the order of their names. *)
Definition existing_tables (d : database) : list string :=
  filter (fun n => has_table n d = true) ["categories"; "comics"].

(** * Properties *)

(** ** The monad and the pool *)

Lemma bind_ok {A B} (m : M A) (k : A → M B) w a w' :
  m w = (Ok a, w') → bind m k w = k a w'.
Proof. intros H. unfold bind. by rewrite H. Qed.

Lemma bind_threw {A B} (m : M A) (k : A → M B) w e w' :
  m w = (Threw e, w') → bind m k w = (Threw e, w').
Proof. intros H. unfold bind. by rewrite H. Qed.

Lemma bind_bind {A B C} (m : M A) (f : A → M B) (g : B → M C) w :
  bind (bind m f) g w = bind m (fun a => bind (f a) g) w.
Proof. unfold bind. destruct (m w) as [[a|e] w1]; reflexivity. Qed.

Lemma bind_ret {A B} (a : A) (k : A → M B) w : bind (ret a) k w = k a w.
Proof. reflexivity. Qed.

(** What [pool.query] does, in one equation. *)
Lemma pool_query_unfold O {A} (s : stmt A) w :
  pool_query O s w =
    if faults O (tick w)
    then (Threw (unavailable), mk_world (db w) (pool w) (S (tick w)))
    else (fst (s (clock O (tick w)) (db w)),
          after_queries 1 (snd (s (clock O (tick w)) (db w))) w).
Proof.
  unfold pool_query, bind, next_tick, throw, try_finally, acquire, exec,
    client_release, after_queries; simpl.
  destruct (faults O (tick w)); simpl; [reflexivity|].
  destruct (s (clock O (tick w)) (db w)) as [[a|e] d]; reflexivity.
Qed.

Lemma client_query_unfold O {A} (s : stmt A) w :
  client_query O s w =
    if faults O (tick w)
    then (Threw (unavailable), mk_world (db w) (pool w) (S (tick w)))
    else (fst (s (clock O (tick w)) (db w)),
          mk_world (snd (s (clock O (tick w)) (db w))) (pool w) (S (tick w))).
Proof.
  unfold client_query, bind, next_tick, throw, exec; simpl.
  destruct (faults O (tick w)); simpl; [reflexivity|].
  destruct (s (clock O (tick w)) (db w)) as [[a|e] d]; reflexivity.
Qed.

Lemma keeps_pool_balanced {A} (m : M A) : keeps_pool m → balanced m.
Proof.
  intros H w. unfold acquired_during, released_during. rewrite (H w). lia.
Qed.

Lemma keeps_pool_ret {A} (a : A) : keeps_pool (ret a).
Proof. by intros w. Qed.

Lemma keeps_pool_bind {A B} (m : M A) (k : A → M B) :
  keeps_pool m → (∀ a, keeps_pool (k a)) → keeps_pool (bind m k).
Proof.
  intros Hm Hk w. unfold bind. specialize (Hm w).
  destruct (m w) as [[a|e] w1]; simpl in *; [|done].
  by rewrite Hk.
Qed.

Lemma keeps_pool_try_catch {A} (m : M A) (h : string → M A) :
  keeps_pool m → (∀ e, keeps_pool (h e)) → keeps_pool (try_catch m h).
Proof.
  intros Hm Hh w. unfold try_catch. specialize (Hm w).
  destruct (m w) as [[a|e] w1]; simpl in *; [done|].
  by rewrite Hh.
Qed.

Lemma keeps_pool_for_each {A B} (f : A → M B) l :
  (∀ x, keeps_pool (f x)) → keeps_pool (for_each f l).
Proof.
  intros Hf. induction l as [|x l IH]; simpl.
  - apply keeps_pool_ret.
  - apply keeps_pool_bind; [apply Hf|]. intros y.
    apply keeps_pool_bind; [apply IH|]. intros ys. apply keeps_pool_ret.
Qed.

Lemma keeps_pool_client_query O {A} (s : stmt A) : keeps_pool (client_query O s).
Proof.
  intros w. rewrite client_query_unfold.
  by destruct (faults O (tick w)).
Qed.

Lemma balanced_bind {A B} (m : M A) (k : A → M B) :
  balanced m → (∀ a, balanced (k a)) → balanced (bind m k).
Proof.
  intros Hm Hk w. unfold bind. specialize (Hm w).
  destruct (m w) as [[a|e] w1]; simpl in *; [|done].
  specialize (Hk a w1). unfold acquired_during, released_during in *. lia.
Qed.

Lemma balanced_try_catch {A} (m : M A) (h : string → M A) :
  balanced m → (∀ e, balanced (h e)) → balanced (try_catch m h).
Proof.
  intros Hm Hh w. unfold try_catch. specialize (Hm w).
  destruct (m w) as [[a|e] w1]; simpl in *; [done|].
  specialize (Hh e w1). unfold acquired_during, released_during in *. lia.
Qed.

Lemma balanced_ret {A} (a : A) : balanced (ret a).
Proof. apply keeps_pool_balanced, keeps_pool_ret. Qed.

Lemma balanced_pool_query O {A} (s : stmt A) : balanced (pool_query O s).
Proof.
  intros w. rewrite pool_query_unfold. unfold acquired_during, released_during.
  destruct (faults O (tick w)); simpl; lia.
Qed.

Lemma keeps_pool_initialize_statements O : keeps_pool (initialize_statements O).
Proof.
  unfold initialize_statements.
  repeat first
    [ apply keeps_pool_client_query
    | apply keeps_pool_ret
    | apply keeps_pool_try_catch
    | apply keeps_pool_for_each
    | apply keeps_pool_bind
    | match goal with
      | |- ∀ _, _ => intro
      | |- keeps_pool (if ?b then _ else _) => destruct b
      end ].
Qed.

(** [initializeDatabase] never throws, and gives back the connection it
    took on every path: its [finally] block sees to it. *)
Lemma initializeDatabase_balanced O : balanced (initializeDatabase O).
Proof.
  intros w. unfold initializeDatabase, try_catch, bind, pool_connect, bind,
    next_tick, throw, acquire, try_finally, client_release; simpl.
  destruct (faults O (tick w)); simpl.
  - unfold acquired_during, released_during; simpl; lia.
  - match goal with |- context [initialize_statements O ?w1] =>
      pose proof (keeps_pool_initialize_statements O w1) as Hk;
      destruct (initialize_statements O w1) as [[[]|e] w2]
    end; simpl in *; unfold acquired_during, released_during; simpl;
      rewrite Hk; simpl; lia.
Qed.

Lemma initializeDatabase_returns O w : ∃ w', initializeDatabase O w = (Ok tt, w').
Proof.
  unfold initializeDatabase, try_catch, bind, pool_connect, bind,
    next_tick, throw, acquire, try_finally, client_release; simpl.
  destruct (faults O (tick w)); simpl; [by eexists|].
  match goal with |- context [initialize_statements O ?w1] =>
    destruct (initialize_statements O w1) as [[[]|e] w2] end; by eexists.
Qed.

(** ** Parameters and the types of the columns *)

Lemma store_as_null O ty : store_as O ty NullParam = Ok SNull.
Proof. reflexivity. Qed.

Lemma store_as_varchar O n s :
  store_as O (Varchar n) (TextParam s) =
    if takes n s then Ok (SText (kept n s))
    else Threw ("value too long for type character varying(" +:+ pretty n +:+ ")").
Proof.
  unfold store_as, takes, kept.
  destruct (char_length s <=? n)%nat; [reflexivity|].
  destruct (clip n s) as [k x]. simpl. by destruct (forallb _ _).
Qed.

Lemma takes_fits n s : fits n s → takes n s = true.
Proof.
  unfold fits, takes. intros H. apply Nat.leb_le in H. by rewrite H.
Qed.

Lemma kept_fits n s : fits n s → kept n s = s.
Proof.
  unfold fits, kept. intros H. apply Nat.leb_le in H. by rewrite H.
Qed.

Lemma store_as_fits O n s :
  fits n s → store_as O (Varchar n) (TextParam s) = Ok (SText s).
Proof.
  intros H. by rewrite store_as_varchar, (takes_fits _ _ H), (kept_fits _ _ H).
Qed.

Lemma store_as_text O s : store_as O Text (TextParam s) = Ok (SText s).
Proof. reflexivity. Qed.

(** A column never takes a [NULL] from a text. *)
Lemma store_as_not_null O ty s v :
  store_as O ty (TextParam s) = Ok v → v ≠ SNull.
Proof.
  destruct ty as [n| |]; simpl.
  - destruct (char_length s <=? n)%nat; [by intros [= <-]|].
    destruct (clip n s) as [k x]. destruct (forallb _ _); [by intros [= <-]|done].
  - by intros [= <-].
  - destruct (array_in O s); [by intros [= <-]|done].
Qed.

Lemma prepareValue_absent v : js_absent v → prepareValue v = NullParam.
Proof. by intros [-> | ->]. Qed.




(** Whether the store takes the eight parameters of the [INSERT], and the
    row it proposes then. *)
Lemma proposed_row_ok O v id now r :
  proposed_row O v id now = Ok r ↔
    store_as O (Varchar 100) (v_comic_id v) = Ok (Comic.comic_id r)
    ∧ store_as O (Varchar 500) (v_title v) = Ok (Comic.title r)
    ∧ store_as O (Varchar 50) (v_category_id v) = Ok (Comic.category_id r)
    ∧ store_as O (Varchar 100) (v_subcategory v) = Ok (Comic.subcategory r)
    ∧ store_as O (Varchar 50) (v_chapter v) = Ok (Comic.chapter r)
    ∧ store_as O (Varchar 20) (v_rating v) = Ok (Comic.rating r)
    ∧ store_as O TextArray (v_tags v) = Ok (Comic.tags r)
    ∧ store_as O Text (v_description v) = Ok (Comic.description r)
    ∧ Comic.id r = id
    ∧ Comic.last_updated r = now
    ∧ Comic.created_at r = now.
Proof.
  unfold proposed_row, and_then. destruct r. simpl. split.
  - intros H.
    destruct (store_as O TextArray _); [|discriminate].
    destruct (store_as O (Varchar 100) (v_comic_id v)); [|discriminate].
    destruct (store_as O (Varchar 500) _); [|discriminate].
    destruct (store_as O (Varchar 50) (v_category_id v)); [|discriminate].
    destruct (store_as O (Varchar 100) (v_subcategory v)); [|discriminate].
    destruct (store_as O (Varchar 50) (v_chapter v)); [|discriminate].
    destruct (store_as O (Varchar 20) _); [|discriminate].
    destruct (store_as O Text _); [|discriminate].
    by inversion H.
  - intros (-> & -> & -> & -> & -> & -> & -> & -> & -> & -> & ->). reflexivity.
Qed.

(** A proposed row has a [NULL] only where a parameter was [NULL]. *)
Lemma proposed_row_not_null O v id now r :
  proposed_row O v id now = Ok r →
  v_comic_id v ≠ NullParam → v_title v ≠ NullParam → v_category_id v ≠ NullParam →
  violates_not_null r = false.
Proof.
  intros H Hi Ht Hc. apply proposed_row_ok in H as (Ei & Et & Ec & _).
  unfold violates_not_null.
  destruct (v_comic_id v) as [|a]; [done|]. apply store_as_not_null in Ei.
  destruct (v_title v) as [|b]; [done|]. apply store_as_not_null in Et.
  destruct (v_category_id v) as [|c]; [done|]. apply store_as_not_null in Ec.
  by destruct (Comic.comic_id r), (Comic.title r), (Comic.category_id r).
Qed.

(** ** Connections: taken and given back *)

Lemma debug_count_returns O table w :
  ∃ c w', debug_count O table w = (Ok c, w') ∧ pool w' = pool w.
Proof.
  unfold debug_count, try_catch, bind. rewrite client_query_unfold.
  destruct (faults O (tick w)); simpl; [by eexists _, _|].
  destruct (count_table table _ _) as [[n|e] d]; simpl; by eexists _, _.
Qed.

Lemma debug_counts_return O tables w :
  ∃ cs w', for_each (debug_count O) tables w = (Ok cs, w') ∧ pool w' = pool w.
Proof.
  revert w. induction tables as [|t l IH]; intros w; simpl.
  - by eexists _, _.
  - destruct (debug_count_returns O t w) as (c & w1 & Hc & Hp1).
    destruct (IH w1) as (cs & w2 & Hcs & Hp2).
    exists (c :: cs), w2. split; [|congruence].
    rewrite (bind_ok _ _ _ _ _ Hc), (bind_ok _ _ _ _ _ Hcs). reflexivity.
Qed.

Lemma pool_connect_unfold O w :
  pool_connect O w =
    if faults O (tick w)
    then (Threw unavailable, mk_world (db w) (pool w) (S (tick w)))
    else (Ok tt, mk_world (db w)
                   (mk_pool (S (acquired (pool w))) (released (pool w)))
                   (S (tick w))).
Proof.
  unfold pool_connect, bind, next_tick, throw, acquire; simpl.
  destruct (faults O (tick w)); reflexivity.
Qed.

(** Once [connect], [SELECT NOW()] and the table listing have gone through,
    the debug handler gives its connection back and answers 200, whatever
    happens to the per-table counts. *)
Lemma debugInfo_releases_after_listing O w :
  faults O (tick w) = false →
  faults O (S (tick w)) = false →
  faults O (S (S (tick w))) = false →
  (∃ ts tables counts, fst (debugInfo O w) = Ok (json (PDebug ts tables counts)))
  ∧ acquired_during w (snd (debugInfo O w)) = 1
  ∧ released_during w (snd (debugInfo O w)) = 1.
Proof.
  intros H0 H1 H2.
  assert (∃ ts tables counts w',
            debugInfo O w = (Ok (json (PDebug ts tables counts)), w')
            ∧ pool w' = mk_pool (S (acquired (pool w))) (S (released (pool w))))
    as (ts & tables & counts & w' & -> & Hp).
  { unfold debugInfo, try_catch.
    erewrite bind_ok; [|rewrite pool_connect_unfold, H0; reflexivity].
    erewrite bind_ok;
      [|rewrite client_query_unfold; simpl; rewrite H1; reflexivity].
    erewrite bind_ok;
      [|rewrite client_query_unfold; simpl; rewrite H2; reflexivity].
    cbv beta.
    match goal with |- context [bind (for_each (debug_count O) ?l) _ ?w1] =>
      destruct (debug_counts_return O l w1) as (cs & w2 & Hcs & Hp) end.
    rewrite (bind_ok _ _ _ _ _ Hcs).
    unfold bind, client_release, ret; simpl.
    eexists _, _, _, _. split; [reflexivity|]. simpl. by rewrite Hp. }
  simpl. split; [by eexists _, _, _|].
  unfold acquired_during, released_during. rewrite Hp; simpl. lia.
Qed.

(** When a statement issued right after [connect] throws, the [catch]
    block answers 500 and nobody gives the connection back. *)
Lemma debugInfo_leaks_on_exception O w :
  faults O (tick w) = false →
  faults O (S (tick w)) = true ∨
    (faults O (S (tick w)) = false ∧ faults O (S (S (tick w))) = true) →
  fst (debugInfo O w) = Ok (mk_response 500 (PDebugError unavailable))
  ∧ acquired_during w (snd (debugInfo O w)) = 1
  ∧ released_during w (snd (debugInfo O w)) = 0.
Proof.
  intros H0 H.
  assert (∃ w', debugInfo O w = (Ok (mk_response 500 (PDebugError unavailable)), w')
            ∧ pool w' = mk_pool (S (acquired (pool w))) (released (pool w)))
    as (w' & -> & Hp).
  { unfold debugInfo, try_catch.
    erewrite bind_ok; [|rewrite pool_connect_unfold, H0; reflexivity].
    destruct H as [H1|[H1 H2]].
    - erewrite bind_threw;
        [|rewrite client_query_unfold; simpl; rewrite H1; reflexivity].
      by eexists.
    - erewrite bind_ok;
        [|rewrite client_query_unfold; simpl; rewrite H1; reflexivity].
      erewrite bind_threw;
        [|rewrite client_query_unfold; simpl; rewrite H2; reflexivity].
      by eexists. }
  simpl. split; [reflexivity|].
  unfold acquired_during, released_during. rewrite Hp; simpl. lia.
Qed.

Lemma balanced_for_each {A B} (f : A → M B) l :
  (∀ x, balanced (f x)) → balanced (for_each f l).
Proof.
  intros Hf. induction l as [|x l IH]; simpl.
  - apply balanced_ret.
  - apply balanced_bind; [apply Hf|]. intros y.
    apply balanced_bind; [apply IH|]. intros ys. apply balanced_ret.
Qed.

Lemma balanced_throw {A} e : balanced (@throw A e).
Proof. apply keeps_pool_balanced. by intros w. Qed.

Lemma balanced_generate_comic_id O : balanced (generate_comic_id O).
Proof. apply keeps_pool_balanced. by intros w. Qed.

(** Walk through a handler built on [pool.query]. *)
Ltac keep_balance :=
  repeat match goal with
  | |- ∀ _, _ => intro
  | |- balanced (bind _ _) => apply balanced_bind
  | |- balanced (try_catch _ _) => apply balanced_try_catch
  | |- balanced (for_each _ _) => apply balanced_for_each
  | |- balanced (ret _) => apply balanced_ret
  | |- balanced (throw _) => apply balanced_throw
  | |- balanced (pool_query _ _) => apply balanced_pool_query
  | |- balanced (generate_comic_id _) => apply balanced_generate_comic_id
  | |- balanced (initializeDatabase _) => apply initializeDatabase_balanced
  | |- balanced (if ?b then _ else _) => destruct b
  | |- balanced (match ?x with _ => _ end) => destruct x
  end.

(** Every request but the debug one gives back what it takes, whatever
    the store does: [pool.query] does so by itself, and
    [initializeDatabase] has its [finally] block. *)
Lemma serve_balanced O rq w :
  rq ≠ DebugInfo →
  acquired_during w (serve O rq w) = released_during w (serve O rq w).
Proof.
  intros Hrq. destruct rq; try done; simpl; revert w;
    match goal with |- ∀ w, acquired_during w (snd (?m w)) = _ =>
      change (balanced m) end;
    [ apply initializeDatabase_balanced
    | unfold listCategories, fetch_categories
    | unfold listComics
    | unfold listGrouped
    | unfold getComic
    | unfold createComic
    | unfold updateComic
    | unfold patchChapter
    | unfold deleteComic
    | unfold getStats
    | unfold bulkImport, import_one ];
    keep_balance.
Qed.

(** C2 (fails on the code).  Every handler that takes a connection should
    give it back on every exit path.  [GET /api/debug/db] does not: with
    [connect] answered and [SELECT NOW()] failing, the request ends with
    status 500, one connection acquired and none released. *)
Theorem debugInfo_exception_keeps_connection :
  fst (debugInfo select_now_fails (start no_tables))
    = Ok (mk_response 500 (PDebugError unavailable))
  ∧ acquired (pool (snd (debugInfo select_now_fails (start no_tables)))) = 1%nat
  ∧ released (pool (snd (debugInfo select_now_fails (start no_tables)))) = 0%nat.
Proof. vm_compute. auto. Qed.

(** ** Listing categories *)

Global Instance by_name_total : Total by_name.
Proof. intros a b. unfold by_name. apply String.leb_total. Qed.

Lemma defaultCategories_length : length defaultCategories = 16%nat.
Proof. reflexivity. Qed.

(** The handler's answer as a function of what its queries gave. *)
Lemma listCategories_by_fetch O w :
  fst (listCategories O w) =
    match fst (fetch_categories O w) with
    | Threw _ => Ok defaults_answer
    | Ok [] => Ok defaults_answer
    | Ok (r :: l) => Ok (json (PCategories (r :: l)))
    end.
Proof.
  unfold listCategories, try_catch, bind.
  destruct (fetch_categories O w) as [[[|r l]|e] w1]; reflexivity.
Qed.

(** With the table in place and the store answering, the queries give the
    stored rows in [ORDER BY name] order. *)
Lemma fetch_categories_stored O w t :
  categories (db w) = Some t →
  faults O (tick w) = false →
  faults O (S (tick w)) = false →
  fetch_categories O w = (Ok (merge_sort by_name (rows t)), after_queries 2 (db w) w).
Proof.
  intros Ht H0 H1. unfold fetch_categories.
  erewrite bind_ok; cycle 1.
  { rewrite pool_query_unfold, H0. unfold table_exists. reflexivity. }
  unfold has_table; simpl. rewrite Ht; simpl.
  unfold bind at 1, ret at 1.
  rewrite pool_query_unfold; simpl. rewrite H1.
  unfold select_categories; simpl. rewrite Ht. reflexivity.
Qed.

(** When the store does not answer the first query, the queries throw. *)
Lemma fetch_categories_unreachable O w :
  faults O (tick w) = true → ∃ e, fst (fetch_categories O w) = Threw e.
Proof.
  intros H. unfold fetch_categories.
  erewrite bind_threw; [|rewrite pool_query_unfold, H; reflexivity].
  by eexists.
Qed.

(** The table is absent and [initializeDatabase] cannot connect: the
    [SELECT] finds no relation, and the answer is the defaults. *)
Lemma listCategories_table_absent O w :
  categories (db w) = None →
  faults O (tick w) = false →
  faults O (S (tick w)) = true →
  faults O (S (S (tick w))) = false →
  fst (fetch_categories O w) = Threw (no_relation "categories")
  ∧ fst (listCategories O w) = Ok defaults_answer.
Proof.
  intros Hc H0 H1 H2.
  assert (Hf : fst (fetch_categories O w) = Threw (no_relation "categories")).
  { unfold fetch_categories.
    erewrite bind_ok; cycle 1.
    { rewrite pool_query_unfold, H0. unfold table_exists. reflexivity. }
    unfold has_table; simpl. rewrite Hc; simpl.
    erewrite bind_ok; cycle 1.
    { unfold initializeDatabase, try_catch.
      erewrite bind_threw; [reflexivity|].
      rewrite pool_connect_unfold; simpl. rewrite H1. reflexivity. }
    cbv beta. unfold ret. rewrite pool_query_unfold; simpl. rewrite H2.
    unfold select_categories; simpl. by rewrite Hc. }
  split; [exact Hf|]. by rewrite listCategories_by_fetch, Hf.
Qed.

(** C6 as stated fails on the code: when the table exists and is empty the
    queries succeed and give all stored rows, namely none, yet the answer
    is the sixteen defaults and not the empty list. *)
Lemma listCategories_empty_table_not_rows :
  fst (fetch_categories quiet (start empty_categories)) = Ok []
  ∧ fst (listCategories quiet (start empty_categories)) = Ok defaults_answer
  ∧ fst (listCategories quiet (start empty_categories)) ≠ Ok (json (PCategories [])).
Proof. vm_compute. repeat split; [discriminate]. Qed.

(** C6 (amended).  [listCategories] never fails: whenever its queries throw,
    in particular when the store is unreachable, it answers 200 with exactly
    the sixteen static defaults.  When the queries succeed it answers with
    all stored rows ordered by name ascending if there is at least one, and
    with the defaults if the table is empty. *)
Theorem listCategories_degrades_to_defaults O w :
  (∀ e, fst (fetch_categories O w) = Threw e →
        fst (listCategories O w) = Ok defaults_answer)
  ∧ (faults O (tick w) = true → fst (listCategories O w) = Ok defaults_answer)
  ∧ (∀ t, categories (db w) = Some t →
          faults O (tick w) = false → faults O (S (tick w)) = false →
          fst (fetch_categories O w) = Ok (merge_sort by_name (rows t))
          ∧ merge_sort by_name (rows t) ≡ₚ rows t
          ∧ Sorted by_name (merge_sort by_name (rows t))
          ∧ (rows t ≠ [] →
             fst (listCategories O w) = Ok (json (PCategories (merge_sort by_name (rows t)))))
          ∧ (rows t = [] → fst (listCategories O w) = Ok defaults_answer))
  ∧ status defaults_answer = 200%nat
  ∧ categories_listed defaults_answer = 16%nat.
Proof.
  split; [|split; [|split; [|split; reflexivity]]].
  - intros e He. rewrite listCategories_by_fetch, He. reflexivity.
  - intros H. destruct (fetch_categories_unreachable O w H) as [e He].
    rewrite listCategories_by_fetch, He. reflexivity.
  - intros t Ht H0 H1.
    pose proof (fetch_categories_stored O w t Ht H0 H1) as Hf.
    pose proof (merge_sort_Permutation by_name (rows t)) as Hperm.
    split; [by rewrite Hf|]. split; [exact Hperm|].
    split; [apply (Sorted_merge_sort by_name)|].
    rewrite listCategories_by_fetch, Hf; simpl. split.
    + intros Hne. destruct (merge_sort by_name (rows t)) as [|r l] eqn:E; [|done].
      apply Permutation_nil in Hperm. done.
    + intros ->. reflexivity.
Qed.

Lemma listCategories_degrades_to_defaults_witness :
  fst (listCategories unreachable (start no_tables)) = Ok defaults_answer
  ∧ fst (listCategories quiet (start empty_categories)) = Ok defaults_answer.
Proof.
  split.
  - apply (listCategories_degrades_to_defaults unreachable (start no_tables)).
    reflexivity.
  - apply (listCategories_degrades_to_defaults quiet (start empty_categories))
      with (t := mk_table [] 1 [["category_id"]]); reflexivity.
Defined.

(** C10.  When the query succeeds on a [categories] table without rows, the
    answer is the sixteen-entry default list; and whatever the store does,
    the answer of [listCategories] is a 200 that lists at least one
    category. *)
Theorem listCategories_never_empty O w t :
  categories (db w) = Some t →
  rows t = [] →
  faults O (tick w) = false →
  faults O (S (tick w)) = false →
  fst (listCategories O w) = Ok defaults_answer
  ∧ categories_listed defaults_answer = 16%nat
  ∧ ∀ O' w', ∃ r, fst (listCategories O' w') = Ok r
                  ∧ status r = 200%nat ∧ categories_listed r ≠ 0%nat.
Proof.
  intros Ht Hrows H0 H1. split; [|split; [reflexivity|]].
  - rewrite listCategories_by_fetch, (fetch_categories_stored O w t Ht H0 H1).
    simpl. by rewrite Hrows.
  - intros O' w'. rewrite listCategories_by_fetch.
    destruct (fst (fetch_categories O' w')) as [[|r l]|e];
      eexists; (split; [reflexivity|]); split; try reflexivity; discriminate.
Qed.

Lemma listCategories_never_empty_witness :
  fst (listCategories quiet (start empty_categories)) = Ok defaults_answer
  ∧ categories_listed defaults_answer = 16%nat.
Proof.
  destruct (listCategories_never_empty quiet (start empty_categories)
              (mk_table [] 1 [["category_id"]]) eq_refl eq_refl eq_refl eq_refl)
    as (H1 & H2 & _).
  split; assumption.
Defined.

(** ** Statistics *)

Lemma is_reading_spec r :
  is_reading r = true ↔
  Comic.chapter r ≠ SNull ∧ Comic.chapter r ≠ SText "" ∧ Comic.chapter r ≠ SText "0".
Proof.
  unfold is_reading, is_null, sql_neq.
  destruct (Comic.chapter r) as [|s|l]; simpl.
  - split; [discriminate|]. intros [? _]. done.
  - repeat case_bool_decide; simpl; split; try done; try tauto.
  - split; [|done]. intros _. repeat split; discriminate.
Qed.

(** On a schema without tables and a store that answers, the statements of
    [initializeDatabase] create both tables and seed the sixteen defaults,
    leaving [comics] empty and keyed on [comic_id] alone. *)
Lemma initialize_statements_fresh O p n :
  (∀ k, faults O k = false) →
  ∃ t tc w',
    initialize_statements O (mk_world no_tables p n) = (Ok tt, w')
    ∧ pool w' = p
    ∧ categories (db w') = Some t
    ∧ length (rows t) = 16%nat
    ∧ comics (db w') = Some tc
    ∧ rows tc = []
    ∧ uniques tc = [["comic_id"]].
Proof.
  intros H. destruct O as [f c t]. simpl in H.
  cbv. rewrite !H.
  eexists _, _, _. repeat split; reflexivity.
Qed.

Lemma initializeDatabase_fresh O :
  (∀ k, faults O k = false) →
  ∃ t tc,
    categories (db (snd (initializeDatabase O (start no_tables)))) = Some t
    ∧ length (rows t) = 16%nat
    ∧ comics (db (snd (initializeDatabase O (start no_tables)))) = Some tc
    ∧ rows tc = []
    ∧ uniques tc = [["comic_id"]].
Proof.
  intros H. unfold initializeDatabase, try_catch.
  erewrite bind_ok; [|rewrite pool_connect_unfold, H; reflexivity].
  unfold try_finally, start; simpl.
  match goal with |- context [initialize_statements O (mk_world _ ?p ?n)] =>
    destruct (initialize_statements_fresh O p n H)
      as (t & tc & w' & -> & _ & Ht & Hl & Htc & Hr & Hu) end.
  simpl. eauto 10.
Qed.

Lemma getStats_answer O w :
  (∀ k, faults O k = false) →
  fst (getStats O w) = Ok (json (stats_of (db w))).
Proof.
  intros H. unfold getStats, try_catch, stats_of, stored_comics.
  erewrite bind_ok; [|rewrite pool_query_unfold, H; reflexivity].
  unfold has_table; simpl.
  destruct (comics (db w)) as [tc|] eqn:Ec;
    destruct (categories (db w)) as [t|] eqn:Et; simpl;
    repeat first
      [ rewrite bind_bind
      | rewrite bind_ret
      | erewrite bind_ok;
        [|rewrite pool_query_unfold, H;
          unfold count_comics, count_reading, count_categories; simpl;
          rewrite ?Ec, ?Et; reflexivity]; simpl ];
    reflexivity.
Qed.

(** C7.  With the store answering, [getStats] reports the number of comics,
    the number of categories (the length of the default list, sixteen, when
    the [categories] table is absent), and the number of comics whose
    chapter is not null, not empty and not the string "0"; right after
    [initializeDatabase] has seeded a schema without tables it reports
    0, 16 and 0. *)
Theorem getStats_counts O w :
  (∀ k, faults O k = false) →
  fst (getStats O w) =
    Ok (json (PStats
      (length (stored_comics (db w)))
      (match categories (db w) with
       | Some t => length (rows t)
       | None => 16%nat
       end)
      (length (filter (fun r => is_reading r = true) (stored_comics (db w))))))
  ∧ (∀ r, is_reading r = true ↔
          Comic.chapter r ≠ SNull ∧ Comic.chapter r ≠ SText ""
          ∧ Comic.chapter r ≠ SText "0")
  ∧ fst (getStats O (snd (initializeDatabase O (start no_tables))))
      = Ok (json (PStats 0 16 0)).
Proof.
  intros H. split; [|split].
  - rewrite (getStats_answer O w H). reflexivity.
  - apply is_reading_spec.
  - rewrite (getStats_answer O _ H).
    destruct (initializeDatabase_fresh O H) as (t & tc & Ht & Hl & Htc & Hr & _).
    unfold stats_of, stored_comics. rewrite Ht, Htc, Hr, Hl. reflexivity.
Qed.

Lemma getStats_counts_witness :
  fst (getStats quiet (snd (initializeDatabase quiet (start no_tables))))
    = Ok (json (PStats 0 16 0)).
Proof.
  apply (getStats_counts quiet (start no_tables)). reflexivity.
Defined.

(** ** Updating a comic *)

Lemma update_where_ok f id now d t :
  comics d = Some t →
  update_where f id now d =
    (Ok (map f (filter (fun r => hit (value_of id) r = true) (rows t))),
     set_comics (mk_table (rewrite_hits f (value_of id) (rows t)) (serial t) (uniques t))
       d).
Proof. intros Ht. unfold update_where. rewrite Ht. reflexivity. Qed.


Lemma filter_hits_none id l :
  Forall (fun r => hit id r = false) l → filter (fun r => hit id r = true) l = [].
Proof.
  induction 1 as [|r l Hr _ IH]; [reflexivity|].
  rewrite filter_cons_False; [exact IH|]. rewrite Hr. discriminate.
Qed.











Lemma same_identity_refl l : Forall2 same_identity l l.
Proof. induction l; constructor; [by repeat split|done]. Qed.

Lemma same_identity_rewrite_hits p now id l :
  Forall2 same_identity l (rewrite_hits (apply_patch p now) id l).
Proof.
  induction l as [|r l IH]; simpl; constructor; [|exact IH].
  destruct (hit id r); by repeat split.
Qed.

(** C9.  Whatever the body holds and whatever the store does, [updateComic]
    leaves the [category_id], [subcategory], [comic_id] and [created_at]
    (and the serial [id]) of every stored row as they were, row for row;
    it adds no row and removes none, and it leaves [categories] alone.
    The body is read at [chapter], [rating], [title], [tags] and
    [description] only. *)
Theorem updateComic_frame O w id body :
  Forall2 same_identity
    (stored_comics (db w))
    (stored_comics (db (snd (updateComic O id body w))))
  ∧ categories (db (snd (updateComic O id body w))) = categories (db w)
  ∧ (∀ body',
       field body' "chapter" = field body "chapter" →
       field body' "rating" = field body "rating" →
       field body' "title" = field body "title" →
       field body' "tags" = field body "tags" →
       field body' "description" = field body "description" →
       updateComic O id body' w = updateComic O id body w).
Proof.
  assert (Hdb : ∃ r w', updateComic O id body w = (r, w')
            ∧ (db w' = db w
               ∨ ∃ t p, comics (db w) = Some t
                  ∧ db w' = set_comics
                      (mk_table (rewrite_hits (apply_patch p (clock O (tick w)))
                                   (SText id) (rows t)) (serial t) (uniques t))
                      (db w))).
  { unfold updateComic, try_catch, bind. rewrite pool_query_unfold.
    destruct (faults O (tick w)); [eexists _, _; split; [reflexivity|by left]|].
    unfold update_comic.
    destruct (comics (db w)) as [t|] eqn:Ht;
      [|eexists _, _; split; [reflexivity|by left]].
    destruct (typed_patch O _) as [p|e];
      [|eexists _, _; split; [reflexivity|by left]].
    rewrite (update_where_ok _ _ _ _ t Ht). simpl.
    destruct (map _ _); (eexists _, _; split; [reflexivity|right; by eexists _, _]). }
  assert (Hbody : ∀ body',
            field body' "chapter" = field body "chapter" →
            field body' "rating" = field body "rating" →
            field body' "title" = field body "title" →
            field body' "tags" = field body "tags" →
            field body' "description" = field body "description" →
            updateComic O id body' w = updateComic O id body w).
  { intros body' Hc Hr Ht Hg Hd. unfold updateComic, params_of_body.
    by rewrite Hc, Hr, Ht, Hg, Hd. }
  destruct Hdb as (r & w' & Hrun & Hw'). rewrite Hrun in *. simpl.
  split; [|split; [|exact Hbody]].
  - destruct Hw' as [->|(t & p & Ht & ->)]; [apply same_identity_refl|].
    unfold stored_comics. rewrite Ht. simpl. apply same_identity_rewrite_hits.
  - by destruct Hw' as [->|(t & p & Ht & ->)].
Qed.

(** ** Patching the chapter *)








(** ** Creating a comic *)

Lemma js_or_absent v d : js_absent v → js_or v d = d.
Proof. by intros [-> | ->]. Qed.

Lemma truthy_not_null v : js_truthy v = true → prepareValue v ≠ NullParam.
Proof. by destruct v. Qed.

(** What [POST /api/comics] does when the store takes the row. *)
Lemma createComic_run O w body t row :
  js_truthy (field body "title") = true →
  js_truthy (field body "category_id") = true →
  comics (db w) = Some t →
  faults O (S (tick w)) = false →
  proposed_row O (created_values body ("comic_" +:+ token O (tick w)))
    (serial t) (clock O (S (tick w))) = Ok row →
  unique_conflict t row = false →
  violates_fkey (db w) row = false →
  createComic O body w =
    (Ok (mk_response 201 (PComic row)),
     after_queries 1 (set_comics (append_row t row) (db w))
       (mk_world (db w) (pool w) (S (tick w)))).
Proof.
  intros Ht Hc Hcomics H1 Hrow Hfree Hfk.
  unfold createComic, try_catch. rewrite Ht, Hc. simpl.
  unfold generate_comic_id. rewrite bind_bind.
  unfold bind at 1, next_tick at 1. rewrite bind_ret.
  erewrite bind_ok; [reflexivity|].
  rewrite pool_query_unfold. simpl. rewrite H1.
  unfold insert_comic. rewrite Hcomics.
  unfold created_values in Hrow. rewrite Hrow, Hfree, Hfk.
  rewrite (proposed_row_not_null _ _ _ _ _ Hrow); [reflexivity|done|..]; simpl;
    by apply truthy_not_null.
Qed.

(** The handler of [server.js]: 400 exactly when [title] or [category_id]
    is falsy, and nothing is touched; otherwise, when the store answers,
    takes the eight parameters in the types of their columns and finds no
    constraint violated, 201 with the inserted row, which carries the
    defaults for the fields left out, the generated id, and [NOW()] in
    both timestamps. *)
Lemma createComic_spec O w body :
  let title := field body "title" in
  let category_id := field body "category_id" in
  (js_truthy title = false ∨ js_truthy category_id = false →
     createComic O body w
       = (Ok (mk_response 400 (PError "Title and category_id are required")), w))
  ∧ (js_truthy title = true → js_truthy category_id = true →
     faults O (S (tick w)) = false →
     ∀ t row, comics (db w) = Some t →
       proposed_row O (created_values body ("comic_" +:+ token O (tick w)))
         (serial t) (clock O (S (tick w))) = Ok row →
       unique_conflict t row = false →
       violates_fkey (db w) row = false →
       fst (createComic O body w) = Ok (mk_response 201 (PComic row))
       ∧ stored_comics (db (snd (createComic O body w))) = (rows t ++ [row])%list
       ∧ (js_absent (field body "subcategory") → Comic.subcategory row = SText "")
       ∧ (js_absent (field body "chapter") → Comic.chapter row = SText "")
       ∧ (js_absent (field body "rating") → Comic.rating row = SText "none")
       ∧ (js_absent (field body "tags") →
          ∃ a, array_in O "{}" = Some a ∧ Comic.tags row = SArray a)
       ∧ (js_absent (field body "description") → Comic.description row = SText "")
       ∧ Comic.comic_id row = SText (kept 100 ("comic_" +:+ token O (tick w)))
       ∧ Comic.id row = serial t
       ∧ Comic.last_updated row = clock O (S (tick w))
       ∧ Comic.created_at row = clock O (S (tick w))).
Proof.
  intros title category_id. split.
  - intros Hf. unfold createComic, try_catch. fold title category_id.
    destruct Hf as [-> | ->]; simpl; [reflexivity|].
    by rewrite orb_true_r.
  - intros Ht Hc H1 t row Hcomics Hrow Hfree Hfk.
    rewrite (createComic_run O w body t row Ht Hc Hcomics H1 Hrow Hfree Hfk).
    simpl. split; [reflexivity|]. split; [reflexivity|].
    apply proposed_row_ok in Hrow
      as (Ei & _ & _ & Es & Ech & Er & Eg & Ed & Hid & Hl & Hcr).
    unfold created_values in Ei, Es, Ech, Er, Eg, Ed. simpl in Es, Ech, Er, Eg, Ed.
    repeat split; try done.
    + intros Ha. rewrite (js_or_absent _ _ Ha) in Es. by inversion Es.
    + intros Ha. rewrite (js_or_absent _ _ Ha) in Ech. by inversion Ech.
    + intros Ha. rewrite (js_or_absent _ _ Ha) in Er. by inversion Er.
    + intros Ha. rewrite (js_or_absent _ _ Ha) in Eg.
      change (prepareValue (JArr [])) with (TextParam "{}") in Eg. simpl in Eg.
      destruct (array_in O "{}") as [a|]; [|discriminate].
      exists a. split; [reflexivity|]. by inversion Eg.
    + intros Ha. rewrite (js_or_absent _ _ Ha) in Ed. by inversion Ed.
    + change (v_comic_id _) with (TextParam ("comic_" +:+ token O (tick w))) in Ei.
      rewrite store_as_varchar in Ei. destruct (takes 100 _); [|discriminate].
      by inversion Ei.
Qed.

(** The older handler has no 400 to give: it answers 201 or, from its
    [catch] block, 500. *)
Lemma createComic_old_never_400 O w body :
  ∃ r, fst (createComic_old O body w) = Ok r
       ∧ (status r = 201%nat ∨ status r = 500%nat).
Proof.
  unfold createComic_old, try_catch, bind, generate_comic_id, bind, next_tick, ret.
  simpl. rewrite pool_query_unfold. simpl.
  destruct (faults O (S (tick w))); [eexists; split; [reflexivity|by right]|].
  destruct (insert_comic _ _ _ _) as [[r|e] d];
    eexists; (split; [reflexivity|]); [by left|by right].
Qed.

(** Without a [title] it sends a [NULL] to a [NOT NULL] column: 500,
    whatever the store holds. *)
Lemma createComic_old_missing_title O w body :
  js_absent (field body "title") →
  fst (createComic_old O body w) = Ok internal_error.
Proof.
  intros Ha.
  unfold createComic_old, try_catch, bind, generate_comic_id, bind, next_tick, ret.
  simpl. rewrite pool_query_unfold. simpl.
  destruct (faults O (S (tick w))); [reflexivity|].
  unfold insert_comic. destruct (comics (db w)) as [t|]; [|reflexivity].
  destruct (proposed_row _ _ _ _) as [r|e] eqn:E; [|reflexivity].
  apply proposed_row_ok in E as (_ & Et & _). simpl in Et.
  rewrite (prepareValue_absent _ Ha) in Et. inversion Et as [Hn].
  unfold violates_not_null. rewrite <- Hn. simpl. by rewrite orb_true_r.
Qed.

(** C4 (fails on the code).  The claim is what [POST /api/comics] of
    [server.js] does, but not what the same route of the older server does:
    there a body without [title] is sent to the store, whose [NOT NULL]
    constraint turns it into a 500 where [server.js] answers 400; and a
    body without [chapter] is stored with a [NULL] chapter where
    [server.js] stores the empty string. *)
Theorem createComic_old_skips_validation :
  fst (createComic_old quiet {[ "category_id" := JStr "ngon" ]} seeded)
    = Ok internal_error
  ∧ fst (createComic quiet {[ "category_id" := JStr "ngon" ]} seeded)
    = Ok (mk_response 400 (PError "Title and category_id are required"))
  ∧ (∃ r, fst (createComic_old quiet
                 {[ "title" := JStr "A"; "category_id" := JStr "ngon" ]} seeded)
            = Ok (mk_response 201 (PComic r))
          ∧ Comic.chapter r = SNull)
  ∧ (∃ r, fst (createComic quiet
                 {[ "title" := JStr "A"; "category_id" := JStr "ngon" ]} seeded)
            = Ok (mk_response 201 (PComic r))
          ∧ Comic.chapter r = SText "").
Proof.
  repeat split; try (vm_compute; reflexivity);
    eexists; split; vm_compute; reflexivity.
Qed.

(** ** Bulk import *)

Lemma declared_schema_no_arbiter d t :
  declared_schema d → comics d = Some t → has_arbiter import_key t = false.
Proof. intros Hd Ht. unfold has_arbiter. rewrite (Hd t Ht). reflexivity. Qed.

(** No statement of the program gives [comics] another key. *)
Lemma create_comics_table_schema : stmt_preserves declared_schema create_comics_table.
Proof.
  intros now d Hd. unfold create_comics_table. simpl.
  destruct (comics d) as [t|] eqn:Ht; [exact Hd|].
  intros t' Ht'. simpl in Ht'. by inversion Ht'.
Qed.

Lemma set_comics_schema d t t' :
  declared_schema d → comics d = Some t → uniques t' = uniques t →
  declared_schema (set_comics t' d).
Proof.
  intros Hd Ht Hu t'' Ht''. simpl in Ht''. inversion Ht''; subst.
  rewrite Hu. by apply Hd.
Qed.

Lemma insert_comic_schema O v : stmt_preserves declared_schema (insert_comic O v).
Proof.
  intros now d Hd. unfold insert_comic.
  destruct (comics d) as [t|] eqn:Ht; [|exact Hd].
  destruct (proposed_row _ _ _ _) as [r|e]; [|exact Hd].
  repeat case_match; simpl; by apply (set_comics_schema d t).
Qed.

Lemma update_where_schema f id : stmt_preserves declared_schema (update_where f id).
Proof.
  intros now d Hd. unfold update_where.
  destruct (comics d) as [t|] eqn:Ht; [|exact Hd].
  simpl. by apply (set_comics_schema d t).
Qed.

(** On the declared schema the upsert statement is rejected, whatever it
    is asked to insert, and nothing has changed. *)
Lemma upsert_comic_rejected O v now d :
  declared_schema d → ∃ e, upsert_comic O v now d = (Threw e, d).
Proof.
  intros Hd. unfold upsert_comic.
  destruct (comics d) as [t|] eqn:Ht; [|by eexists].
  rewrite (declared_schema_no_arbiter d t Hd Ht). by eexists.
Qed.

(** So every import of at least one entry ends in the [catch] block, with
    the database as it was. *)
Lemma bulkImport_rejected O w e l :
  declared_schema (db w) →
  fst (bulkImport O (Entries (e :: l)) w) = Ok internal_error
  ∧ db (snd (bulkImport O (Entries (e :: l)) w)) = db w.
Proof.
  intros Hd.
  assert (∃ err w', for_each (import_one O) (e :: l) w = (Threw err, w')
                    ∧ db w' = db w) as (err & w' & Hrun & Hdb).
  { simpl. unfold import_one at 1, generate_comic_id. rewrite !bind_bind.
    unfold bind at 1, next_tick at 1. rewrite bind_ret.
    unfold bind at 1. rewrite pool_query_unfold. simpl.
    destruct (faults O (S (tick w))); [by eexists _, _|].
    match goal with |- context [upsert_comic O ?v ?now (db w)] =>
      destruct (upsert_comic_rejected O v now (db w) Hd) as [err ->] end.
    by eexists _, _. }
  unfold bulkImport, try_catch. rewrite (bind_threw _ _ _ _ _ Hrun).
  by split.
Qed.


(** What [DO UPDATE] touches: [chapter], [rating] and [last_updated] come
    from the new values, every other column from the stored row. *)
Lemma conflict_update_keeps excluded now x :
  let x' := conflict_update excluded now x in
  Comic.chapter x' = Comic.chapter excluded
  ∧ Comic.rating x' = Comic.rating excluded
  ∧ Comic.last_updated x' = now
  ∧ same_identity x x'
  ∧ Comic.title x' = Comic.title x
  ∧ Comic.tags x' = Comic.tags x
  ∧ Comic.description x' = Comic.description x.
Proof. by repeat split. Qed.

(** The row in conflict is the first one holding the key; it is rewritten
    in place and the rows around it are kept. *)
Lemma update_conflicting_spec key r now l x' l' :
  update_conflicting key r now l = Some (x', l') →
  ∃ before x after,
    l = (before ++ x :: after)%list
    ∧ Forall (fun y => same_key key r y = false) before
    ∧ same_key key r x = true
    ∧ x' = conflict_update r now x
    ∧ l' = (before ++ x' :: after)%list.
Proof.
  revert x' l'. induction l as [|y l IH]; intros x' l' H; simpl in H; [discriminate|].
  destruct (same_key key r y) eqn:Hy.
  - inversion H; subst. exists [], y, l. by repeat split.
  - destruct (update_conflicting key r now l) as [[z l'']|] eqn:E; [|discriminate].
    inversion H; subst.
    destruct (IH _ _ eq_refl) as (before & x & after & -> & Hb & Hx & -> & ->).
    exists (y :: before), x, after. repeat split; try done.
    by constructor.
Qed.

Lemma update_conflicting_none key r now l :
  update_conflicting key r now l = None →
  Forall (fun y => same_key key r y = false) l.
Proof.
  induction l as [|y l IH]; intros H; simpl in H; [constructor|].
  destruct (same_key key r y) eqn:Hy; [discriminate|].
  destruct (update_conflicting key r now l) as [[z l'']|]; [discriminate|].
  constructor; [exact Hy|]. by apply IH.
Qed.

(** With that index in place the statement does what the claim describes:
    importing the example and then the same pair with chapter 3 leaves one
    row for the pair, with the id and creation time of the first insert
    and the chapter of the last. *)
Lemma bulkImport_with_index_example :
  let tok n := String (ascii_of_nat (48 + n)) "" in
  let O := calm (fun n => Z.of_nat n) tok in
  let w1 := snd (bulkImport O (Entries [entry "A" "ngon" "1"; entry "A" "ngon" "2"]) indexed) in
  let w2 := snd (bulkImport O (Entries [entry "A" "ngon" "3"]) w1) in
  stored_comics (db w2) =
    [Comic.mk 1 (SText "comic_0") (SText "A") (SText "ngon") (SText "") (SText "3")
       (SText "none") (SArray "{}") (SText "") 5 1].
Proof. vm_compute. reflexivity. Qed.

(** ** Listing comics *)

(** *** What [ILIKE '%s%'] matches *)

Lemma existsb_pointwise {A} (f g : A → bool) l :
  (∀ x, f x = g x) → existsb f l = existsb g l.
Proof. intros H. induction l as [|x l IH]; simpl; [done|]. by rewrite H, IH. Qed.

Lemma like_match_percent s : like_match [percent] s = true.
Proof.
  simpl. induction s as [|x s IH]; [reflexivity|].
  simpl. simpl in IH. exact IH.
Qed.

Lemma like_match_plain_prefix p s :
  plain p → like_match (p ++ [percent])%list s = is_prefix p s.
Proof.
  intros Hp. revert s. induction Hp as [|c p Hc _ IH]; intros s.
  - rewrite like_match_percent. by destruct s.
  - unfold is_meta in Hc. apply orb_false_elim in Hc as [Hc H3].
    apply orb_false_elim in Hc as [H1 H2].
    change ((c :: p) ++ [percent])%list with (c :: (p ++ [percent]))%list.
    cbn [like_match]. rewrite H1, H2, H3.
    destruct s as [|x s]; [reflexivity|].
    cbn [is_prefix]. by rewrite IH.
Qed.

(** For a plain text, [LIKE '%text%'] is the substring test. *)
Lemma like_match_plain_contains p s :
  plain p → like_match (percent :: p ++ [percent])%list s = contains p s.
Proof.
  intros Hp. cbn [like_match]. change (N.eqb percent percent) with true. cbv iota.
  unfold contains. apply existsb_pointwise. intros u.
  by apply like_match_plain_prefix.
Qed.

Lemma list_ascii_of_string_app a b :
  list_ascii_of_string (a +:+ b)
    = (list_ascii_of_string a ++ list_ascii_of_string b)%list.
Proof. induction a as [|c a IH]; simpl; [done|]. by rewrite IH. Qed.

(** The first character of a text begins with its first byte. *)
Lemma utf8_chars_head b l :
  ∃ k cs, utf8_chars (b :: l) = (b :: k) :: cs.
Proof.
  simpl. destruct (utf8_chars l) as [|[|c k] cs]; [by eexists _, _..|].
  destruct (is_continuation c); by eexists _, _.
Qed.

(** A character put at the end of a text is a character of its own. *)
Lemma utf8_chars_snoc l c :
  is_continuation c = false → utf8_chars (l ++ [c]) = (utf8_chars l ++ [[c]])%list.
Proof.
  intros Hc. induction l as [|b l IH]; [reflexivity|].
  change ((b :: l) ++ [c])%list with (b :: (l ++ [c]))%list.
  cbn [utf8_chars]. rewrite IH.
  destruct l as [|b' l']; [simpl; by rewrite Hc|].
  destruct (utf8_chars_head b' l') as (k & cs & ->). simpl.
  by destruct (is_continuation b').
Qed.

(** And so is one put in front of a text. *)
Lemma utf8_chars_cons c l :
  match l with [] => True | b :: _ => is_continuation b = false end →
  utf8_chars (c :: l) = [c] :: utf8_chars l.
Proof.
  intros Hl. destruct l as [|b l]; [reflexivity|].
  cbn [utf8_chars]. destruct (utf8_chars_head b l) as (k & cs & E).
  cbn [utf8_chars] in E. rewrite E. by rewrite Hl.
Qed.

Lemma chars_pattern s :
  starts_character s →
  chars ("%" +:+ s +:+ "%") = (percent :: chars s ++ [percent])%list.
Proof.
  intros Hs. unfold chars.
  change ("%" +:+ s +:+ "%") with (String "%" (s +:+ "%")).
  cbn [list_ascii_of_string]. rewrite (list_ascii_of_string_app s "%").
  change (list_ascii_of_string "%") with ["%"%char].
  rewrite utf8_chars_cons.
  - rewrite utf8_chars_snoc by reflexivity. cbn [map]. rewrite map_app. reflexivity.
  - destruct s as [|b s]; [reflexivity|exact Hs].
Qed.

(** For a search text that is plain once in lower case, the pattern the
    handler builds matches exactly the texts that contain it, letter case
    aside. *)
Lemma ilike_plain_contains O search v :
  starts_character search →
  lc_lower O percent = percent →
  plain (fold_case O search) →
  ilike O v ("%" +:+ search +:+ "%") = contains_ci O search v.
Proof.
  intros Hs Hpc Hp. destruct v as [|s|l]; try reflexivity.
  unfold ilike, contains_ci. unfold fold_case at 1. rewrite (chars_pattern _ Hs).
  cbn [map]. rewrite map_app. cbn [map]. rewrite Hpc.
  by apply like_match_plain_contains.
Qed.

(** *** The handler *)

Lemma sql_eq_truthy v c :
  js_truthy c = true →
  sql_eq v (value_of (prepareValue c)) = bool_decide (v = value_of (prepareValue c)).
Proof.
  intros Hc. destruct (prepareValue c) as [|s] eqn:E.
  - by apply truthy_not_null in Hc.
  - simpl. by destruct v.
Qed.

(** The [WHERE] clause the handler builds. *)
Lemma where_clause_build_query O rq r :
  where_clause O (build_query rq) r =
    (if js_truthy (category rq)
     then bool_decide (Comic.category_id r = value_of (prepareValue (category rq)))
     else true)
    && (if js_truthy (search rq)
        then ilike O (Comic.title r) ("%" +:+ js_to_string (search rq) +:+ "%")
             || ilike O (Comic.description r) ("%" +:+ js_to_string (search rq) +:+ "%")
        else true).
Proof.
  unfold where_clause, build_query; simpl. f_equal.
  - destruct (js_truthy (category rq)) eqn:Hc; [|reflexivity].
    by apply sql_eq_truthy.
  - by destruct (js_truthy (search rq)).
Qed.

Lemma where_clause_spec_filter O rq r :
  starts_character (js_to_string (search rq)) →
  lc_lower O percent = percent →
  plain (fold_case O (js_to_string (search rq))) →
  where_clause O (build_query rq) r = spec_filter O rq r.
Proof.
  intros Hs Hpc Hp. rewrite where_clause_build_query. unfold spec_filter. f_equal.
  destruct (js_truthy (search rq)); [|reflexivity].
  by rewrite !ilike_plain_contains.
Qed.

Global Instance by_last_updated_desc_total : Total by_last_updated_desc.
Proof. intros a b. unfold by_last_updated_desc. lia. Qed.

(** Integers that Numbers hold exactly. *)
Lemma to_double_safe z : Z.abs z < 2 ^ 53 → to_double z = Int z.
Proof. intros H. unfold to_double. by rewrite (proj2 (Z.ltb_lt _ _) H). Qed.

Lemma int8_of_number_safe z : Z.abs z < 2 ^ 53 → int8_of_number (Int z) = Some z.
Proof. intros H. unfold int8_of_number. by rewrite (proj2 (Z.ltb_lt _ _) H). Qed.

Lemma int8_in_range z : - 2 ^ 63 ≤ z < 2 ^ 63 → int8 z = Some z.
Proof.
  intros [H1 H2]. unfold int8.
  by rewrite (proj2 (Z.leb_le _ _) H1), (proj2 (Z.ltb_lt _ _) H2).
Qed.

Lemma int8_out_of_range z : z < - 2 ^ 63 ∨ 2 ^ 63 ≤ z → int8 z = None.
Proof.
  intros H. unfold int8.
  destruct (Z.leb_spec (- 2 ^ 63) z), (Z.ltb_spec z (2 ^ 63)); try reflexivity.
  exfalso. lia.
Qed.

(** [(page - 1) * limit] on Numbers, when nothing is rounded. *)
Lemma offset_safe rq :
  let page := default 1 (page rq) in
  let limit := default 100 (limit rq) in
  Z.abs page < 2 ^ 53 → Z.abs limit < 2 ^ 53 →
  Z.abs (page - 1) < 2 ^ 53 → Z.abs ((page - 1) * limit) < 2 ^ 53 →
  q_offset (build_query rq) = Int ((page - 1) * limit).
Proof.
  intros pg lm Hp Hl Hp1 Ho. unfold build_query; simpl.
  assert (match page rq with Some p => to_double p | None => Int 1 end = Int pg) as ->.
  { unfold pg. destruct (page rq) as [p|]; [|reflexivity]. by apply to_double_safe. }
  assert (match limit rq with Some l => to_double l | None => Int 100 end = Int lm) as ->.
  { unfold lm. destruct (limit rq) as [l|]; [|reflexivity]. by apply to_double_safe. }
  unfold js_minus. rewrite (to_double_safe _ Hp1).
  unfold js_times. by rewrite (to_double_safe _ Ho).
Qed.

(** One equation for [GET /api/comics] when the store answers: nothing
    without the table, nothing when the store rejects the limit or the
    offset, and the page otherwise. *)
Lemma listComics_run O w rq :
  faults O (tick w) = false →
  faults O (S (tick w)) = false →
  fst (listComics O rq w) =
    Ok (json (PComics
      (page_of (int8 (q_limit (build_query rq)))
         (int8_of_number (q_offset (build_query rq)))
         (merge_sort by_last_updated_desc
            (filter (fun r => where_clause O (build_query rq) r = true)
               (stored_comics (db w))))))).
Proof.
  intros H0 H1. unfold listComics, try_catch, stored_comics.
  erewrite bind_ok; cycle 1.
  { rewrite pool_query_unfold, H0. unfold table_exists. reflexivity. }
  unfold has_table; simpl.
  destruct (comics (db w)) as [t|] eqn:Ht; simpl.
  - unfold bind. rewrite pool_query_unfold; simpl. rewrite H1.
    unfold select_comics, page_of. simpl. rewrite Ht.
    destruct (int8 _) as [lm|]; [|reflexivity].
    destruct (int8_of_number _) as [off|]; [|reflexivity].
    destruct (lm <? 0); [reflexivity|].
    destruct (off <? 0); reflexivity.
  - do 3 f_equal. unfold page_of.
    change (merge_sort by_last_updated_desc (filter _ [])) with (@nil Comic.t).
    destruct (int8 _) as [lm|]; [|reflexivity].
    destruct (int8_of_number _) as [off|]; [|reflexivity].
    destruct (lm <? 0); [reflexivity|].
    destruct (off <? 0); [reflexivity|].
    by rewrite drop_nil, take_nil.
Qed.

Lemma page_of_segment limit offset l :
  ∃ n m, page_of limit offset l = take n (drop m l).
Proof.
  unfold page_of. repeat case_match; try (by exists 0%nat, 0%nat).
  by eexists _, _.
Qed.

(** C5 as stated fails on the code: the search text is pasted into an
    [ILIKE] pattern as it is, so [_] in it stands for any character.  The
    search for [_] returns the comic titled "a", whose title and
    description do not contain [_]. *)
Lemma listComics_wildcard_not_substring :
  fst (listComics quiet search_underscore (start db_a)) = Ok (json (PComics [comic_a]))
  ∧ contains_ci quiet "_" (Comic.title comic_a) = false
  ∧ contains_ci quiet "_" (Comic.description comic_a) = false
  ∧ spec_filter quiet search_underscore comic_a = false.
Proof. vm_compute. auto. Qed.

(** C5 (amended).  With a store that answers, for every request: the rows
    selected are those whose [category_id] equals the given category (when
    one is given) and whose [title] or [description] matches, with
    [ILIKE], the one pattern [%search%] (when a search is given), both
    when both are given; the answer is a run of consecutive rows of the
    selected rows in the order of [last_updated] descending, and it is the
    list of rows alone, without any total.  For [1 <= page] and
    [0 <= limit], as long as [page], [limit] and [(page - 1) * limit] are
    below [2^53], the run starts at [offset = (page - 1) * limit] and is
    [limit] rows long.  A limit that is negative or not below [2^63], and
    a page below 1 with a positive limit, give the empty list.  When the
    search text, put in the lower case of the store's locale, is free of
    the pattern characters [%], [_] and backslash, the match is
    containment of the search text, letter case aside: the filter is then
    the one the specification words. *)
Theorem listComics_spec O w rq :
  faults O (tick w) = false →
  faults O (S (tick w)) = false →
  let page := default 1 (page rq) in
  let limit := default 100 (limit rq) in
  let text := js_to_string (search rq) in
  let selected r :=
    (if js_truthy (category rq)
     then bool_decide (Comic.category_id r = value_of (prepareValue (category rq)))
     else true)
    && (if js_truthy (search rq)
        then ilike O (Comic.title r) ("%" +:+ text +:+ "%")
             || ilike O (Comic.description r) ("%" +:+ text +:+ "%")
        else true) in
  (starts_character text → lc_lower O percent = percent → plain (fold_case O text) →
     (∀ v, ilike O v ("%" +:+ text +:+ "%") = contains_ci O text v)
     ∧ (∀ r, selected r = spec_filter O rq r))
  ∧ ∃ ordered,
      ordered ≡ₚ filter (fun r => selected r = true) (stored_comics (db w))
      ∧ Sorted by_last_updated_desc ordered
      ∧ (∃ n m, fst (listComics O rq w) = Ok (json (PComics (take n (drop m ordered)))))
      ∧ (1 ≤ page < 2 ^ 53 → 0 ≤ limit < 2 ^ 53 → (page - 1) * limit < 2 ^ 53 →
         fst (listComics O rq w) =
           Ok (json (PComics (take (Z.to_nat limit)
                                (drop (Z.to_nat ((page - 1) * limit)) ordered)))))
      ∧ (limit < 0 ∨ 2 ^ 63 ≤ limit →
         fst (listComics O rq w) = Ok (json (PComics [])))
      ∧ (page ≤ 0 → 0 < limit < 2 ^ 53 → - 2 ^ 53 < (page - 1) * limit →
         fst (listComics O rq w) = Ok (json (PComics []))).
Proof.
  intros H0 H1 pg lm text selected. split.
  - intros Hs Hpc Hp. split.
    + intros v. by apply ilike_plain_contains.
    + intros r. unfold selected. rewrite <- where_clause_build_query.
      by apply where_clause_spec_filter.
  - exists (merge_sort by_last_updated_desc
              (filter (fun r => selected r = true) (stored_comics (db w)))).
    split; [apply merge_sort_Permutation|].
    split; [apply (Sorted_merge_sort by_last_updated_desc)|].
    rewrite (listComics_run O w rq H0 H1).
    rewrite (list_filter_iff (fun r => where_clause O (build_query rq) r = true)
               (fun r => selected r = true));
      [|intros r; by rewrite where_clause_build_query].
    change (q_limit (build_query rq)) with lm.
    split; [|split; [|split]].
    + destruct (page_of_segment (int8 lm) (int8_of_number (q_offset (build_query rq)))
                  (merge_sort by_last_updated_desc
                     (filter (fun r => selected r = true) (stored_comics (db w)))))
        as (n & m & ->).
      by exists n, m.
    + intros Hpg Hlm Hoff.
      assert (Hnn : 0 ≤ (pg - 1) * lm) by nia.
      rewrite (offset_safe rq) by (fold pg lm; lia). fold pg lm.
      rewrite int8_of_number_safe by lia.
      rewrite int8_in_range by lia.
      unfold page_of.
      rewrite (proj2 (Z.ltb_ge _ _) (proj1 Hlm)), (proj2 (Z.ltb_ge _ _) Hnn).
      reflexivity.
    + intros [Hneg|Hbig].
      * unfold page_of. destruct (int8 lm) as [l|] eqn:E; [|reflexivity].
        unfold int8 in E. destruct (_ && _); [|discriminate]. inversion E; subst l.
        destruct (int8_of_number _); [|reflexivity].
        by rewrite (proj2 (Z.ltb_lt _ _) Hneg).
      * rewrite int8_out_of_range by (by right). reflexivity.
    + intros Hpg Hlm Hoff.
      assert (Hneg : (pg - 1) * lm < 0) by nia.
      assert (Hp1 : - 2 ^ 53 < pg - 1) by nia.
      rewrite (offset_safe rq) by (fold pg lm; lia). fold pg lm.
      rewrite int8_of_number_safe by lia.
      rewrite int8_in_range by lia.
      unfold page_of.
      rewrite (proj2 (Z.ltb_ge _ _) (Z.lt_le_incl _ _ (proj1 Hlm))).
      by rewrite (proj2 (Z.ltb_lt _ _) Hneg).
Qed.

Lemma listComics_spec_witness :
  (∀ v, ilike quiet v "%A%" = contains_ci quiet "A" v)
  ∧ ∃ ordered,
      ordered ≡ₚ filter (fun r => spec_filter quiet search_a r = true) [comic_a]
      ∧ Sorted by_last_updated_desc ordered
      ∧ fst (listComics quiet search_a (start db_a)) =
          Ok (json (PComics (take (Z.to_nat 10) (drop (Z.to_nat ((1 - 1) * 10)) ordered)))).
Proof.
  destruct (listComics_spec quiet (start db_a) search_a eq_refl eq_refl)
    as [Hplain (ordered & Hperm & Hsorted & _ & Hpage & _)].
  assert (Hp : plain (fold_case quiet "A")) by (repeat constructor).
  destruct (Hplain eq_refl eq_refl Hp) as [Hlike Hsel].
  split; [exact Hlike|].
  exists ordered. split; [|split; [exact Hsorted|]].
  - rewrite Hperm.
    rewrite (list_filter_iff _ (fun r => spec_filter quiet search_a r = true));
      [reflexivity|].
    intros r. by rewrite Hsel.
  - apply Hpage; simpl; lia.
Defined.

(** Letter case is the locale's, not only that of the ASCII letters: a
    search for [đô] finds the title [ĐÔ THỊ]. *)
Lemma listComics_folds_beyond_ascii :
  ilike quiet (SText "ĐÔ THỊ") ("%" +:+ "đô" +:+ "%") = true
  ∧ contains_ci quiet "đô" (SText "ĐÔ THỊ") = true
  ∧ char_length "ĐÔ THỊ" = 6%nat.
Proof. vm_compute. auto. Qed.

(** ** The schema in every reachable state *)

Create HintDb schema.

Lemma preserves_ret P {A} (a : A) : preserves P (ret a).
Proof. intros w H. exact H. Qed.

Lemma preserves_throw P {A} e : preserves P (@throw A e).
Proof. intros w H. exact H. Qed.

Lemma preserves_bind P {A B} (m : M A) (k : A → M B) :
  preserves P m → (∀ a, preserves P (k a)) → preserves P (bind m k).
Proof.
  intros Hm Hk w H. unfold bind. specialize (Hm w H).
  destruct (m w) as [[a|e] w1]; simpl in *; [|exact Hm].
  by apply Hk.
Qed.

Lemma preserves_try_catch P {A} (m : M A) (h : string → M A) :
  preserves P m → (∀ e, preserves P (h e)) → preserves P (try_catch m h).
Proof.
  intros Hm Hh w H. unfold try_catch. specialize (Hm w H).
  destruct (m w) as [[a|e] w1]; simpl in *; [exact Hm|].
  by apply Hh.
Qed.

Lemma preserves_try_finally P {A} (m : M A) (f : M unit) :
  preserves P m → preserves P f → preserves P (try_finally m f).
Proof.
  intros Hm Hf w H. unfold try_finally. specialize (Hm w H).
  destruct (m w) as [r w1]; simpl in *. specialize (Hf w1 Hm).
  destruct (f w1) as [[[]|e] w2]; exact Hf.
Qed.

Lemma preserves_for_each P {A B} (f : A → M B) l :
  (∀ x, preserves P (f x)) → preserves P (for_each f l).
Proof.
  intros Hf. induction l as [|x l IH]; simpl.
  - apply preserves_ret.
  - apply preserves_bind; [apply Hf|]. intros y.
    apply preserves_bind; [apply IH|]. intros ys. apply preserves_ret.
Qed.

Lemma preserves_client_release P : preserves P client_release.
Proof. intros w H. exact H. Qed.

Lemma preserves_pool_connect P O : preserves P (pool_connect O).
Proof.
  intros w H. rewrite pool_connect_unfold. by destruct (faults O (tick w)).
Qed.

Lemma preserves_generate_comic_id P O : preserves P (generate_comic_id O).
Proof. intros w H. exact H. Qed.

Lemma preserves_client_query P O {A} (s : stmt A) :
  stmt_preserves P s → preserves P (client_query O s).
Proof.
  intros Hs w H. rewrite client_query_unfold.
  destruct (faults O (tick w)); [exact H|]. simpl. by apply Hs.
Qed.

Lemma preserves_pool_query P O {A} (s : stmt A) :
  stmt_preserves P s → preserves P (pool_query O s).
Proof.
  intros Hs w H. rewrite pool_query_unfold.
  destruct (faults O (tick w)); [exact H|]. simpl. by apply Hs.
Qed.

(** A statement that only reads keeps everything. *)
Lemma stmt_preserves_reading P {A} (s : stmt A) :
  (∀ now d, snd (s now d) = d) → stmt_preserves P s.
Proof. intros Hs now d H. by rewrite Hs. Qed.

(** A statement that leaves [comics] alone keeps its schema. *)
Lemma stmt_preserves_same_comics {A} (s : stmt A) :
  (∀ now d, comics (snd (s now d)) = comics d) →
  stmt_preserves declared_schema s.
Proof. intros Hs now d H t Ht. rewrite Hs in Ht. by apply H. Qed.

Lemma create_categories_table_keeps : stmt_preserves declared_schema create_categories_table.
Proof.
  apply stmt_preserves_same_comics. intros now d.
  unfold create_categories_table. simpl. by destruct (categories d).
Qed.

Lemma create_comics_table_keeps : stmt_preserves declared_schema create_comics_table.
Proof. exact create_comics_table_schema. Qed.

Lemma count_categories_keeps P : stmt_preserves P count_categories.
Proof.
  apply stmt_preserves_reading. intros now d. unfold count_categories.
  by destruct (categories d).
Qed.

Lemma count_comics_keeps P : stmt_preserves P count_comics.
Proof.
  apply stmt_preserves_reading. intros now d. unfold count_comics.
  by destruct (comics d).
Qed.

Lemma count_reading_keeps P : stmt_preserves P count_reading.
Proof.
  apply stmt_preserves_reading. intros now d. unfold count_reading.
  by destruct (comics d).
Qed.

Lemma count_table_keeps P name : stmt_preserves P (count_table name).
Proof.
  unfold count_table. intros now d H.
  repeat case_match; [by apply count_categories_keeps|by apply count_comics_keeps|done].
Qed.

Lemma insert_default_category_keeps c :
  stmt_preserves declared_schema (insert_default_category c).
Proof.
  apply stmt_preserves_same_comics. intros now d.
  unfold insert_default_category. by repeat case_match.
Qed.

Lemma add_foreign_key_keeps : stmt_preserves declared_schema add_foreign_key.
Proof.
  apply stmt_preserves_same_comics. intros now d.
  unfold add_foreign_key. by repeat case_match.
Qed.

Lemma select_now_keeps P : stmt_preserves P select_now.
Proof. by apply stmt_preserves_reading. Qed.

Lemma list_tables_keeps P : stmt_preserves P list_tables.
Proof. by apply stmt_preserves_reading. Qed.

Lemma table_exists_keeps P name : stmt_preserves P (table_exists name).
Proof. by apply stmt_preserves_reading. Qed.

Lemma tables_exist_keeps P : stmt_preserves P tables_exist.
Proof. by apply stmt_preserves_reading. Qed.

Lemma select_categories_keeps P : stmt_preserves P select_categories.
Proof.
  apply stmt_preserves_reading. intros now d. unfold select_categories.
  by destruct (categories d).
Qed.

Lemma select_comics_keeps P O q : stmt_preserves P (select_comics O q).
Proof.
  apply stmt_preserves_reading. intros now d. unfold select_comics.
  by repeat case_match.
Qed.

Lemma select_comic_keeps P id : stmt_preserves P (select_comic id).
Proof.
  apply stmt_preserves_reading. intros now d. unfold select_comic.
  by destruct (comics d).
Qed.

Lemma select_grouped_keeps P : stmt_preserves P select_grouped.
Proof.
  apply stmt_preserves_reading. intros now d. unfold select_grouped.
  by repeat case_match.
Qed.

Lemma delete_comic_keeps id : stmt_preserves declared_schema (delete_comic id).
Proof.
  intros now d H. unfold delete_comic.
  destruct (comics d) as [t|] eqn:Ht; [|exact H].
  simpl. by apply (set_comics_schema d t).
Qed.

Lemma insert_comic_keeps O v : stmt_preserves declared_schema (insert_comic O v).
Proof. apply insert_comic_schema. Qed.

Lemma update_comic_keeps O b id : stmt_preserves declared_schema (update_comic O b id).
Proof.
  intros now d H. unfold update_comic.
  destruct (comics d); [|exact H].
  destruct (typed_patch O b); [|exact H].
  by apply update_where_schema.
Qed.

Lemma update_chapter_keeps O c id : stmt_preserves declared_schema (update_chapter O c id).
Proof.
  intros now d H. unfold update_chapter.
  destruct (comics d); [|exact H].
  destruct (store_as O _ c); [|exact H].
  by apply update_where_schema.
Qed.

Lemma upsert_comic_keeps O v : stmt_preserves declared_schema (upsert_comic O v).
Proof.
  intros now d H.
  destruct (upsert_comic_rejected O v now d H) as [e ->]. exact H.
Qed.

#[local] Hint Resolve
  create_categories_table_keeps create_comics_table_keeps count_categories_keeps
  count_comics_keeps count_reading_keeps count_table_keeps
  insert_default_category_keeps add_foreign_key_keeps select_now_keeps
  list_tables_keeps table_exists_keeps tables_exist_keeps select_categories_keeps
  select_comics_keeps select_comic_keeps insert_comic_keeps update_comic_keeps
  update_chapter_keeps upsert_comic_keeps select_grouped_keeps
  delete_comic_keeps : schema.

(** Walk through a handler, one construct at a time. *)
Ltac keep_schema :=
  repeat match goal with
  | |- ∀ _, _ => intro
  | |- preserves _ (bind _ _) => apply preserves_bind
  | |- preserves _ (try_catch _ _) => apply preserves_try_catch
  | |- preserves _ (try_finally _ _) => apply preserves_try_finally
  | |- preserves _ (for_each _ _) => apply preserves_for_each
  | |- preserves _ (ret _) => apply preserves_ret
  | |- preserves _ (throw _) => apply preserves_throw
  | |- preserves _ client_release => apply preserves_client_release
  | |- preserves _ (pool_connect _) => apply preserves_pool_connect
  | |- preserves _ (generate_comic_id _) => apply preserves_generate_comic_id
  | |- preserves _ (client_query _ _) => apply preserves_client_query
  | |- preserves _ (pool_query _ _) => apply preserves_pool_query
  | |- preserves _ (if ?b then _ else _) => destruct b
  | |- preserves _ (match ?x with _ => _ end) => destruct x
  | |- stmt_preserves _ _ => solve [auto with schema]
  end.

Lemma initializeDatabase_keeps_schema O : preserves declared_schema (initializeDatabase O).
Proof. unfold initializeDatabase, initialize_statements. keep_schema. Qed.

Lemma serve_keeps_schema O rq w :
  declared_schema (db w) → declared_schema (db (serve O rq w)).
Proof.
  pose proof (initializeDatabase_keeps_schema O) as Hinit.
  destruct rq; simpl; revert w;
    match goal with |- ∀ w, _ → declared_schema (db (snd (?m w))) =>
      change (preserves declared_schema m) end;
    [ exact Hinit
    | unfold debugInfo, debug_count
    | unfold listCategories, fetch_categories
    | unfold listComics
    | unfold listGrouped
    | unfold getComic
    | unfold createComic
    | unfold updateComic
    | unfold patchChapter
    | unfold deleteComic
    | unfold getStats
    | unfold bulkImport, import_one ];
    keep_schema; try exact Hinit.
Qed.

(** From a schema without tables, whatever requests were served and
    whatever the store did meanwhile, [comics] has the key on [comic_id]
    and no other. *)
Lemma reachable_schema O history :
  declared_schema (db (serve_all O history (start no_tables))).
Proof.
  unfold serve_all.
  assert (Hstart : declared_schema (db (start no_tables))) by (intros t Ht; discriminate).
  revert Hstart. generalize (start no_tables).
  induction history as [|rq l IH]; intros w Hw; simpl; [exact Hw|].
  apply IH. by apply serve_keeps_schema.
Qed.

(** C1 (fails on the code).  The upsert is keyed on (title, category_id),
    but the [comics] table the program creates has no unique index on that
    pair, and no request ever adds one.  So on a database the program set
    up, after any history of requests and whatever the store does, an
    import of at least one entry is rejected by the store: the answer is
    500 and the database is left as it was.  On a freshly initialized
    database the import of the specification's example stores no row, where
    the claim expects one row for the pair. *)
Theorem bulkImport_has_no_arbiter_index O history e es :
  fst (bulkImport O (Entries (e :: es)) (serve_all O history (start no_tables)))
    = Ok internal_error
  ∧ db (snd (bulkImport O (Entries (e :: es)) (serve_all O history (start no_tables))))
    = db (serve_all O history (start no_tables))
  ∧ fst (bulkImport quiet (Entries [entry "A" "ngon" "1"; entry "A" "ngon" "2"]) seeded)
    = Ok internal_error
  ∧ stored_comics
      (db (snd (bulkImport quiet (Entries [entry "A" "ngon" "1"; entry "A" "ngon" "2"])
                  seeded))) = [].
Proof.
  pose proof (bulkImport_rejected O _ e es (reachable_schema O history)) as [Ha Hb].
  split; [exact Ha|]. split; [exact Hb|].
  assert (Hs : declared_schema (db seeded))
    by (unfold seeded; apply reachable_schema).
  pose proof (bulkImport_rejected quiet seeded (entry "A" "ngon" "1")
                [entry "A" "ngon" "2"] Hs) as [Hc Hd].
  split; [exact Hc|]. rewrite Hd. vm_compute. reflexivity.
Qed.

(** * Further properties *)

(** ** The pool over a history of requests *)

Lemma debugInfo_connect_fails O w :
  faults O (tick w) = true →
  debugInfo O w =
    (Ok (mk_response 500 (PDebugError unavailable)),
     mk_world (db w) (pool w) (S (tick w))).
Proof.
  intros H0. unfold debugInfo, try_catch.
  erewrite bind_threw; [reflexivity|].
  rewrite pool_connect_unfold, H0. reflexivity.
Qed.

(** The debug handler keeps at most the one connection it took. *)
Lemma debugInfo_leak_bound O w :
  released_during w (snd (debugInfo O w)) ≤ acquired_during w (snd (debugInfo O w))
  ∧ acquired_during w (snd (debugInfo O w)) ≤ released_during w (snd (debugInfo O w)) + 1.
Proof.
  destruct (faults O (tick w)) eqn:H0.
  - rewrite (debugInfo_connect_fails O w H0).
    unfold acquired_during, released_during; simpl. lia.
  - destruct (faults O (S (tick w))) eqn:H1.
    + destruct (debugInfo_leaks_on_exception O w H0 (or_introl H1)) as (_ & -> & ->). lia.
    + destruct (faults O (S (S (tick w)))) eqn:H2.
      * destruct (debugInfo_leaks_on_exception O w H0 (or_intror (conj H1 H2)))
          as (_ & -> & ->). lia.
      * destruct (debugInfo_releases_after_listing O w H0 H1 H2) as (_ & -> & ->). lia.
Qed.

Lemma serve_all_cons O rq history w :
  serve_all O (rq :: history) w = serve_all O history (serve O rq w).
Proof. reflexivity. Qed.

(** X1.  Whatever the requests and whatever the store does, the number of
    connections taken and not given back never exceeds the number of debug
    requests served; a history without debug requests leaves none. *)
Theorem pool_leak_bounded O history w :
  0 ≤ acquired_during w (serve_all O history w)
        - released_during w (serve_all O history w)
  ∧ acquired_during w (serve_all O history w)
      - released_during w (serve_all O history w)
    ≤ Z.of_nat (debug_requests history).
Proof.
  revert w. induction history as [|rq l IH]; intros w.
  - unfold acquired_during, released_during, debug_requests; simpl. lia.
  - rewrite serve_all_cons. specialize (IH (serve O rq w)).
    assert (Hstep : 0 ≤ acquired_during w (serve O rq w) - released_during w (serve O rq w)
                    ∧ acquired_during w (serve O rq w) - released_during w (serve O rq w)
                      ≤ (if is_debug rq then 1 else 0)).
    { destruct (is_debug rq) eqn:Hd.
      - destruct rq; try discriminate. simpl.
        pose proof (debugInfo_leak_bound O w). lia.
      - rewrite (serve_balanced O rq w) by (intros ->; discriminate). lia. }
    assert (Hcount : Z.of_nat (debug_requests (rq :: l))
                     = (if is_debug rq then 1 else 0) + Z.of_nat (debug_requests l)).
    { unfold debug_requests. destruct (is_debug rq) eqn:Hd.
      - rewrite filter_cons_True by exact Hd. simpl length. lia.
      - rewrite filter_cons_False by (rewrite Hd; discriminate). lia. }
    rewrite Hcount.
    unfold acquired_during, released_during in *. lia.
Qed.

(** ** Routes that only read *)

Lemma unchanged_is_preserved {A} (m : M A) w :
  preserves (fun d => d = db w) m → db (snd (m w)) = db w.
Proof. intros H. by apply H. Qed.

Lemma listCategories_existing_table O w t :
  categories (db w) = Some t → db (snd (listCategories O w)) = db w.
Proof.
  intros Ht. unfold listCategories, try_catch, bind at 1, fetch_categories.
  unfold bind at 1. rewrite pool_query_unfold.
  destruct (faults O (tick w)); [reflexivity|].
  unfold table_exists, has_table; simpl. rewrite Ht; simpl.
  unfold bind at 1, ret at 1. rewrite pool_query_unfold; simpl.
  destruct (faults O (S (tick w))); [reflexivity|].
  unfold select_categories; simpl. rewrite Ht. simpl.
  by destruct (Nat.eqb _ 0).
Qed.

(** X2.  The routes that only issue [SELECT]s (debug, comics list, grouped
    list, single comic, stats) leave the database exactly as it was,
    whatever the store does; so does the category list whenever the
    [categories] table exists, its only write being the creation of a
    missing table. *)
Theorem reads_never_write O rq w :
  is_read rq = true ∨ (rq = ListCategories ∧ is_Some (categories (db w))) →
  db (serve O rq w) = db w.
Proof.
  intros [Hr | [-> [t Ht]]].
  - destruct rq; try discriminate; simpl; apply unchanged_is_preserved;
      [ unfold debugInfo, debug_count
      | unfold listComics
      | unfold listGrouped
      | unfold getComic
      | unfold getStats ];
      keep_schema.
  - simpl. by eapply listCategories_existing_table.
Qed.

Lemma reads_never_write_witness :
  db (serve quiet GetStats seeded) = db seeded
  ∧ db (serve quiet ListCategories seeded) = db seeded.
Proof.
  split.
  - apply (reads_never_write quiet GetStats seeded). left. reflexivity.
  - apply (reads_never_write quiet ListCategories seeded). right.
    split; [reflexivity|]. vm_compute. eauto.
Defined.

(** ** What [initializeDatabase] does to the rows *)

Lemma stmt_preserves_stored_comics L {A} (s : stmt A) :
  (∀ now d, stored_comics (snd (s now d)) = stored_comics d) →
  stmt_preserves (fun d => stored_comics d = L) s.
Proof. intros Hs now d H. by rewrite Hs. Qed.

Lemma create_categories_table_comics now d :
  comics (snd (create_categories_table now d)) = comics d.
Proof. unfold create_categories_table. simpl. by destruct (categories d). Qed.

Lemma create_comics_table_stored now d :
  stored_comics (snd (create_comics_table now d)) = stored_comics d.
Proof.
  unfold create_comics_table, stored_comics. simpl.
  by destruct (comics d) eqn:Hc; simpl; rewrite ?Hc.
Qed.

Lemma create_comics_table_categories now d :
  categories (snd (create_comics_table now d)) = categories d.
Proof. unfold create_comics_table. simpl. by destruct (comics d). Qed.

Lemma insert_default_category_comics c now d :
  comics (snd (insert_default_category c now d)) = comics d.
Proof. unfold insert_default_category. by repeat case_match. Qed.

Lemma insert_default_category_prefix c now d :
  stored_categories d `prefix_of` stored_categories (snd (insert_default_category c now d)).
Proof.
  unfold insert_default_category, stored_categories.
  destruct (categories d) as [t|] eqn:Ht; simpl; [|by rewrite Ht].
  destruct (negb _); simpl; [by rewrite Ht|].
  destruct (existsb _ _); simpl; [done|].
  by apply prefix_app_r.
Qed.

(** The foreign key is a constraint: adding it changes no row. *)
Lemma add_foreign_key_comics now d : comics (snd (add_foreign_key now d)) = comics d.
Proof. unfold add_foreign_key. by repeat case_match. Qed.

Lemma add_foreign_key_categories now d :
  categories (snd (add_foreign_key now d)) = categories d.
Proof. unfold add_foreign_key. by repeat case_match. Qed.

Lemma initializeDatabase_stored_comics O L :
  preserves (fun d => stored_comics d = L) (initializeDatabase O).
Proof.
  unfold initializeDatabase, initialize_statements. keep_schema;
    apply stmt_preserves_stored_comics; intros now d.
  - unfold stored_comics. by rewrite create_categories_table_comics.
  - apply create_comics_table_stored.
  - unfold stored_comics. by rewrite insert_default_category_comics.
  - unfold stored_comics. by rewrite add_foreign_key_comics.
Qed.

Lemma initializeDatabase_categories_prefix O L :
  preserves (fun d => L `prefix_of` stored_categories d) (initializeDatabase O).
Proof.
  unfold initializeDatabase, initialize_statements. keep_schema;
    intros now d0 H.
  - unfold create_categories_table. simpl.
    unfold stored_categories in *.
    destruct (categories d0) eqn:Hc; simpl; rewrite ?Hc; exact H.
  - unfold stored_categories in *.
    by rewrite create_comics_table_categories.
  - etrans; [exact H|]. apply insert_default_category_prefix.
  - unfold stored_categories in *. by rewrite add_foreign_key_categories.
Qed.

(** A step whose result is known to satisfy [Q], then the rest. *)
Lemma preserves_bind_post P {A B} (Q : A → Prop) (m : M A) (k : A → M B) :
  preserves P m →
  (∀ w a w', P (db w) → m w = (Ok a, w') → Q a) →
  (∀ a, Q a → preserves P (k a)) →
  preserves P (bind m k).
Proof.
  intros Hm HQ Hk w H. unfold bind. specialize (Hm w H). specialize (HQ w).
  destruct (m w) as [[a|e] w1]; simpl in *; [|exact Hm].
  apply Hk; [|exact Hm]. by eapply HQ.
Qed.

(** With a row already in [categories], the statements change nothing in
    that table: the count is not zero and the seeding is skipped. *)
Lemma initialize_statements_seeded_before O w t :
  categories (db w) = Some t → rows t ≠ [] →
  categories (db (snd (initialize_statements O w))) = Some t.
Proof.
  intros Ht Hne. revert w Ht.
  change (preserves (fun d => categories d = Some t) (initialize_statements O)).
  unfold initialize_statements.
  apply preserves_bind.
  { apply preserves_client_query. intros now d H.
    unfold create_categories_table. simpl. by rewrite H. }
  intros _. apply preserves_bind.
  { apply preserves_client_query. intros now d H.
    by rewrite create_comics_table_categories. }
  intros _. apply (preserves_bind_post _ (fun n => n ≠ 0%nat)).
  - apply preserves_client_query. auto with schema.
  - intros w a w' H E. rewrite client_query_unfold in E.
    destruct (faults O (tick w)); [discriminate|].
    unfold count_categories in E. rewrite H in E. simpl in E. inversion E.
    by destruct (rows t).
  - intros n Hn. destruct (Nat.eqb_spec n 0); [done|].
    apply preserves_bind; [apply preserves_ret|]. intros _.
    apply preserves_try_catch; [|intros; apply preserves_ret].
    apply preserves_client_query. intros now d H.
    by rewrite add_foreign_key_categories.
Qed.

Lemma initializeDatabase_db O w :
  db (snd (initializeDatabase O w)) = db w
  ∨ db (snd (initializeDatabase O w))
    = db (snd (initialize_statements O
                 (mk_world (db w) (mk_pool (S (acquired (pool w))) (released (pool w)))
                    (S (tick w))))).
Proof.
  unfold initializeDatabase, try_catch, bind. rewrite pool_connect_unfold.
  destruct (faults O (tick w)); [by left|]. right.
  unfold try_finally, client_release.
  by destruct (initialize_statements O _) as [[[]|e] w2].
Qed.

(** X3.  [initializeDatabase] never deletes or alters a stored row, whatever
    the store does: the comics are the same afterwards, the categories that
    were there are still there, in place, followed by what was seeded, and
    a [categories] table that already held a row is left exactly as it
    was. *)
Theorem initializeDatabase_keeps_rows O w :
  stored_comics (db (snd (initializeDatabase O w))) = stored_comics (db w)
  ∧ stored_categories (db w) `prefix_of` stored_categories (db (snd (initializeDatabase O w)))
  ∧ (stored_categories (db w) = []
     ∨ categories (db (snd (initializeDatabase O w))) = categories (db w)).
Proof.
  split; [|split].
  - by apply (initializeDatabase_stored_comics O (stored_comics (db w)) w).
  - by apply (initializeDatabase_categories_prefix O (stored_categories (db w)) w).
  - unfold stored_categories.
    destruct (categories (db w)) as [t|] eqn:Ht; [|by left].
    destruct (rows t) as [|r l] eqn:Hr; [by left|]. right.
    destruct (initializeDatabase_db O w) as [-> | ->]; [exact Ht|].
    apply initialize_statements_seeded_before; [exact Ht|]. by rewrite Hr.
Qed.

(** ** Seeding *)

Lemma no_category_with_id v l :
  Forall (fun r => Category.category_id r ≠ SText v) l →
  existsb (fun r => sql_eq (Category.category_id r) (SText v)) l = false.
Proof.
  induction 1 as [|r l Hr _ IH]; simpl; [reflexivity|]. rewrite IH, orb_false_r.
  unfold sql_eq. destruct (Category.category_id r); [reflexivity| |];
    by apply bool_decide_eq_false.
Qed.

Lemma defaultCategories_distinct : NoDup (map dc_category_id defaultCategories).
Proof.
  apply (bool_decide_unpack (NoDup (map dc_category_id defaultCategories))).
  vm_compute. exact I.
Qed.

(** The seeding loop on a store that answers: every default whose id is
    not yet in the table is appended, in order. *)
Lemma seed_loop O l :
  (∀ k, faults O k = false) →
  NoDup (map dc_category_id l) →
  ∀ w t,
    categories (db w) = Some t →
    has_arbiter ["category_id"] t = true →
    (∀ c, c ∈ l →
       Forall (fun r => Category.category_id r ≠ SText (dc_category_id c)) (rows t)) →
    ∃ ys w' t',
      for_each (fun c => client_query O (insert_default_category c)) l w = (Ok ys, w')
      ∧ categories (db w') = Some t'
      ∧ comics (db w') = comics (db w)
      ∧ pool w' = pool w
      ∧ map category_fields (rows t')
        = (map category_fields (rows t) ++ map default_fields l)%list.
Proof.
  intros H. induction l as [|c l IH]; intros Hnd w t Ht Harb Hfresh.
  - exists [], w, t. simpl. by rewrite app_nil_r.
  - apply NoDup_cons in Hnd as [Hc Hnd].
    set (r := Category.mk (serial t) (SText (dc_category_id c)) (dc_name c)
                (SText (dc_code c)) (SText (dc_icon c)) (SText (dc_color c))
                (clock O (tick w))).
    set (t1 := mk_table (rows t ++ [r])%list (S (serial t)) (uniques t)).
    set (w1 := mk_world (set_categories t1 (db w)) (pool w) (S (tick w))).
    assert (Hstep : client_query O (insert_default_category c) w = (Ok tt, w1)).
    { rewrite client_query_unfold, H. unfold insert_default_category.
      rewrite Ht, Harb. simpl negb. cbv iota.
      rewrite (no_category_with_id _ _ (Hfresh c ltac:(left))). reflexivity. }
    destruct (IH Hnd w1 t1) as (ys & w' & t' & Hrun & Ht' & Hcm & Hp & Hf).
    + reflexivity.
    + exact Harb.
    + intros c' Hc'. simpl. apply Forall_app. split.
      * apply Hfresh. by right.
      * constructor; [|constructor]. simpl. intros Heq. apply Hc.
        inversion Heq as [Hid]. rewrite Hid. by apply list_elem_of_fmap_2.
    + exists (tt :: ys), w', t'. simpl for_each.
      rewrite (bind_ok _ _ _ _ _ Hstep), (bind_ok _ _ _ _ _ Hrun).
      split; [reflexivity|]. split; [exact Ht'|]. split; [exact Hcm|].
      split; [exact Hp|]. rewrite Hf. simpl. rewrite map_app, <- app_assoc. reflexivity.
Qed.

Lemma initialize_statements_seeds O w :
  (∀ k, faults O k = false) →
  stored_categories (db w) = [] →
  (∀ t, categories (db w) = Some t → uniques t = [["category_id"]]) →
  ∃ w' t',
    initialize_statements O w = (Ok tt, w')
    ∧ categories (db w') = Some t'
    ∧ map category_fields (rows t') = map default_fields defaultCategories
    ∧ pool w' = pool w.
Proof.
  intros H Hempty Hkey. unfold initialize_statements.
  (* CREATE TABLE categories *)
  assert (∃ t0 d1, create_categories_table (clock O (tick w)) (db w) = (Ok tt, d1)
                   ∧ categories d1 = Some t0 ∧ rows t0 = []
                   ∧ has_arbiter ["category_id"] t0 = true)
    as (t0 & d1 & E1 & Ht0 & Hr0 & Ha0).
  { unfold create_categories_table, stored_categories in *.
    destruct (categories (db w)) as [t|] eqn:Ht.
    - exists t, (db w). repeat split; try done.
      unfold has_arbiter. by rewrite (Hkey t eq_refl).
    - eexists _, _. split; [reflexivity|]. by repeat split. }
  erewrite bind_ok; [|rewrite client_query_unfold, H, E1; reflexivity].
  cbn [fst snd].
  (* CREATE TABLE comics *)
  erewrite bind_ok; [|rewrite client_query_unfold, H; reflexivity].
  unfold create_comics_table. cbn [fst snd db tick pool].
  set (d2 := match comics d1 with
             | Some _ => d1
             | None => set_comics (mk_table [] 1 [["comic_id"]]) d1
             end).
  assert (Hd2 : categories d2 = Some t0) by (unfold d2; by destruct (comics d1)).
  (* SELECT COUNT *)
  erewrite bind_ok; cycle 1.
  { rewrite client_query_unfold, H. unfold count_categories. cbn [db tick pool].
    rewrite Hd2. reflexivity. }
  cbn [fst snd]. rewrite Hr0. change (Nat.eqb (length (@nil Category.t)) 0) with true. cbv iota.
  (* the loop *)
  destruct (seed_loop O defaultCategories H defaultCategories_distinct
              (mk_world d2 (pool w) (S (S (S (tick w))))) t0 Hd2 Ha0)
    as (ys & w3 & t3 & Hrun & Ht3 & _ & Hp3 & Hf3).
  { intros c _. rewrite Hr0. constructor. }
  rewrite bind_bind. rewrite (bind_ok _ _ _ _ _ Hrun). rewrite bind_ret.
  (* the foreign key *)
  unfold try_catch. rewrite client_query_unfold, H.
  pose proof (add_foreign_key_categories (clock O (tick w3)) (db w3)) as Hfk.
  destruct (add_foreign_key (clock O (tick w3)) (db w3)) as [[[]|e] d4];
    simpl in *; (eexists _, t3; split; [reflexivity|]; simpl;
                 split; [by rewrite Hfk|]; split; [by rewrite Hf3, Hr0|exact Hp3]).
Qed.

Lemma initializeDatabase_run_ok O w w' :
  faults O (tick w) = false →
  initialize_statements O
    (mk_world (db w) (mk_pool (S (acquired (pool w))) (released (pool w))) (S (tick w)))
    = (Ok tt, w') →
  initializeDatabase O w =
    (Ok tt, mk_world (db w') (mk_pool (acquired (pool w')) (S (released (pool w')))) (tick w')).
Proof.
  intros H0 Hrun. unfold initializeDatabase, try_catch.
  erewrite bind_ok; [|rewrite pool_connect_unfold, H0; reflexivity].
  unfold try_finally. rewrite Hrun. reflexivity.
Qed.

(** X4.  On a store that answers, when [categories] is absent, or exists
    without rows and with the key its [CREATE TABLE] declares,
    [initializeDatabase] leaves in it exactly the sixteen defaults, in the
    order of the constant, each with its five fields. *)
Theorem initializeDatabase_seeds O w :
  (∀ k, faults O k = false) →
  stored_categories (db w) = [] →
  (∀ t, categories (db w) = Some t → uniques t = [["category_id"]]) →
  map category_fields (stored_categories (db (snd (initializeDatabase O w))))
    = map default_fields defaultCategories
  ∧ length (stored_categories (db (snd (initializeDatabase O w)))) = 16%nat.
Proof.
  intros H Hempty Hkey.
  destruct (initialize_statements_seeds O
              (mk_world (db w) (mk_pool (S (acquired (pool w))) (released (pool w)))
                 (S (tick w))) H Hempty Hkey)
    as (w' & t' & Hrun & Ht' & Hf & _).
  rewrite (initializeDatabase_run_ok O w w' (H _) Hrun). simpl.
  unfold stored_categories. rewrite Ht'. split; [exact Hf|].
  rewrite <- (length_map category_fields), Hf. reflexivity.
Qed.

Lemma initializeDatabase_seeds_witness :
  length (stored_categories (db (snd (initializeDatabase quiet (start empty_categories)))))
    = 16%nat.
Proof.
  apply (initializeDatabase_seeds quiet (start empty_categories)).
  - reflexivity.
  - reflexivity.
  - intros t Ht. vm_compute in Ht. by inversion Ht.
Defined.

(** The queries of the category list on a schema without [categories],
    with the store answering: the table is created and seeded on the way,
    and the [SELECT] reads the seeded rows. *)
Lemma fetch_categories_heals O w :
  (∀ k, faults O k = false) →
  categories (db w) = None →
  ∃ w' t',
    fetch_categories O w = (Ok (merge_sort by_name (rows t')), w')
    ∧ categories (db w') = Some t'
    ∧ map category_fields (rows t') = map default_fields defaultCategories.
Proof.
  intros H Hnone. unfold fetch_categories.
  erewrite bind_ok; cycle 1.
  { rewrite pool_query_unfold, H. unfold table_exists. reflexivity. }
  unfold has_table; simpl. rewrite Hnone; simpl.
  set (w1 := after_queries 1 (db w) w).
  destruct (initialize_statements_seeds O
              (mk_world (db w1) (mk_pool (S (acquired (pool w1))) (released (pool w1)))
                 (S (tick w1))) H)
    as (w2 & t' & Hrun & Ht' & Hf & _).
  { unfold stored_categories. simpl. by rewrite Hnone. }
  { intros t Ht. simpl in Ht. congruence. }
  erewrite bind_ok; [|exact (initializeDatabase_run_ok O w1 w2 (H _) Hrun)].
  rewrite pool_query_unfold, H. unfold select_categories. cbn [db tick pool].
  rewrite Ht'. eexists _, t'. split; [reflexivity|]. split; [exact Ht'|exact Hf].
Qed.

(** X5.  The category list heals a schema without [categories]: with the
    store answering, it creates and seeds the table and answers with the
    sixteen seeded rows ordered by name, not with the static list; the
    table holds those sixteen rows afterwards. *)
Theorem listCategories_heals O w :
  (∀ k, faults O k = false) →
  categories (db w) = None →
  ∃ l,
    fst (listCategories O w) = Ok (json (PCategories l))
    ∧ Sorted by_name l
    ∧ l ≡ₚ stored_categories (db (snd (listCategories O w)))
    ∧ map category_fields (stored_categories (db (snd (listCategories O w))))
      = map default_fields defaultCategories.
Proof.
  intros H Hnone.
  destruct (fetch_categories_heals O w H Hnone) as (w' & t' & Hrun & Ht' & Hf).
  assert (Hlen : length (merge_sort by_name (rows t')) = 16%nat).
  { rewrite (Permutation_length (merge_sort_Permutation by_name (rows t'))).
    rewrite <- (length_map category_fields), Hf. reflexivity. }
  exists (merge_sort by_name (rows t')).
  unfold listCategories, try_catch. rewrite (bind_ok _ _ _ _ _ Hrun).
  rewrite Hlen. simpl. unfold stored_categories. rewrite Ht'.
  split; [reflexivity|]. split; [apply (Sorted_merge_sort by_name)|].
  split; [apply merge_sort_Permutation|exact Hf].
Qed.

Lemma listCategories_heals_witness :
  ∃ l, fst (listCategories quiet (start no_tables)) = Ok (json (PCategories l))
       ∧ Sorted by_name l
       ∧ l ≡ₚ stored_categories (db (snd (listCategories quiet (start no_tables))))
       ∧ map category_fields
           (stored_categories (db (snd (listCategories quiet (start no_tables)))))
         = map default_fields defaultCategories.
Proof.
  apply (listCategories_heals quiet (start no_tables)); reflexivity.
Defined.

(** The texts of the sixteen defaults fit the columns they are inserted
    into: [category_id VARCHAR(50)], [name VARCHAR(100)],
    [code VARCHAR(10)], [icon VARCHAR(50)], [color VARCHAR(20)]. *)
Lemma defaultCategories_fit :
  Forall (fun c => fits 50 (dc_category_id c) ∧ fits 100 (dc_name c)
                   ∧ fits 10 (dc_code c) ∧ fits 50 (dc_icon c)
                   ∧ fits 20 (dc_color c)) defaultCategories.
Proof.
  unfold fits.
  apply (bool_decide_unpack
    (Forall (fun c => (char_length (dc_category_id c) ≤ 50)%nat
                      ∧ (char_length (dc_name c) ≤ 100)%nat
                      ∧ (char_length (dc_code c) ≤ 10)%nat
                      ∧ (char_length (dc_icon c) ≤ 50)%nat
                      ∧ (char_length (dc_color c) ≤ 20)%nat) defaultCategories)).
  vm_compute. exact I.
Qed.

(** ** The keys of [comics] in every reachable state *)

Create HintDb keys.

Lemma well_keyed_same_comics d d' :
  comics d' = comics d → well_keyed d → well_keyed d'.
Proof.
  intros Hc (Hs & Hn & Hf). unfold well_keyed, declared_schema, stored_comics in *.
  by rewrite Hc.
Qed.

Lemma stmt_keeps_keys_same_comics {A} (s : stmt A) :
  (∀ now d, comics (snd (s now d)) = comics d) →
  stmt_preserves well_keyed s.
Proof.
  intros Hs now d H.
  exact (well_keyed_same_comics d _ (Hs _ _) H).
Qed.

(** Drawing a value from the sequence touches no row and no key. *)
Lemma well_keyed_drawn d t :
  comics d = Some t → well_keyed d → well_keyed (set_comics (drawn t) d).
Proof.
  intros Ht (Hs & Hn & Hf). unfold stored_comics in Hn, Hf. rewrite Ht in Hn, Hf.
  split; [|split]; unfold stored_comics; simpl; try done.
  intros t' Ht'. inversion Ht'; subst. simpl. by apply Hs.
Qed.

Lemma stored_comics_set t d : stored_comics (set_comics t d) = rows t.
Proof. reflexivity. Qed.

Lemma create_categories_table_keys : stmt_preserves well_keyed create_categories_table.
Proof. apply stmt_keeps_keys_same_comics, create_categories_table_comics. Qed.

Lemma insert_default_category_keys c :
  stmt_preserves well_keyed (insert_default_category c).
Proof. apply stmt_keeps_keys_same_comics, insert_default_category_comics. Qed.

Lemma add_foreign_key_keys : stmt_preserves well_keyed add_foreign_key.
Proof. apply stmt_keeps_keys_same_comics, add_foreign_key_comics. Qed.

Lemma create_comics_table_keys : stmt_preserves well_keyed create_comics_table.
Proof.
  intros now d H. unfold create_comics_table. simpl.
  destruct (comics d) as [t|] eqn:Ht; [exact H|].
  split; [|split]; unfold stored_comics; simpl.
  - intros t' Ht'. by inversion Ht'.
  - constructor.
  - constructor.
Qed.

(** On the declared schema, an insert that goes through brings an id no
    stored row has. *)
Lemma no_conflict_fresh_id (t : table Comic.t) r :
  uniques t = [["comic_id"]] →
  unique_conflict t r = false →
  violates_not_null r = false →
  Forall (fun x => violates_not_null x = false) (rows t) →
  Comic.comic_id r ∉ map Comic.comic_id (rows t).
Proof.
  intros Hu Hc Hr Hrows. unfold unique_conflict in Hc. rewrite Hu in Hc.
  simpl in Hc. rewrite orb_false_r in Hc.
  induction Hrows as [|x l Hx _ IH]; simpl in *; [apply not_elem_of_nil|].
  apply orb_false_elim in Hc as [Hcx Hcl].
  apply not_elem_of_cons. split; [|by apply IH].
  rewrite andb_true_r in Hcx. unfold Comic.col in Hcx. simpl in Hcx.
  unfold violates_not_null in Hr, Hx.
  unfold sql_eq in Hcx.
  destruct (Comic.comic_id r), (Comic.comic_id x); simpl in *; try discriminate;
    by apply bool_decide_eq_false in Hcx.
Qed.

Lemma insert_comic_keys O v : stmt_preserves well_keyed (insert_comic O v).
Proof.
  intros now d H. unfold insert_comic.
  destruct (comics d) as [t|] eqn:Ht; [|exact H].
  destruct (proposed_row _ _ _ _) as [r|e]; [|exact H].
  destruct (violates_not_null _) eqn:Hv; [by apply well_keyed_drawn|].
  destruct (unique_conflict _ _) eqn:Hc; [by apply well_keyed_drawn|].
  destruct (violates_fkey _ _); [by apply well_keyed_drawn|].
  destruct H as (Hs & Hn & Hf).
  unfold stored_comics in Hn, Hf. rewrite Ht in Hn, Hf. cbn [snd].
  split; [|split]; rewrite ?stored_comics_set; unfold append_row; simpl.
  - intros t' Ht'. inversion Ht'; subst. simpl. by apply Hs.
  - rewrite map_app. apply NoDup_app. split; [exact Hn|]. split.
    + intros x Hx Hx'. apply list_elem_of_singleton in Hx'. subst.
      by eapply (no_conflict_fresh_id t); eauto.
    + apply NoDup_singleton.
  - apply Forall_app. split; [exact Hf|]. by constructor.
Qed.

(** An [UPDATE] whose assignments keep [comic_id] and put no [NULL] into a
    [NOT NULL] column keeps the keys. *)
Lemma update_where_keys f id :
  (∀ r, Comic.comic_id (f r) = Comic.comic_id r) →
  (∀ r, violates_not_null r = false → violates_not_null (f r) = false) →
  stmt_preserves well_keyed (update_where f id).
Proof.
  intros Hid Hnn now d H. unfold update_where.
  destruct (comics d) as [t|] eqn:Ht; [|exact H].
  destruct H as (Hs & Hn & Hf).
  unfold stored_comics in Hn, Hf. rewrite Ht in Hn, Hf. cbn [snd].
  split; [|split]; rewrite ?stored_comics_set; simpl.
  - intros t' Ht'. inversion Ht'; subst. simpl. by apply Hs.
  - rewrite map_map.
    erewrite map_ext; [exact Hn|]. intros r. simpl. by destruct (sql_eq _ _).
  - apply Forall_map. eapply Forall_impl; [exact Hf|].
    intros r Hr. simpl. destruct (sql_eq _ _); [by apply Hnn|exact Hr].
Qed.

Lemma coalesce_not_null p c : is_null c = false → is_null (coalesce p c) = false.
Proof. by destruct p. Qed.

Lemma update_comic_keys O b id : stmt_preserves well_keyed (update_comic O b id).
Proof.
  intros now d H. unfold update_comic.
  destruct (comics d); [|exact H].
  destruct (typed_patch O b) as [p|e]; [|exact H].
  apply update_where_keys; [reflexivity| |exact H].
  intros r Hr. unfold violates_not_null in *. simpl.
  apply orb_false_elim in Hr as [Hr Hc]. apply orb_false_elim in Hr as [Hi Ht].
  by rewrite Hi, Hc, (coalesce_not_null _ _ Ht).
Qed.

Lemma update_chapter_keys O c id : stmt_preserves well_keyed (update_chapter O c id).
Proof.
  intros now d H. unfold update_chapter.
  destruct (comics d); [|exact H].
  destruct (store_as O _ c); [|exact H].
  apply update_where_keys; [reflexivity| |exact H].
  intros r Hr. exact Hr.
Qed.

Lemma delete_comic_keys id : stmt_preserves well_keyed (delete_comic id).
Proof.
  intros now d H. unfold delete_comic.
  destruct (comics d) as [t|] eqn:Ht; [|exact H].
  destruct H as (Hs & Hn & Hf).
  unfold stored_comics in Hn, Hf. rewrite Ht in Hn, Hf. cbn [snd].
  split; [|split]; rewrite ?stored_comics_set; simpl.
  - intros t' Ht'. inversion Ht'; subst. simpl. by apply Hs.
  - eapply sublist_NoDup; [exact Hn|]. apply fmap_sublist, sublist_filter.
  - apply Forall_forall. intros x Hx. apply list_elem_of_filter in Hx as [_ Hx].
    rewrite Forall_forall in Hf. by apply Hf.
Qed.

Lemma upsert_comic_keys O v : stmt_preserves well_keyed (upsert_comic O v).
Proof.
  intros now d H.
  destruct (upsert_comic_rejected O v now d (proj1 H)) as [e ->]. exact H.
Qed.

#[local] Hint Resolve
  create_categories_table_keys insert_default_category_keys create_comics_table_keys
  insert_comic_keys update_comic_keys update_chapter_keys delete_comic_keys
  upsert_comic_keys add_foreign_key_keys : keys.

(** Walk through a handler, with the statements that write in [keys] and
    those that read in [schema]. *)
Ltac keep_keys :=
  repeat match goal with
  | |- ∀ _, _ => intro
  | |- preserves _ (bind _ _) => apply preserves_bind
  | |- preserves _ (try_catch _ _) => apply preserves_try_catch
  | |- preserves _ (try_finally _ _) => apply preserves_try_finally
  | |- preserves _ (for_each _ _) => apply preserves_for_each
  | |- preserves _ (ret _) => apply preserves_ret
  | |- preserves _ (throw _) => apply preserves_throw
  | |- preserves _ client_release => apply preserves_client_release
  | |- preserves _ (pool_connect _) => apply preserves_pool_connect
  | |- preserves _ (generate_comic_id _) => apply preserves_generate_comic_id
  | |- preserves _ (client_query _ _) => apply preserves_client_query
  | |- preserves _ (pool_query _ _) => apply preserves_pool_query
  | |- preserves _ (if ?b then _ else _) => destruct b
  | |- preserves _ (match ?x with _ => _ end) => destruct x
  | |- stmt_preserves _ _ => solve [auto with schema keys]
  end.

Lemma serve_keeps_keys O rq w : well_keyed (db w) → well_keyed (db (serve O rq w)).
Proof.
  destruct rq; simpl; revert w;
    match goal with |- ∀ w, _ → well_keyed (db (snd (?m w))) =>
      change (preserves well_keyed m) end;
    [ unfold initializeDatabase, initialize_statements
    | unfold debugInfo, debug_count
    | unfold listCategories, fetch_categories, initializeDatabase, initialize_statements
    | unfold listComics
    | unfold listGrouped
    | unfold getComic
    | unfold createComic
    | unfold updateComic
    | unfold patchChapter
    | unfold deleteComic
    | unfold getStats
    | unfold bulkImport, import_one ];
    keep_keys.
Qed.

Lemma at_most_one_hit id l :
  NoDup (map Comic.comic_id l) →
  (length (filter (fun r => hit (SText id) r = true) l) ≤ 1)%nat.
Proof.
  induction l as [|r l IH]; intros Hn; simpl; [lia|].
  apply NoDup_cons in Hn as [Hr Hn].
  destruct (hit (SText id) r) eqn:Hh.
  - rewrite filter_cons_True by exact Hh.
    assert (filter (fun r => hit (SText id) r = true) l = []) as ->; [|simpl; lia].
    apply filter_hits_none. apply Forall_forall. intros x Hx.
    destruct (hit (SText id) x) eqn:Hx'; [|reflexivity]. exfalso. apply Hr.
    assert (Hcr : Comic.comic_id r = SText id).
    { destruct (Comic.comic_id r) eqn:E; unfold hit, sql_eq in Hh; rewrite E in Hh;
        try discriminate; by apply bool_decide_eq_true in Hh. }
    assert (Hcx : Comic.comic_id x = SText id).
    { destruct (Comic.comic_id x) eqn:E; unfold hit, sql_eq in Hx'; rewrite E in Hx';
        try discriminate; by apply bool_decide_eq_true in Hx'. }
    rewrite Hcr, <- Hcx. by apply list_elem_of_fmap_2.
  - rewrite filter_cons_False by (rewrite Hh; discriminate). by apply IH.
Qed.

(** X6.  From a schema without tables, after any history of requests and
    whatever the store did, the keys of [comics] hold: no two stored comics
    share a [comic_id]; no stored comic has a [NULL] [comic_id], [title] or
    [category_id]; and a lookup by id finds at most one row. *)
Theorem reachable_keys O history :
  NoDup (map Comic.comic_id (stored_comics (db (serve_all O history (start no_tables)))))
  ∧ Forall (fun r => Comic.comic_id r ≠ SNull ∧ Comic.title r ≠ SNull
                     ∧ Comic.category_id r ≠ SNull)
      (stored_comics (db (serve_all O history (start no_tables))))
  ∧ ∀ id, (length (filter (fun r => hit (SText id) r = true)
                     (stored_comics (db (serve_all O history (start no_tables))))) ≤ 1)%nat.
Proof.
  assert (Hk : well_keyed (db (serve_all O history (start no_tables)))).
  { unfold serve_all.
    assert (Hstart : well_keyed (db (start no_tables))).
    { split; [intros t Ht; discriminate|]. split; constructor. }
    revert Hstart. generalize (start no_tables).
    induction history as [|rq l IH]; intros w Hw; simpl; [exact Hw|].
    apply IH. by apply serve_keeps_keys. }
  destruct Hk as (_ & Hn & Hf). split; [exact Hn|]. split.
  - eapply Forall_impl; [exact Hf|]. intros r Hr. unfold violates_not_null in Hr.
    apply orb_false_elim in Hr as [Hr Hc]. apply orb_false_elim in Hr as [Hi Ht].
    repeat split; intros E; rewrite E in *; discriminate.
  - intros id. by apply at_most_one_hit.
Qed.

(** ** Creating, reading and deleting a comic *)


Lemma taken_id_conflict (t : table Comic.t) r id x :
  uniques t = [["comic_id"]] →
  Comic.comic_id r = SText id →
  x ∈ rows t → Comic.comic_id x = SText id →
  unique_conflict t r = true.
Proof.
  intros Hu Hr Hin Hx. unfold unique_conflict. rewrite Hu. simpl.
  rewrite orb_false_r. apply existsb_exists. exists x.
  split; [by apply list_elem_of_In|].
  simpl. unfold Comic.col; simpl. rewrite Hr, Hx. simpl.
  by rewrite bool_decide_eq_true_2.
Qed.

(** The row proposed for a generated id that fits its column carries that
    id. *)
Lemma proposed_row_comic_id O body id n now row :
  fits 100 id →
  proposed_row O (created_values body id) n now = Ok row →
  Comic.comic_id row = SText id.
Proof.
  intros Hf Hrow. apply proposed_row_ok in Hrow as (Ei & _).
  change (v_comic_id (created_values body id)) with (TextParam id) in Ei.
  rewrite (store_as_fits _ _ _ Hf) in Ei. by inversion Ei.
Qed.

(** What a rejected [INSERT] leaves: the rows as they were. *)
Lemma createComic_rejected_by_constraint O w body t row :
  js_truthy (field body "title") = true →
  js_truthy (field body "category_id") = true →
  comics (db w) = Some t →
  faults O (S (tick w)) = false →
  proposed_row O (created_values body ("comic_" +:+ token O (tick w)))
    (serial t) (clock O (S (tick w))) = Ok row →
  unique_conflict t row = true ∨ violates_fkey (db w) row = true →
  createComic O body w =
    (Ok internal_error,
     after_queries 1 (set_comics (drawn t) (db w))
       (mk_world (db w) (pool w) (S (tick w)))).
Proof.
  intros Ht Hc Hcomics H1 Hrow Hrej.
  unfold createComic, try_catch. rewrite Ht, Hc. simpl.
  unfold generate_comic_id. rewrite bind_bind.
  unfold bind at 1, next_tick at 1. rewrite bind_ret.
  unfold bind. rewrite pool_query_unfold. simpl. rewrite H1.
  unfold insert_comic. rewrite Hcomics.
  unfold created_values in Hrow. rewrite Hrow.
  destruct (violates_not_null row); [reflexivity|].
  destruct (unique_conflict t row); [reflexivity|].
  destruct Hrej as [Hrej|Hrej]; [discriminate|]. by rewrite Hrej.
Qed.



(** X8.  When the generated id, which fits its column, is already the
    [comic_id] of a stored comic, the insert is rejected: [createComic]
    answers 500, no stored comic is added, removed or changed, and
    [categories] is as it was, whatever else the store does.  The database
    is not as it was, though: when the store has run the statement, the
    sequence behind [id] has given out a value, which no later row will
    get. *)
Theorem createComic_id_collision O w body t x :
  js_truthy (field body "title") = true →
  js_truthy (field body "category_id") = true →
  comics (db w) = Some t →
  uniques t = [["comic_id"]] →
  let id := "comic_" +:+ token O (tick w) in
  fits 100 id →
  x ∈ rows t →
  Comic.comic_id x = SText id →
  fst (createComic O body w) = Ok internal_error
  ∧ stored_comics (db (snd (createComic O body w))) = rows t
  ∧ categories (db (snd (createComic O body w))) = categories (db w)
  ∧ (faults O (S (tick w)) = false →
     ∀ row, proposed_row O (created_values body id) (serial t) (clock O (S (tick w)))
              = Ok row →
       comics (db (snd (createComic O body w)))
         = Some (mk_table (rows t) (S (serial t)) (uniques t))).
Proof.
  intros Ht Hc Hcomics Hu id Hfit Hin Hx.
  assert (Hstored : stored_comics (db w) = rows t)
    by (unfold stored_comics; by rewrite Hcomics).
  destruct (faults O (S (tick w))) eqn:H1.
  { assert (createComic O body w
            = (Ok internal_error, mk_world (db w) (pool w) (S (S (tick w))))) as ->.
    { unfold createComic, try_catch. rewrite Ht, Hc. simpl.
      unfold generate_comic_id. rewrite bind_bind.
      unfold bind at 1, next_tick at 1. rewrite bind_ret.
      unfold bind. rewrite pool_query_unfold. simpl. by rewrite H1. }
    simpl. repeat split; try done. }
  destruct (proposed_row O (created_values body id) (serial t) (clock O (S (tick w))))
    as [row|e] eqn:Hrow.
  - pose proof (proposed_row_comic_id O body id _ _ row Hfit Hrow) as Hid.
    rewrite (createComic_rejected_by_constraint O w body t row Ht Hc Hcomics H1 Hrow).
    + simpl. by repeat split.
    + left. by apply (taken_id_conflict t row id x).
  - assert (createComic O body w
            = (Ok internal_error, after_queries 1 (db w)
                 (mk_world (db w) (pool w) (S (tick w))))) as ->.
    { unfold createComic, try_catch. rewrite Ht, Hc. simpl.
      unfold generate_comic_id. rewrite bind_bind.
      unfold bind at 1, next_tick at 1. rewrite bind_ret.
      unfold bind. rewrite pool_query_unfold. simpl. rewrite H1.
      unfold insert_comic. rewrite Hcomics.
      unfold created_values, id in Hrow. by rewrite Hrow. }
    simpl. repeat split; try done.
Qed.

Lemma createComic_id_collision_witness :
  fst (createComic quiet (entry "B" "ngon" "1")
         (snd (createComic quiet (entry "A" "ngon" "1") seeded)))
  = Ok internal_error
  ∧ comics (db (snd (createComic quiet (entry "B" "ngon" "1")
                       (snd (createComic quiet (entry "A" "ngon" "1") seeded)))))
    = Some (mk_table
              [Comic.mk 1 (SText "comic_x") (SText "A") (SText "ngon") (SText "")
                 (SText "1") (SText "none") (SArray "{}") (SText "") 22 22]
              3 [["comic_id"]]).
Proof.
  assert (Hc : comics (db (snd (createComic quiet (entry "A" "ngon" "1") seeded)))
               = Some (mk_table
                         [Comic.mk 1 (SText "comic_x") (SText "A") (SText "ngon")
                            (SText "") (SText "1") (SText "none") (SArray "{}")
                            (SText "") 22 22] 2 [["comic_id"]]))
    by (vm_compute; reflexivity).
  assert (Hf : fits 100 ("comic_" +:+ token quiet
                 (tick (snd (createComic quiet (entry "A" "ngon" "1") seeded)))))
    by (vm_compute; lia).
  destruct (createComic_id_collision quiet _ (entry "B" "ngon" "1") _
              (Comic.mk 1 (SText "comic_x") (SText "A") (SText "ngon") (SText "")
                 (SText "1") (SText "none") (SArray "{}") (SText "") 22 22)
              eq_refl eq_refl Hc eq_refl Hf ltac:(left) eq_refl)
    as (Ha & _ & _ & Hd).
  split; [exact Ha|].
  exact (Hd eq_refl
           (Comic.mk 2 (SText "comic_x") (SText "B") (SText "ngon") (SText "")
              (SText "1") (SText "none") (SArray "{}") (SText "") 24 24) eq_refl).
Defined.






(** ** The chapter route as a special case of the update route *)

Lemma update_where_pointwise f g id now d :
  (∀ r, f r = g r) → update_where f id now d = update_where g id now d.
Proof.
  intros H. unfold update_where. destruct (comics d) as [t|]; [|reflexivity].
  f_equal.
  - f_equal. apply map_ext. intros r. apply H.
  - do 2 f_equal. apply map_ext. intros r. by rewrite H.
Qed.

(** The two statements, for a chapter alone: the same rows and the same
    database; when the chapter does not fit, both are rejected. *)
Lemma update_chapter_as_update_comic O c id now d :
  let b := {| b_chapter := TextParam c; b_rating := NullParam; b_title := NullParam;
              b_tags := NullParam; b_description := NullParam |} in
  snd (update_chapter O (TextParam c) id now d) = snd (update_comic O b id now d)
  ∧ match fst (update_chapter O (TextParam c) id now d),
          fst (update_comic O b id now d) with
    | Ok l, Ok l' => l = l'
    | Threw _, Threw _ => True
    | _, _ => False
    end.
Proof.
  intros b. unfold update_chapter, update_comic, typed_patch, and_then, b.
  cbn [b_chapter b_rating b_title b_tags b_description].
  rewrite !store_as_null.
  destruct (comics d) as [t|] eqn:Ht; [|done].
  destruct (store_as O (Varchar 50) (TextParam c)) as [v|e] eqn:Ev; [|done].
  apply store_as_not_null in Ev.
  rewrite (update_where_pointwise
             (apply_patch {| p_chapter := v; p_rating := SNull; p_title := SNull;
                             p_tags := SNull; p_description := SNull |} now)
             (set_chapter v now) id now d).
  - split; [reflexivity|]. unfold update_where. by rewrite Ht.
  - intros r. unfold apply_patch, set_chapter. simpl.
    by destruct v.
Qed.

(** X10.  For a chapter that is not empty, [patchChapter] does exactly what
    [updateComic] does with a body holding that chapter alone: same answer,
    same database, same use of the pool, whatever the store does. *)
Theorem patchChapter_is_chapter_only_update O w id c :
  c ≠ "" →
  patchChapter O id {[ "chapter" := JStr c ]} w
    = updateComic O id {[ "chapter" := JStr c ]} w.
Proof.
  intros Hc. unfold patchChapter, updateComic, params_of_body, field.
  rewrite lookup_singleton_eq. rewrite !lookup_singleton_ne by done.
  cbn [default from_option Datatypes.id js_truthy prepareValue].
  assert (negb (String.eqb c "") = true) as ->
    by (apply negb_true_iff, String.eqb_neq, Hc).
  cbn [negb]. unfold try_catch, bind. rewrite !pool_query_unfold.
  destruct (faults O (tick w)); [reflexivity|].
  destruct (update_chapter_as_update_comic O c (TextParam id) (clock O (tick w)) (db w))
    as [Hd Hr].
  cbn zeta in Hd, Hr. rewrite <- Hd.
  destruct (fst (update_chapter _ _ _ _ _)) as [l|e],
    (fst (update_comic _ _ _ _ _)) as [l'|e']; try done.
  by subst l'.
Qed.

Lemma patchChapter_is_chapter_only_update_witness :
  patchChapter quiet "comic_1" {[ "chapter" := JStr "7" ]} (start sample_db)
    = updateComic quiet "comic_1" {[ "chapter" := JStr "7" ]} (start sample_db).
Proof.
  apply (patchChapter_is_chapter_only_update quiet (start sample_db) "comic_1" "7").
  discriminate.
Defined.

(** ** The grouped listing *)

(** Filing a row under a key that is not an inherited name. *)
Lemma push_group_unfold g row :
  key_string (g_category_id row) ∉ inherited →
  push_group g row =
    Ok (<[key_string (g_category_id row) :=
            (default [] (g !! key_string (g_category_id row))
             ++ [grouped_entry row])%list]> g).
Proof.
  intros Hk. unfold push_group, grouped_entry, key_string, subcategory_string in *.
  destruct (g !! _); [reflexivity|]. simpl.
  by rewrite bool_decide_eq_false_2.
Qed.

(** What the [forEach] leaves under a key: the rows of that category, in
    the order of the query, after what was there. *)
Lemma group_rows_lookup result :
  Forall (fun row => key_string (g_category_id row) ∉ inherited) result →
  ∀ g : gmap string (list (string * list grouped_item)),
    ∃ g', group_rows g result = Ok g'
          ∧ ∀ k, default [] (g' !! k)
                 = (default [] (g !! k)
                    ++ map grouped_entry
                         (filter (fun row => key_string (g_category_id row) = k)
                            result))%list.
Proof.
  induction 1 as [|row l Hrow _ IH]; intros g; simpl.
  - exists g. split; [reflexivity|]. intros k. by rewrite app_nil_r.
  - rewrite (push_group_unfold g row Hrow). simpl.
    destruct (IH (<[key_string (g_category_id row) :=
                      (default [] (g !! key_string (g_category_id row))
                       ++ [grouped_entry row])%list]> g)) as (g' & Hrun & Hg').
    exists g'. split; [exact Hrun|]. intros k. rewrite Hg'.
    destruct (decide (key_string (g_category_id row) = k)) as [Hk|Hk].
    + rewrite filter_cons_True by exact Hk. subst k.
      rewrite lookup_insert_eq. simpl. by rewrite <- app_assoc.
    + rewrite filter_cons_False by exact Hk.
      by rewrite lookup_insert_ne.
Qed.

(** A row whose key is an inherited name makes the [forEach] throw. *)
Lemma group_rows_throws result :
  Exists (fun row => key_string (g_category_id row) ∈ inherited) result →
  ∀ g : gmap string (list (string * list grouped_item)),
    (∀ k, k ∈ inherited → g !! k = None) →
    ∃ e, group_rows g result = Threw e.
Proof.
  induction result as [|row l IH]; intros Hex g Hg; [by apply Exists_nil in Hex|].
  simpl. destruct (decide (key_string (g_category_id row) ∈ inherited)) as [Hk|Hk].
  - unfold push_group. unfold key_string in Hk. rewrite (Hg _ Hk).
    rewrite bool_decide_eq_true_2 by exact Hk. by eexists.
  - rewrite (push_group_unfold g row Hk). simpl. apply IH.
    + apply Exists_cons in Hex as [Hex|Hex]; [done|exact Hex].
    + intros k Hin. rewrite lookup_insert_ne; [by apply Hg|].
      intros Heq. apply Hk. by rewrite Heq.
Qed.

Lemma joined_names_inhabited cats c : ∃ n, n ∈ joined_names cats c.
Proof.
  unfold joined_names. destruct (filter _ cats) as [|k ks].
  - exists None. by left.
  - exists (Some (Category.name k)). by left.
Qed.

(** The rows of the grouped query, read both ways: every stored comic is
    an item of the row of its category and subcategory, and every item of
    a row is a stored comic of that category and subcategory. *)
Lemma select_grouped_rows now d tc t result d' :
  comics d = Some tc → categories d = Some t →
  select_grouped now d = (Ok result, d') →
  (∀ c, c ∈ rows tc →
     ∃ row, row ∈ result
            ∧ g_category_id row = Comic.category_id c
            ∧ g_subcategory row = Comic.subcategory c
            ∧ item_of c ∈ g_items row)
  ∧ (∀ row it, row ∈ result → it ∈ g_items row →
       ∃ c, c ∈ rows tc ∧ it = item_of c
            ∧ Comic.category_id c = g_category_id row
            ∧ Comic.subcategory c = g_subcategory row).
Proof.
  intros Hc Ht E. unfold select_grouped in E. rewrite Hc, Ht in E.
  inversion E as [[Hres Hd]]. clear E Hd.
  set (joined := flat_map (fun c => map (fun n => (group_key c n, c))
                                      (joined_names (rows t) c)) (rows tc)) in *.
  assert (Hjoined : ∀ p, p ∈ joined ↔
            ∃ c n, c ∈ rows tc ∧ n ∈ joined_names (rows t) c ∧ p = (group_key c n, c)).
  { intros p. unfold joined. rewrite list_elem_of_In, in_flat_map. split.
    - intros (c & Hin & Hp). apply in_map_iff in Hp as (n & <- & Hn).
      exists c, n. by rewrite !list_elem_of_In.
    - intros (c & n & Hin & Hn & ->). exists c. rewrite <- list_elem_of_In.
      split; [exact Hin|]. apply in_map_iff. exists n.
      by rewrite <- list_elem_of_In. }
  assert (Hkeys : ∀ k, k ∈ merge_sort by_group (remove_dups (map fst joined))
                       ↔ k ∈ map fst joined).
  { intros k. rewrite (merge_sort_Permutation by_group). apply elem_of_remove_dups. }
  split.
  - intros c Hin. destruct (joined_names_inhabited (rows t) c) as [n Hn].
    set (k := group_key c n).
    assert (Hp : (k, c) ∈ joined) by (apply Hjoined; by exists c, n).
    eexists. split; [|split; [|split]].
    + apply list_elem_of_fmap. exists k. split; [reflexivity|].
      apply Hkeys. apply list_elem_of_fmap. by exists (k, c).
    + reflexivity.
    + reflexivity.
    + simpl. apply list_elem_of_fmap_2.
      rewrite (merge_sort_Permutation by_title).
      apply list_elem_of_fmap. exists (k, c). split; [reflexivity|].
      by apply list_elem_of_filter.
  - intros row it Hrow Hit.
    apply list_elem_of_fmap in Hrow as (k & -> & Hk). simpl in Hit.
    apply list_elem_of_fmap in Hit as (c & -> & Hcin).
    rewrite (merge_sort_Permutation by_title) in Hcin.
    apply list_elem_of_fmap in Hcin as (p & -> & Hp).
    apply list_elem_of_filter in Hp as [Hfst Hp].
    apply Hjoined in Hp as (c & n & Hin & Hn & ->). simpl in *. subst k.
    exists c. by repeat split.
Qed.

(** Every row of the grouped query has an item. *)
Lemma select_grouped_nonempty now d tc t result d' :
  comics d = Some tc → categories d = Some t →
  select_grouped now d = (Ok result, d') →
  ∀ row, row ∈ result → ∃ it, it ∈ g_items row.
Proof.
  intros Hc Ht E. unfold select_grouped in E. rewrite Hc, Ht in E.
  inversion E as [[Hres Hd]]. clear E Hd.
  intros row Hrow. apply list_elem_of_fmap in Hrow as (k & -> & Hk). simpl.
  rewrite (merge_sort_Permutation by_group) in Hk.
  rewrite elem_of_remove_dups in Hk.
  apply list_elem_of_fmap in Hk as (p & -> & Hp).
  exists (item_of (snd p)). apply list_elem_of_fmap_2.
  rewrite (merge_sort_Permutation by_title).
  apply list_elem_of_fmap_2. by apply list_elem_of_filter.
Qed.

Lemma listGrouped_run O w tc t :
  comics (db w) = Some tc → categories (db w) = Some t →
  faults O (tick w) = false →
  faults O (S (tick w)) = false →
  ∃ result,
    select_grouped (clock O (S (tick w))) (db w) = (Ok result, db w)
    ∧ fst (listGrouped O w) =
        Ok (json (PGrouped (match group_rows ∅ result with
                            | Ok groupedData => groupedData
                            | Threw _ => ∅
                            end))).
Proof.
  intros Hc Ht H0 H1.
  assert (∃ result, select_grouped (clock O (S (tick w))) (db w) = (Ok result, db w))
    as [result Hsel].
  { unfold select_grouped. rewrite Hc, Ht. by eexists. }
  exists result. split; [exact Hsel|].
  unfold listGrouped, try_catch.
  erewrite bind_ok; cycle 1.
  { rewrite pool_query_unfold, H0. unfold tables_exist. reflexivity. }
  unfold has_table; simpl. rewrite Hc, Ht; simpl.
  unfold bind. rewrite pool_query_unfold; simpl. rewrite H1, Hsel. simpl.
  by destruct (group_rows ∅ result).
Qed.

(** X11.  With both tables and a store that answers: when no stored
    comic has, as its [category_id], a name that every object inherits
    ([constructor], [toString], [__proto__] and the like), the grouped
    listing answers with a mapping that loses no comic and invents none:
    every stored comic is an item of a group filed under its category,
    with its subcategory ([NULL] read as the empty string); and every item
    of every group is a stored comic of that category and subcategory.
    When some stored comic has such a name as its [category_id], filing it
    throws and the answer is the empty mapping. *)
Theorem listGrouped_lists_every_comic O w tc t :
  comics (db w) = Some tc →
  categories (db w) = Some t →
  faults O (tick w) = false →
  faults O (S (tick w)) = false →
  (Forall (fun c => key_string (Comic.category_id c) ∉ inherited) (rows tc) →
   ∃ groupedData,
     fst (listGrouped O w) = Ok (json (PGrouped groupedData))
     ∧ (∀ c, c ∈ rows tc →
          ∃ items,
            (subcategory_string (Comic.subcategory c), items)
              ∈ default [] (groupedData !! key_string (Comic.category_id c))
            ∧ item_of c ∈ items)
     ∧ (∀ k sub items it,
          (sub, items) ∈ default [] (groupedData !! k) → it ∈ items →
          ∃ c, c ∈ rows tc ∧ it = item_of c
               ∧ key_string (Comic.category_id c) = k
               ∧ subcategory_string (Comic.subcategory c) = sub))
  ∧ (Exists (fun c => key_string (Comic.category_id c) ∈ inherited) (rows tc) →
     fst (listGrouped O w) = Ok (json (PGrouped ∅))).
Proof.
  intros Hc Ht H0 H1.
  destruct (listGrouped_run O w tc t Hc Ht H0 H1) as (result & Hsel & Hrun).
  destruct (select_grouped_rows _ _ tc t result _ Hc Ht Hsel) as [Hall Honly].
  split.
  - intros Hplain.
    assert (Hkeys : Forall (fun row => key_string (g_category_id row) ∉ inherited)
                      result).
    { apply Forall_forall. intros row Hrow.
      destruct (select_grouped_nonempty _ _ tc t result _ Hc Ht Hsel row Hrow)
        as [it Hit].
      destruct (Honly row it Hrow Hit) as (c & Hin & _ & Hcat & _).
      rewrite <- Hcat. rewrite Forall_forall in Hplain. by apply Hplain. }
    destruct (group_rows_lookup result Hkeys ∅) as (g & Hg & Hlook).
    rewrite Hg in Hrun. exists g. split; [exact Hrun|]. split.
    + intros c Hin. destruct (Hall c Hin) as (row & Hrow & Hk & Hs & Hit).
      exists (g_items row). split; [|exact Hit].
      rewrite Hlook, lookup_empty. simpl.
      apply list_elem_of_fmap. exists row. split.
      * unfold grouped_entry. by rewrite Hs.
      * apply list_elem_of_filter. split; [by rewrite Hk|exact Hrow].
    + intros k sub items it Hgrp Hit.
      rewrite Hlook, lookup_empty in Hgrp. simpl in Hgrp.
      apply list_elem_of_fmap in Hgrp as (row & Hentry & Hrow).
      apply list_elem_of_filter in Hrow as [Hk Hrow].
      unfold grouped_entry in Hentry. inversion Hentry; subst.
      destruct (Honly row it Hrow Hit) as (c & Hin & -> & Hcat & Hsub).
      exists c. by rewrite Hcat, Hsub.
  - intros Hex. apply Exists_exists in Hex as (c & Hin & Hk).
    destruct (Hall c Hin) as (row & Hrow & Hcat & _).
    destruct (group_rows_throws result) with (g := (∅ : gmap string
                (list (string * list grouped_item)))) as [e He].
    + apply Exists_exists. exists row. split; [exact Hrow|]. by rewrite Hcat.
    + intros k _. apply lookup_empty.
    + by rewrite He in Hrun.
Qed.

Lemma listGrouped_lists_every_comic_witness :
  ∃ groupedData,
    fst (listGrouped quiet (start sample_db)) = Ok (json (PGrouped groupedData))
    ∧ ∃ items, ("", items) ∈ default [] (groupedData !! "ngon")
               ∧ item_of sample_comic ∈ items.
Proof.
  destruct (listGrouped_lists_every_comic quiet (start sample_db)
              (mk_table [sample_comic] 2 [["comic_id"]])
              (mk_table [] 1 [["category_id"]]) eq_refl eq_refl eq_refl eq_refl)
    as [H _].
  assert (Hplain : Forall (fun c => key_string (Comic.category_id c) ∉ inherited)
                     [sample_comic]).
  { repeat constructor. apply (bool_decide_unpack _). vm_compute. exact I. }
  destruct (H Hplain) as (g & Hrun & Hall & _).
  exists g. split; [exact Hrun|].
  apply (Hall sample_comic). left.
Defined.

(** X12.  The grouped listing degrades to the empty mapping: when either
    table is missing, or when the store fails one of its two queries, the
    answer is 200 with no group at all. *)
Theorem listGrouped_degrades O w :
  comics (db w) = None ∨ categories (db w) = None
  ∨ faults O (tick w) = true ∨ faults O (S (tick w)) = true →
  fst (listGrouped O w) = Ok (json (PGrouped ∅)).
Proof.
  intros H. unfold listGrouped, try_catch, bind at 1.
  rewrite pool_query_unfold.
  destruct (faults O (tick w)) eqn:H0; [reflexivity|].
  unfold tables_exist, has_table; simpl.
  destruct (categories (db w)) as [t|] eqn:Ht; simpl; [|reflexivity].
  destruct (comics (db w)) as [tc|] eqn:Hc; simpl; [|reflexivity].
  unfold bind. rewrite pool_query_unfold; simpl.
  destruct (faults O (S (tick w))) eqn:H1; [reflexivity|].
  exfalso. destruct H as [H|[H|[H|H]]]; discriminate.
Qed.

Lemma listGrouped_degrades_witness :
  fst (listGrouped quiet (start empty_categories)) = Ok (json (PGrouped ∅))
  ∧ fst (listGrouped unreachable (start sample_db)) = Ok (json (PGrouped ∅)).
Proof.
  split.
  - apply (listGrouped_degrades quiet (start empty_categories)). left. reflexivity.
  - apply (listGrouped_degrades unreachable (start sample_db)).
    right. right. left. reflexivity.
Defined.

(** ** The older server against [server.js] *)




Lemma listCategories_old_run O w :
  fst (listCategories_old O w) =
    Ok (if faults O (tick w) then internal_error
        else match categories (db w) with
             | Some t => json (PCategories (merge_sort by_name (rows t)))
             | None => internal_error
             end).
Proof.
  unfold listCategories_old, try_catch, bind. rewrite pool_query_unfold.
  destruct (faults O (tick w)); [reflexivity|].
  unfold select_categories. by destruct (categories (db w)).
Qed.

(** X14.  The older category list has no fallback.  Where [server.js]
    answers with the sixteen defaults (the store not answering, or the
    table holding no row) it answers 500, respectively the empty list; the
    two agree exactly when the table holds a row and the store answers. *)
Theorem listCategories_old_no_fallback O w t :
  categories (db w) = Some t →
  (faults O (tick w) = true →
     fst (listCategories_old O w) = Ok internal_error
     ∧ fst (listCategories O w) = Ok defaults_answer)
  ∧ (faults O (tick w) = false → faults O (S (tick w)) = false →
     (rows t = [] →
        fst (listCategories_old O w) = Ok (json (PCategories []))
        ∧ fst (listCategories O w) = Ok defaults_answer)
     ∧ (rows t ≠ [] →
        fst (listCategories_old O w) = fst (listCategories O w)
        ∧ fst (listCategories O w)
          = Ok (json (PCategories (merge_sort by_name (rows t)))))).
Proof.
  intros Ht. split.
  - intros H0. rewrite listCategories_old_run, H0. split; [reflexivity|].
    destruct (fetch_categories_unreachable O w H0) as [e He].
    by rewrite listCategories_by_fetch, He.
  - intros H0 H1. rewrite listCategories_old_run, H0, Ht.
    rewrite listCategories_by_fetch, (fetch_categories_stored O w t Ht H0 H1).
    simpl. split.
    + intros ->. split; reflexivity.
    + intros Hne.
      destruct (merge_sort by_name (rows t)) as [|r l] eqn:E; [|by split].
      pose proof (merge_sort_Permutation by_name (rows t)) as Hp.
      rewrite E in Hp. by apply Permutation_nil in Hp.
Qed.

Lemma listCategories_old_no_fallback_witness :
  fst (listCategories_old quiet (start empty_categories)) = Ok (json (PCategories []))
  ∧ fst (listCategories quiet (start empty_categories)) = Ok defaults_answer
  ∧ fst (listCategories_old unreachable (start empty_categories)) = Ok internal_error.
Proof.
  pose proof (listCategories_old_no_fallback quiet (start empty_categories)
                (mk_table [] 1 [["category_id"]]) eq_refl) as [_ H].
  destruct (H eq_refl eq_refl) as [H' _]. destruct (H' eq_refl) as [Ha Hb].
  pose proof (listCategories_old_no_fallback unreachable (start empty_categories)
                (mk_table [] 1 [["category_id"]]) eq_refl) as [Hu _].
  destruct (Hu eq_refl) as [Hc _].
  split; [exact Ha|]. split; [exact Hb|exact Hc].
Defined.

(** X15.  The older statistics route counts without looking at which
    tables exist: with either table missing it answers 500, whatever the
    store does, where [server.js] answers with zeros or with the length of
    the default list; with both tables and a store that answers the two
    give the same numbers. *)
Theorem getStats_old_needs_tables O w :
  (comics (db w) = None ∨ categories (db w) = None →
     fst (getStats_old O w) = Ok internal_error)
  ∧ ((∀ k, faults O k = false) →
     is_Some (comics (db w)) → is_Some (categories (db w)) →
     fst (getStats_old O w) = fst (getStats O w)).
Proof.
  split.
  - intros Hmiss. unfold getStats_old, try_catch, bind at 1.
    rewrite pool_query_unfold.
    destruct (faults O (tick w)); [reflexivity|].
    unfold count_comics.
    destruct (comics (db w)) as [tc|] eqn:Hc; [|reflexivity].
    destruct Hmiss as [?|Hcat]; [discriminate|]. cbn [fst snd].
    unfold bind at 1. rewrite pool_query_unfold. cbn [db tick pool after_queries].
    destruct (faults O _); [reflexivity|].
    unfold count_categories. rewrite Hcat. reflexivity.
  - intros H [tc Hc] [t Ht]. rewrite (getStats_answer O w H).
    unfold getStats_old, try_catch, stats_of, stored_comics.
    repeat first
      [ rewrite bind_bind
      | rewrite bind_ret
      | erewrite bind_ok;
        [|rewrite pool_query_unfold, H;
          unfold count_comics, count_reading, count_categories; simpl;
          rewrite ?Hc, ?Ht; reflexivity]; simpl ].
    rewrite Hc, Ht. reflexivity.
Qed.

Lemma getStats_old_needs_tables_witness :
  fst (getStats_old quiet (start empty_categories)) = Ok internal_error
  ∧ fst (getStats_old quiet seeded) = fst (getStats quiet seeded).
Proof.
  split.
  - apply (getStats_old_needs_tables quiet (start empty_categories)).
    left. reflexivity.
  - apply (getStats_old_needs_tables quiet seeded).
    + reflexivity.
    + vm_compute. eauto.
    + vm_compute. eauto.
Defined.

(** ** The connection indicators *)

(** X16.  [checkConnection] tests [latency > 5000] before
    [latency > 10000], so the second test never succeeds: whenever the
    [fetch] returns a body that is JSON, the toast is "success" up to
    5000 ms and "warning" above, and never "error", also at the 10000 ms
    and more at which [updateConnectionStatus] shows the server as
    offline.  The toast is "error" exactly when the [catch] block is
    reached: the [fetch] threw, or the body it returned is not JSON,
    whatever the latency.  [updateConnectionStatus] does not read the
    body: its status depends on the latency alone. *)
Theorem checkConnection_error_only_from_catch latency json :
  snd (checkConnection (Returned latency true)) ≠ "error"
  ∧ snd (checkConnection (Returned latency true))
    = (if bool_decide (latency ≤ 5000) then "success" else "warning")
  ∧ snd (checkConnection (Returned latency false)) = "error"
  ∧ snd (checkConnection FetchThrew) = "error"
  ∧ (∀ f, snd (checkConnection f) = "error"
          ↔ f = FetchThrew ∨ ∃ l, f = Returned l false)
  ∧ connectionStatus (updateConnectionStatus (Returned latency json))
    = (if bool_decide (latency < 2000) then "online"
       else if bool_decide (latency < 10000) then "slow" else "offline")
  ∧ connectionStatus (updateConnectionStatus FetchThrew) = "offline"
  ∧ (connectionStatus (updateConnectionStatus (Returned latency true)) = "offline"
     → snd (checkConnection (Returned latency true)) = "warning").
Proof.
  assert (Hok : ∀ l, snd (checkConnection (Returned l true))
                     = (if bool_decide (l ≤ 5000) then "success" else "warning")).
  { intros l. unfold checkConnection.
    destruct (Z.gtb_spec l 5000); destruct (Z.gtb_spec l 10000);
      case_bool_decide; try lia; reflexivity. }
  assert (Hst : connectionStatus (updateConnectionStatus (Returned latency json))
                = (if bool_decide (latency < 2000) then "online"
                   else if bool_decide (latency < 10000) then "slow" else "offline")).
  { unfold updateConnectionStatus.
    destruct (Z.ltb_spec latency 2000); destruct (Z.ltb_spec latency 10000);
      repeat case_bool_decide; try lia; reflexivity. }
  split; [rewrite Hok; destruct (bool_decide (latency ≤ 5000)); discriminate|].
  split; [apply Hok|].
  split; [reflexivity|]. split; [reflexivity|].
  split; [|split; [exact Hst|split; [reflexivity|]]].
  - intros [|l [|]].
    + split; [by left|reflexivity].
    + rewrite Hok. split.
      * destruct (bool_decide (l ≤ 5000)); discriminate.
      * intros [?|[l' ?]]; discriminate.
    + split; [right; by eexists|reflexivity].
  - rewrite Hok. unfold updateConnectionStatus.
    destruct (Z.ltb_spec latency 2000); [discriminate|].
    destruct (Z.ltb_spec latency 10000); [discriminate|].
    intros _. rewrite bool_decide_eq_false_2 by lia. reflexivity.
Qed.

Lemma checkConnection_error_only_from_catch_witness :
  snd (checkConnection (Returned 12000 true)) = "warning"
  ∧ snd (checkConnection (Returned 100 false)) = "error"
  ∧ connectionStatus (updateConnectionStatus (Returned 12000 true)) = "offline".
Proof.
  destruct (checkConnection_error_only_from_catch 12000 true)
    as (_ & _ & _ & _ & _ & Hs & _ & Hw).
  destruct (checkConnection_error_only_from_catch 100 true)
    as (_ & _ & He & _).
  split; [apply Hw; vm_compute; reflexivity|].
  split; [exact He|]. rewrite Hs. reflexivity.
Defined.

(** ** The two timestamps of a comic *)

Create HintDb dates.

Lemma dated_later a b d : a ≤ b → dated a d → dated b d.
Proof.
  intros Hab H. unfold dated in *. eapply Forall_impl; [exact H|].
  intros r [H1 H2]. simpl. split; lia.
Qed.

Lemma stmt_keeps_dates_same_comics {A} (s : stmt A) :
  (∀ now d, stored_comics (snd (s now d)) = stored_comics d) →
  stmt_keeps_dates s.
Proof. intros Hs now d H. unfold dated. by rewrite Hs. Qed.

Lemma create_categories_table_dates : stmt_keeps_dates create_categories_table.
Proof.
  apply stmt_keeps_dates_same_comics. intros now d.
  unfold stored_comics. by rewrite create_categories_table_comics.
Qed.

Lemma create_comics_table_dates : stmt_keeps_dates create_comics_table.
Proof.
  apply stmt_keeps_dates_same_comics. intros now d.
  apply create_comics_table_stored.
Qed.

Lemma insert_default_category_dates c : stmt_keeps_dates (insert_default_category c).
Proof.
  apply stmt_keeps_dates_same_comics. intros now d.
  unfold stored_comics. by rewrite insert_default_category_comics.
Qed.

Lemma add_foreign_key_dates : stmt_keeps_dates add_foreign_key.
Proof.
  apply stmt_keeps_dates_same_comics. intros now d.
  unfold stored_comics. by rewrite add_foreign_key_comics.
Qed.

(** A statement that keeps every property of the database keeps this one. *)
Lemma reading_dates {A} (s : stmt A) :
  (∀ P, stmt_preserves P s) → stmt_keeps_dates s.
Proof. intros Hs now d H. exact (Hs (dated now) now d H). Qed.

Lemma dated_drawn now d t :
  comics d = Some t → dated now d → dated now (set_comics (drawn t) d).
Proof.
  intros Hc H. unfold dated, stored_comics in *. simpl. by rewrite Hc in H.
Qed.

(** Both timestamps of a proposed row are [NOW()]. *)
Lemma dated_append now d t r :
  comics d = Some t → Comic.created_at r = now → Comic.last_updated r = now →
  dated now d → dated now (set_comics (append_row t r) d).
Proof.
  intros Hc Hcr Hl H. unfold dated in *. rewrite stored_comics_set.
  unfold append_row. simpl. unfold stored_comics in H. rewrite Hc in H.
  apply Forall_app. split; [exact H|]. constructor; [|constructor]. lia.
Qed.

Lemma insert_comic_dates O v : stmt_keeps_dates (insert_comic O v).
Proof.
  intros now d H. unfold insert_comic.
  destruct (comics d) as [t|] eqn:Hc; [|exact H].
  destruct (proposed_row _ _ _ _) as [r|e] eqn:Er; [|exact H].
  apply proposed_row_ok in Er as (_ & _ & _ & _ & _ & _ & _ & _ & _ & Hl & Hcr).
  destruct (violates_not_null _); [by apply dated_drawn|].
  destruct (unique_conflict _ _); [by apply dated_drawn|].
  destruct (violates_fkey _ _); [by apply dated_drawn|].
  by apply dated_append.
Qed.

Lemma update_where_dates f id now d :
  (∀ r, Comic.created_at (f r) = Comic.created_at r ∧ Comic.last_updated (f r) = now) →
  dated now d → dated now (snd (update_where f id now d)).
Proof.
  intros Hf H. unfold update_where. unfold dated in *.
  destruct (comics d) as [t|] eqn:Hc; [|exact H].
  cbn [snd]. rewrite stored_comics_set. simpl.
  unfold stored_comics in H. rewrite Hc in H.
  apply Forall_map. eapply Forall_impl; [exact H|].
  intros r [H1 H2]. simpl. destruct (sql_eq _ _); [|by split].
  destruct (Hf r) as [-> ->]. lia.
Qed.

Lemma update_comic_dates O b id : stmt_keeps_dates (update_comic O b id).
Proof.
  intros now d H. unfold update_comic.
  destruct (comics d); [|exact H].
  destruct (typed_patch O b); [|exact H].
  apply update_where_dates; [|exact H]. intros r. by split.
Qed.

Lemma update_chapter_dates O c id : stmt_keeps_dates (update_chapter O c id).
Proof.
  intros now d H. unfold update_chapter.
  destruct (comics d); [|exact H].
  destruct (store_as O _ c); [|exact H].
  apply update_where_dates; [|exact H]. intros r. by split.
Qed.

Lemma delete_comic_dates id : stmt_keeps_dates (delete_comic id).
Proof.
  intros now d H. unfold delete_comic. unfold dated in *.
  destruct (comics d) as [t|] eqn:Hc; [|exact H].
  cbn [snd]. rewrite stored_comics_set. simpl.
  unfold stored_comics in H. rewrite Hc in H.
  apply Forall_forall. intros r Hr. apply list_elem_of_filter in Hr as [_ Hr].
  by eapply Forall_forall in H.
Qed.

Lemma update_conflicting_dates key r now l x' l' :
  update_conflicting key r now l = Some (x', l') →
  Forall (fun r => Comic.created_at r ≤ Comic.last_updated r
                   ∧ Comic.last_updated r ≤ now) l →
  Forall (fun r => Comic.created_at r ≤ Comic.last_updated r
                   ∧ Comic.last_updated r ≤ now) l'.
Proof.
  revert l'. induction l as [|x l IH]; intros l' E H; simpl in E; [discriminate|].
  apply Forall_cons in H as [[Hx1 Hx2] Hl].
  destruct (same_key key r x).
  - inversion E; subst. constructor; [|exact Hl]. simpl. lia.
  - destruct (update_conflicting key r now l) as [[y l'']|]; [|discriminate].
    inversion E; subst. constructor; [by split|]. by apply IH.
Qed.

Lemma upsert_comic_dates O v : stmt_keeps_dates (upsert_comic O v).
Proof.
  intros now d H. unfold upsert_comic.
  destruct (comics d) as [t|] eqn:Hc; [|exact H].
  destruct (negb _); [exact H|].
  destruct (proposed_row _ _ _ _) as [r|e] eqn:Er; [|exact H].
  apply proposed_row_ok in Er as (_ & _ & _ & _ & _ & _ & _ & _ & _ & Hl & Hcr).
  destruct (violates_not_null _); [by apply dated_drawn|].
  destruct (update_conflicting _ _ _ _) as [[x' rows']|] eqn:Eu.
  - unfold dated in *. cbn [snd]. rewrite stored_comics_set. simpl.
    unfold stored_comics in H. rewrite Hc in H.
    by eapply update_conflicting_dates.
  - destruct (unique_conflict _ _); [by apply dated_drawn|].
    destruct (violates_fkey _ _); [by apply dated_drawn|].
    by apply dated_append.
Qed.

#[local] Hint Resolve create_categories_table_dates create_comics_table_dates
  insert_default_category_dates insert_comic_dates update_comic_dates
  update_chapter_dates delete_comic_dates upsert_comic_dates
  add_foreign_key_dates : dates.

Section Dates.

Variable O : oracle.
Hypothesis clock_mono : monotone_clock O.

Lemma keeps_dates_ret {A} (a : A) : keeps_dates O (ret a).
Proof. intros w H. exact H. Qed.

Lemma keeps_dates_throw {A} e : keeps_dates O (@throw A e).
Proof. intros w H. exact H. Qed.

Lemma keeps_dates_bind {A B} (m : M A) (k : A → M B) :
  keeps_dates O m → (∀ a, keeps_dates O (k a)) → keeps_dates O (bind m k).
Proof.
  intros Hm Hk w H. unfold bind. specialize (Hm w H).
  destruct (m w) as [[a|e] w1]; simpl in *; [|exact Hm].
  by apply Hk.
Qed.

Lemma keeps_dates_try_catch {A} (m : M A) (h : string → M A) :
  keeps_dates O m → (∀ e, keeps_dates O (h e)) → keeps_dates O (try_catch m h).
Proof.
  intros Hm Hh w H. unfold try_catch. specialize (Hm w H).
  destruct (m w) as [[a|e] w1]; simpl in *; [exact Hm|].
  by apply Hh.
Qed.

Lemma keeps_dates_try_finally {A} (m : M A) (f : M unit) :
  keeps_dates O m → keeps_dates O f → keeps_dates O (try_finally m f).
Proof.
  intros Hm Hf w H. unfold try_finally. specialize (Hm w H).
  destruct (m w) as [r w1]; simpl in *. specialize (Hf w1 Hm).
  destruct (f w1) as [[[]|e] w2]; exact Hf.
Qed.

Lemma keeps_dates_for_each {A B} (f : A → M B) l :
  (∀ x, keeps_dates O (f x)) → keeps_dates O (for_each f l).
Proof.
  intros Hf. induction l as [|x l IH]; simpl.
  - apply keeps_dates_ret.
  - apply keeps_dates_bind; [apply Hf|]. intros y.
    apply keeps_dates_bind; [apply IH|]. intros ys. apply keeps_dates_ret.
Qed.

Lemma keeps_dates_client_release : keeps_dates O client_release.
Proof. intros w H. exact H. Qed.

Lemma dated_next_tick w d :
  dated (clock O (tick w)) d → dated (clock O (S (tick w))) d.
Proof. apply dated_later, clock_mono. lia. Qed.

Lemma keeps_dates_pool_connect : keeps_dates O (pool_connect O).
Proof.
  intros w H. rewrite pool_connect_unfold.
  destruct (faults O (tick w)); by apply dated_next_tick.
Qed.

Lemma keeps_dates_generate_comic_id : keeps_dates O (generate_comic_id O).
Proof. intros w H. by apply dated_next_tick. Qed.

Lemma keeps_dates_client_query {A} (s : stmt A) :
  stmt_keeps_dates s → keeps_dates O (client_query O s).
Proof.
  intros Hs w H. rewrite client_query_unfold.
  destruct (faults O (tick w)); [by apply dated_next_tick|].
  apply (dated_next_tick w). by apply Hs.
Qed.

Lemma keeps_dates_pool_query {A} (s : stmt A) :
  stmt_keeps_dates s → keeps_dates O (pool_query O s).
Proof.
  intros Hs w H. rewrite pool_query_unfold.
  destruct (faults O (tick w)); [by apply dated_next_tick|].
  apply (dated_next_tick w). by apply Hs.
Qed.

Ltac keep_dates :=
  repeat match goal with
  | |- ∀ _, _ => intro
  | |- keeps_dates _ (bind _ _) => apply keeps_dates_bind
  | |- keeps_dates _ (try_catch _ _) => apply keeps_dates_try_catch
  | |- keeps_dates _ (try_finally _ _) => apply keeps_dates_try_finally
  | |- keeps_dates _ (for_each _ _) => apply keeps_dates_for_each
  | |- keeps_dates _ (ret _) => apply keeps_dates_ret
  | |- keeps_dates _ (throw _) => apply keeps_dates_throw
  | |- keeps_dates _ client_release => apply keeps_dates_client_release
  | |- keeps_dates _ (pool_connect _) => apply keeps_dates_pool_connect
  | |- keeps_dates _ (generate_comic_id _) => apply keeps_dates_generate_comic_id
  | |- keeps_dates _ (client_query _ _) => apply keeps_dates_client_query
  | |- keeps_dates _ (pool_query _ _) => apply keeps_dates_pool_query
  | |- keeps_dates _ (if ?b then _ else _) => destruct b
  | |- keeps_dates _ (match ?x with _ => _ end) => destruct x
  | |- stmt_keeps_dates _ =>
      first [ solve [auto with dates]
            | solve [apply reading_dates; intro; auto with schema] ]
  end.

Lemma initializeDatabase_keeps_dates : keeps_dates O (initializeDatabase O).
Proof. unfold initializeDatabase, initialize_statements. keep_dates. Qed.

Lemma serve_keeps_dates rq w : dated_world O w → dated_world O (serve O rq w).
Proof.
  pose proof initializeDatabase_keeps_dates as Hinit.
  destruct rq; simpl; revert w;
    match goal with |- ∀ w, _ → dated_world O (snd (?m w)) =>
      change (keeps_dates O m) end;
    [ exact Hinit
    | unfold debugInfo, debug_count
    | unfold listCategories, fetch_categories
    | unfold listComics
    | unfold listGrouped
    | unfold getComic
    | unfold createComic
    | unfold updateComic
    | unfold patchChapter
    | unfold deleteComic
    | unfold getStats
    | unfold bulkImport, import_one ];
    keep_dates; try exact Hinit.
Qed.

Lemma serve_all_keeps_dates history w :
  dated_world O w → dated_world O (serve_all O history w).
Proof.
  unfold serve_all. revert w.
  induction history as [|rq l IH]; intros w Hw; simpl; [exact Hw|].
  apply IH. by apply serve_keeps_dates.
Qed.

End Dates.

(** X17.  With a store whose clock never runs backwards, in every state the
    server can reach from a schema without tables, whatever requests were
    served and whichever of them failed, no comic has a [last_updated]
    before its [created_at], and none has one after the time of the store:
    updates, chapter patches and imports refresh [last_updated] and leave
    [created_at] as it was. *)
Theorem reachable_dates O history :
  monotone_clock O →
  let w := serve_all O history (start no_tables) in
  Forall (fun r => Comic.created_at r ≤ Comic.last_updated r
                   ∧ Comic.last_updated r ≤ clock O (tick w))
    (stored_comics (db w)).
Proof.
  intros Hm w. apply (serve_all_keeps_dates O Hm history (start no_tables)).
  unfold dated_world, dated. simpl. constructor.
Qed.

Lemma reachable_dates_witness :
  Forall (fun r => Comic.created_at r ≤ Comic.last_updated r
                   ∧ Comic.last_updated r ≤ 24)
    (stored_comics (db (serve_all quiet
       [Startup;
        CreateComic {[ "title" := JStr "A"; "category_id" := JStr "ngon" ]};
        PatchChapter "comic_x" {[ "chapter" := JStr "7" ]}]
       (start no_tables)))).
Proof.
  pose proof (reachable_dates quiet
    [Startup;
     CreateComic {[ "title" := JStr "A"; "category_id" := JStr "ngon" ]};
     PatchChapter "comic_x" {[ "chapter" := JStr "7" ]}]) as H.
  apply H. intros a b Hab. simpl. lia.
Defined.

(** ** What the debug route reports *)

Lemma debug_count_run O name w :
  has_table name (db w) = true →
  debug_count O name w =
    (Ok (name, if faults O (tick w) then inr ("Error: " +:+ unavailable)
               else inl (table_size name (db w))),
     mk_world (db w) (pool w) (S (tick w))).
Proof.
  intros Hn. unfold debug_count, try_catch, bind. rewrite client_query_unfold.
  destruct (faults O (tick w)); [reflexivity|].
  unfold count_table, table_size, has_table in *.
  destruct (String.eqb name "categories").
  - unfold count_categories, stored_categories.
    apply bool_decide_eq_true in Hn as [t Ht]. rewrite Ht. by destruct w.
  - destruct (String.eqb name "comics"); [|discriminate].
    unfold count_comics, stored_comics.
    apply bool_decide_eq_true in Hn as [t Ht]. rewrite Ht. by destruct w.
Qed.

Lemma debug_counts_run O l w :
  Forall (fun n => has_table n (db w) = true) l →
  ∃ counts w',
    for_each (debug_count O) l w = (Ok counts, w')
    ∧ db w' = db w
    ∧ map fst counts = l
    ∧ ∀ i name c, counts !! i = Some (name, c) →
        c = if faults O (tick w + i) then inr ("Error: " +:+ unavailable)
            else inl (table_size name (db w)).
Proof.
  revert w. induction l as [|n l IH]; intros w Hl.
  - exists [], w. repeat split. intros i name c Hi. by destruct i.
  - apply Forall_cons in Hl as [Hn Hl].
    destruct (IH (mk_world (db w) (pool w) (S (tick w))) Hl)
      as (cs & w' & Hcs & Hd & Hm & Hc).
    eexists (_ :: cs), w'. simpl.
    rewrite (bind_ok _ _ _ _ _ (debug_count_run O n w Hn)).
    rewrite (bind_ok _ _ _ _ _ Hcs). split; [reflexivity|].
    split; [exact Hd|]. split; [simpl; by rewrite Hm|].
    intros [|i] name c Hi; simpl in Hi.
    + inversion Hi; subst. by rewrite Nat.add_0_r.
    + rewrite (Hc i name c Hi). simpl. by rewrite Nat.add_succ_r.
Qed.

(** X18.  Once [connect], [SELECT NOW()] and the table listing have gone
    through, the debug route answers 200 with the time of the store, the
    existing tables in the order of their names, and one entry per table
    in [rowCounts]: the number of rows of that table, or, when the count
    of that one table failed, the text of its error; a failed count never
    fails the request or the counts after it, and the database is left as
    it was. *)
Theorem debugInfo_reports O w :
  faults O (tick w) = false →
  faults O (S (tick w)) = false →
  faults O (S (S (tick w))) = false →
  ∃ counts,
    fst (debugInfo O w)
      = Ok (json (PDebug (clock O (S (tick w))) (existing_tables (db w)) counts))
    ∧ map fst counts = existing_tables (db w)
    ∧ (∀ i name c, counts !! i = Some (name, c) →
         c = if faults O (3 + tick w + i) then inr ("Error: " +:+ unavailable)
             else inl (table_size name (db w)))
    ∧ db (snd (debugInfo O w)) = db w.
Proof.
  intros H0 H1 H2.
  assert (Hl : Forall (fun n => has_table n (db w) = true) (existing_tables (db w))).
  { apply Forall_forall. intros n Hn.
    by apply list_elem_of_filter in Hn as [Hn _]. }
  set (w3 := mk_world (db w)
               (mk_pool (S (acquired (pool w))) (released (pool w)))
               (S (S (S (tick w))))).
  destruct (debug_counts_run O (existing_tables (db w)) w3 Hl)
    as (counts & w' & Hcs & Hd & Hm & Hc).
  assert (Hrun : debugInfo O w =
            (Ok (json (PDebug (clock O (S (tick w))) (existing_tables (db w)) counts)),
             snd (client_release w'))).
  { unfold debugInfo, try_catch.
    erewrite bind_ok; [|rewrite pool_connect_unfold, H0; reflexivity].
    erewrite bind_ok;
      [|rewrite client_query_unfold; simpl; rewrite H1; reflexivity].
    erewrite bind_ok;
      [|rewrite client_query_unfold; simpl; rewrite H2; reflexivity].
    cbv beta. fold (existing_tables (db w)). fold w3.
    rewrite (bind_ok _ _ _ _ _ Hcs). reflexivity. }
  exists counts. rewrite Hrun. simpl. split; [reflexivity|].
  split; [exact Hm|]. split; [|exact Hd].
  intros i name c Hi. rewrite (Hc i name c Hi). reflexivity.
Qed.

Lemma debugInfo_reports_witness :
  ∃ counts,
    fst (debugInfo quiet seeded)
      = Ok (json (PDebug 22 ["categories"; "comics"] counts))
    ∧ counts = [("categories", inl 16%nat); ("comics", inl 0%nat)].
Proof.
  destruct (debugInfo_reports quiet seeded eq_refl eq_refl eq_refl)
    as (counts & Hr & _).
  exists counts. split; [exact Hr|].
  vm_compute in Hr. by inversion Hr.
Defined.

(** ** Answers under any behaviour of the store *)

(** X19.  [GET /api/comics] never answers with an error: whatever the store
    does, the answer is 200 with a list.  Every comic of the list is a
    stored one that passes the [WHERE] clause of the request (equality on
    [category_id], [ILIKE] in the lower case of the store's locale), and
    the list is never longer than the limit (100 when the request names
    none); a store that does not answer, a missing table and a limit or
    offset that the store rejects (negative, or not a 64-bit integer) all
    give the empty list.  The database is left as it was. *)
Theorem listComics_always_a_list O w rq :
  ∃ l,
    fst (listComics O rq w) = Ok (json (PComics l))
    ∧ (length l ≤ Z.to_nat (default 100%Z (limit rq)))%nat
    ∧ Forall (fun r => r ∈ stored_comics (db w)
                       ∧ where_clause O (build_query rq) r = true) l
    ∧ db (snd (listComics O rq w)) = db w.
Proof.
  assert (∃ l w',
    listComics O rq w = (Ok (json (PComics l)), w')
    ∧ (length l ≤ Z.to_nat (default 100%Z (limit rq)))%nat
    ∧ Forall (fun r => r ∈ stored_comics (db w)
                       ∧ where_clause O (build_query rq) r = true) l
    ∧ db w' = db w) as (l & w' & -> & H).
  { assert (Hnil : ∀ w',
      db w' = db w →
      ∃ l w'', (Ok (json (PComics [])), w') = (Ok (json (PComics l)), w'')
         ∧ (length l ≤ Z.to_nat (default 100%Z (limit rq)))%nat
         ∧ Forall (fun r => r ∈ stored_comics (db w)
                            ∧ where_clause O (build_query rq) r = true) l
         ∧ db w'' = db w).
    { intros w' Hw. exists [], w'.
      repeat split; [simpl; lia|constructor|exact Hw]. }
    unfold listComics, try_catch, bind. rewrite pool_query_unfold.
    destruct (faults O (tick w)); [by apply Hnil|].
    unfold table_exists, has_table. simpl.
    destruct (comics (db w)) as [t|] eqn:Ht; simpl; [|by apply Hnil].
    rewrite pool_query_unfold. simpl.
    destruct (faults O (S (tick w))); [by apply Hnil|].
    unfold select_comics. rewrite Ht.
    destruct (int8 (q_limit (build_query rq))) as [lm|] eqn:El; [|by apply Hnil].
    destruct (int8_of_number (q_offset (build_query rq))) as [off|];
      [|by apply Hnil].
    destruct (lm <? 0); [by apply Hnil|].
    destruct (off <? 0); [by apply Hnil|].
    assert (lm = default 100 (limit rq)) as ->.
    { unfold int8 in El. destruct (_ && _); [|discriminate]. by inversion El. }
    eexists _, _. split; [reflexivity|]. split; [|split; [|reflexivity]].
    - rewrite length_take. simpl. lia.
    - unfold stored_comics. rewrite Ht.
      apply Forall_forall. intros r Hr.
      apply subseteq_take, subseteq_drop in Hr.
      rewrite merge_sort_Permutation in Hr.
      by apply list_elem_of_filter in Hr as [Hr1 Hr2]. }
  exists l. split; [reflexivity|exact H].
Qed.

(** X20.  The statistics are all or nothing: whatever the store does, the
    answer is either 500 or the exact numbers of the database, the count
    of comics being read never above the count of comics; no answer mixes
    numbers with a failed count.  The database is left as it was. *)
Theorem getStats_all_or_nothing O w :
  (fst (getStats O w) = Ok internal_error
   ∨ ∃ total cats reading,
       fst (getStats O w) = Ok (json (PStats total cats reading))
       ∧ PStats total cats reading = stats_of (db w)
       ∧ (reading ≤ total)%nat)
  ∧ db (snd (getStats O w)) = db w.
Proof.
  assert (Hle : (length (filter (fun r => is_reading r = true) (stored_comics (db w)))
                 ≤ length (stored_comics (db w)))%nat) by apply length_filter.
  assert (∃ r w', getStats O w = (Ok r, w') ∧ db w' = db w
            ∧ (r = internal_error ∨ r = json (stats_of (db w))))
    as (r & w' & -> & Hd & Hr).
  { unfold stats_of, stored_comics.
    unfold getStats, try_catch, bind. rewrite pool_query_unfold.
    destruct (faults O (tick w)); [eexists _, _; split; [reflexivity|by auto]|].
    unfold tables_exist, has_table. simpl.
    destruct (categories (db w)) as [t|] eqn:Ht;
      destruct (comics (db w)) as [tc|] eqn:Hc; simpl;
      rewrite ?pool_query_unfold; simpl;
      repeat (match goal with
              | |- context [faults O ?k] => destruct (faults O k)
              end; simpl;
              [eexists _, _; split; [reflexivity|by auto]|];
              unfold count_comics, count_reading, count_categories; simpl;
              rewrite ?Ht, ?Hc; simpl;
              rewrite ?pool_query_unfold; simpl);
      eexists _, _; (split; [reflexivity|by auto]). }
  simpl. split; [|exact Hd].
  destruct Hr as [->| ->]; [by left|right].
  eexists _, _, _. split; [reflexivity|]. split; [reflexivity|exact Hle].
Qed.

(** ** The older list of comics *)



